(** * CMX 3600 EDL codec (package [cmx3600]): a shallow embedding

    The Go sources embedded here are [types.go] (track and edit types, the
    event record, [SanitizeReelName], the two error types), [decoder.go]
    ([parseEvents], [eventsToTimeline], [createTrack]) and [encoder.go]
    ([Encode], [writeHeader], [writeTrackEvents], [writeEvent],
    [formatTimecode]).

    Conventions of the embedding.
    - A Go [string] is the list of the runes (Unicode code points) it
      decodes to; every function of package [strings], [regexp] and [fmt]
      the codec calls works rune by rune.  The three byte-indexed
      expressions of the sources ([name[:maxLength]], [editTypeStr[0]],
      [clipName[:len(clipName)-3]]) act on text that is ASCII at that
      point, where bytes and runes coincide.
    - Go [int] is [Z]; [strconv.Atoi] saturates as the Go function does.
    - [float64] is [Q], the exact value; no rounding is modelled.
    - The packages [opentime] and [opentimelineio] are not part of this
      repository.  Rational time is kept abstract behind the class
      [Opentime]; the timeline nodes are closed variants carrying what the
      codec reads and writes. *)

From Stdlib Require Import List ZArith NArith QArith Qround Bool Lia String Ascii.
From Stdlib Require Import Permutation.
Import ListNotations.

Open Scope Z_scope.

(** ** Go strings *)

Definition rune := N.
Definition gostring := list rune.

(** [go "lit"] is the Go string literal ["lit"] (ASCII literals only). *)
Definition go (s : string) : gostring :=
  List.map N_of_ascii (list_ascii_of_string s).

Definition rune_eqb (a b : rune) : bool := N.eqb a b.

Fixpoint gostring_eqb (a b : gostring) : bool :=
  match a, b with
  | [], [] => true
  | x :: a', y :: b' => rune_eqb x y && gostring_eqb a' b'
  | _, _ => false
  end.

(** [len(s)] for text whose runes are one byte each. *)
Definition len (s : gostring) : Z := Z.of_nat (List.length s).

Definition in_range (lo hi r : rune) : bool := (N.leb lo r && N.leb r hi)%bool.

Definition rA : rune := 65%N.
Definition rZ : rune := 90%N.
Definition ra : rune := 97%N.
Definition rz : rune := 122%N.
Definition r0 : rune := 48%N.
Definition r9 : rune := 57%N.
Definition underscore : rune := 95%N.
Definition space : rune := 32%N.
Definition newline : gostring := [10%N].

(** [strings.HasPrefix], [strings.TrimPrefix], [strings.HasSuffix]. *)
Fixpoint HasPrefix (s prefix : gostring) : bool :=
  match prefix, s with
  | [], _ => true
  | p :: prefix', c :: s' => rune_eqb p c && HasPrefix s' prefix'
  | _ :: _, [] => false
  end.

Definition TrimPrefix (s prefix : gostring) : gostring :=
  if HasPrefix s prefix then skipn (List.length prefix) s else s.

Definition HasSuffix (s suffix : gostring) : bool :=
  HasPrefix (rev s) (rev suffix).

(** [unicode.IsSpace]: the Latin-1 spaces and the White_Space table. *)
Definition unicode_IsSpace (r : rune) : bool :=
  (in_range 9 13 r || N.eqb r 32 || N.eqb r 133 || N.eqb r 160
   || N.eqb r 5760 || in_range 8192 8202 r || N.eqb r 8232 || N.eqb r 8233
   || N.eqb r 8239 || N.eqb r 8287 || N.eqb r 12288)%bool%N.

Fixpoint TrimLeftSpace (s : gostring) : gostring :=
  match s with
  | c :: s' => if unicode_IsSpace c then TrimLeftSpace s' else s
  | [] => []
  end.

(** [strings.TrimSpace]. *)
Definition TrimSpace (s : gostring) : gostring :=
  rev (TrimLeftSpace (rev (TrimLeftSpace s))).

(** [strings.Map] for a mapping that never returns a negative rune. *)
Definition strings_Map (mapping : rune -> rune) (s : gostring) : gostring :=
  List.map mapping s.

(** ** types.go *)

(** [type EditType string] and its constants. *)
Definition EditType := gostring.
Definition EditTypeCut : EditType := go "C".
Definition EditTypeDissolve : EditType := go "D".
Definition EditTypeWipe : EditType := go "W".
Definition EditTypeKeyBackground : EditType := go "KB".
Definition EditTypeKey : EditType := go "K".

(** [type TrackType string] and its constants. *)
Definition TrackType := gostring.
Definition TrackTypeVideo : TrackType := go "V".
Definition TrackTypeAudio : TrackType := go "A".
Definition TrackTypeAudio1 : TrackType := go "A1".
Definition TrackTypeAudio2 : TrackType := go "A2".
Definition TrackTypeAudio3 : TrackType := go "A3".
Definition TrackTypeAudio4 : TrackType := go "A4".

Definition IsVideoTrack (t : TrackType) : bool := gostring_eqb t TrackTypeVideo.

Definition IsAudioTrack (t : TrackType) : bool :=
  gostring_eqb t TrackTypeAudio
  || gostring_eqb t TrackTypeAudio1
  || gostring_eqb t TrackTypeAudio2
  || gostring_eqb t TrackTypeAudio3
  || gostring_eqb t TrackTypeAudio4.

Definition DefaultReelNameLength : Z := 8.

(** The mapping handed to [strings.Map] in [SanitizeReelName]. *)
Definition sanitizeRune (r : rune) : rune :=
  if (in_range rA rZ r || in_range ra rz r || in_range r0 r9 r
      || rune_eqb r underscore)%bool
  then r else underscore.

(** [func SanitizeReelName(name string, maxLength int) string]. *)
Definition SanitizeReelName (name : gostring) (maxLength : Z) : gostring :=
  let name1 := strings_Map sanitizeRune name in
  let name2 :=
    if (0 <? maxLength) && (maxLength <? len name1)
    then firstn (Z.to_nat maxLength) name1
    else name1 in
  if gostring_eqb name2 (go "") then go "AX" else name2.

(** [type ParseError struct { Line int; Message string }],
    [type EncodeError struct { Message string }], and the plain errors the
    decoder builds with [fmt.Errorf] around a failed timecode conversion
    (the wrapped field is kept, the text of the wrapped error is not). *)
Inductive TimecodeField := FSourceIn | FSourceOut | FRecordIn | FRecordOut.

Inductive error :=
| ParseError (Line : Z) (Message : gostring)
| EncodeError (Message : gostring)
| InvalidTimecode (field : TimecodeField) (text : gostring)
| ItemError (Message : gostring).

Inductive result (A : Type) :=
| Ok (a : A)
| Err (e : error).
Arguments Ok {A} a.
Arguments Err {A} e.

Definition bind {A B} (r : result A) (f : A -> result B) : result B :=
  match r with
  | Ok a => f a
  | Err e => Err e
  end.

Notation "'do' x <- r ; k" := (bind r (fun x => k))
  (at level 10, x pattern, r at level 100, k at level 200).

(** [type SpeedEffect], [type Marker], [type ASCCDL]. *)
Record SpeedEffect := mkSpeedEffect {
  seName : gostring;
  seSpeed : Q;
  seTimecode : gostring }.

Record Marker := mkMarker {
  mkTimecode : gostring;
  mkColor : gostring;
  mkComment : gostring }.

Record ASCCDL := mkASCCDL {
  Slope : Q * Q * Q;
  Offset : Q * Q * Q;
  Power : Q * Q * Q;
  Saturation : Q }.

(** The zero value [ASCCDL{}]. *)
Definition ASCCDL_zero : ASCCDL := mkASCCDL (0, 0, 0)%Q (0, 0, 0)%Q (0, 0, 0)%Q 0%Q.

(** [type EDLEvent struct]. *)
Record EDLEvent := mkEDLEvent {
  EventNumber : Z;
  ReelName : gostring;
  evTrackType : TrackType;
  evEditType : EditType;
  SourceIn : gostring;
  SourceOut : gostring;
  RecordIn : gostring;
  RecordOut : gostring;
  Comment : gostring;
  ClipName : gostring;
  TransitionDuration : Z;
  WipeCode : gostring;
  evSpeedEffect : option SpeedEffect;
  FreezeFrame : bool;
  FilePath : gostring;
  Markers : list Marker;
  evASCCDL : option ASCCDL }.

(** Field assignments on an event ([currentEvent.F = v]). *)
Definition set_timecodes (e : EDLEvent) (si so ri ro : gostring) : EDLEvent :=
  mkEDLEvent (EventNumber e) (ReelName e) (evTrackType e) (evEditType e)
    si so ri ro (Comment e) (ClipName e) (TransitionDuration e) (WipeCode e)
    (evSpeedEffect e) (FreezeFrame e) (FilePath e) (Markers e) (evASCCDL e).

Definition set_Comment (e : EDLEvent) (v : gostring) : EDLEvent :=
  mkEDLEvent (EventNumber e) (ReelName e) (evTrackType e) (evEditType e)
    (SourceIn e) (SourceOut e) (RecordIn e) (RecordOut e) v (ClipName e)
    (TransitionDuration e) (WipeCode e) (evSpeedEffect e) (FreezeFrame e)
    (FilePath e) (Markers e) (evASCCDL e).

Definition set_ClipName (e : EDLEvent) (v : gostring) : EDLEvent :=
  mkEDLEvent (EventNumber e) (ReelName e) (evTrackType e) (evEditType e)
    (SourceIn e) (SourceOut e) (RecordIn e) (RecordOut e) (Comment e) v
    (TransitionDuration e) (WipeCode e) (evSpeedEffect e) (FreezeFrame e)
    (FilePath e) (Markers e) (evASCCDL e).

Definition set_SpeedEffect (e : EDLEvent) (v : option SpeedEffect) : EDLEvent :=
  mkEDLEvent (EventNumber e) (ReelName e) (evTrackType e) (evEditType e)
    (SourceIn e) (SourceOut e) (RecordIn e) (RecordOut e) (Comment e)
    (ClipName e) (TransitionDuration e) (WipeCode e) v (FreezeFrame e)
    (FilePath e) (Markers e) (evASCCDL e).

Definition set_FreezeFrame (e : EDLEvent) (v : bool) : EDLEvent :=
  mkEDLEvent (EventNumber e) (ReelName e) (evTrackType e) (evEditType e)
    (SourceIn e) (SourceOut e) (RecordIn e) (RecordOut e) (Comment e)
    (ClipName e) (TransitionDuration e) (WipeCode e) (evSpeedEffect e) v
    (FilePath e) (Markers e) (evASCCDL e).

Definition set_FilePath (e : EDLEvent) (v : gostring) : EDLEvent :=
  mkEDLEvent (EventNumber e) (ReelName e) (evTrackType e) (evEditType e)
    (SourceIn e) (SourceOut e) (RecordIn e) (RecordOut e) (Comment e)
    (ClipName e) (TransitionDuration e) (WipeCode e) (evSpeedEffect e)
    (FreezeFrame e) v (Markers e) (evASCCDL e).

Definition set_Markers (e : EDLEvent) (v : list Marker) : EDLEvent :=
  mkEDLEvent (EventNumber e) (ReelName e) (evTrackType e) (evEditType e)
    (SourceIn e) (SourceOut e) (RecordIn e) (RecordOut e) (Comment e)
    (ClipName e) (TransitionDuration e) (WipeCode e) (evSpeedEffect e)
    (FreezeFrame e) (FilePath e) v (evASCCDL e).

Definition set_ASCCDL (e : EDLEvent) (v : option ASCCDL) : EDLEvent :=
  mkEDLEvent (EventNumber e) (ReelName e) (evTrackType e) (evEditType e)
    (SourceIn e) (SourceOut e) (RecordIn e) (RecordOut e) (Comment e)
    (ClipName e) (TransitionDuration e) (WipeCode e) (evSpeedEffect e)
    (FreezeFrame e) (FilePath e) (Markers e) v.

(** ** Package [regexp]

    The six patterns of [decoder.go] use character classes, literals,
    concatenation, alternation, greedy repetition of a single class,
    capture groups, [^] and [$].  [rmatch] is the backtracking matcher
    whose first success is the leftmost-first match package [regexp]
    returns: alternatives are tried left to right, a repetition tries the
    longest run first. *)
Inductive regex :=
| Eps
| Class (p : rune -> bool)
| Cat (a b : regex)
| Alt (a b : regex)
| Star (p : rune -> bool)
| Group (i : nat) (a : regex)
| Bol
| Eol.

(** Submatches, most recent first; an index that was never set reads as
    the empty string, as in the slice [FindStringSubmatch] returns. *)
Definition caps := list (nat * gostring).

Fixpoint submatch (m : caps) (i : nat) : gostring :=
  match m with
  | [] => []
  | (j, s) :: m' => if Nat.eqb i j then s else submatch m' i
  end.

Definition orElse {A} (a b : option A) : option A :=
  match a with
  | Some x => Some x
  | None => b
  end.

(** The matcher hands its continuation the runes it consumed, the offset
    reached (only [^] looks at it), the rest of the text and the
    submatches. *)
Definition cont := gostring -> nat -> gostring -> caps -> option caps.

Fixpoint starLoop (p : rune -> bool) (k : gostring -> nat -> gostring -> option caps)
    (m : gostring) (pos : nat) (s : gostring) : option caps :=
  match s with
  | x :: s' =>
      if p x then orElse (starLoop p k (m ++ [x]) (S pos) s') (k m pos s)
      else k m pos s
  | [] => k m pos s
  end.

Fixpoint rmatch (r : regex) (pos : nat) (s : gostring) (c : caps) (k : cont)
    : option caps :=
  match r with
  | Eps => k [] pos s c
  | Class p =>
      match s with
      | x :: s' => if p x then k [x] (S pos) s' c else None
      | [] => None
      end
  | Cat a b =>
      rmatch a pos s c
        (fun m1 pos1 s1 c1 =>
           rmatch b pos1 s1 c1 (fun m2 pos2 s2 c2 => k (m1 ++ m2) pos2 s2 c2))
  | Alt a b => orElse (rmatch a pos s c k) (rmatch b pos s c k)
  | Star p => starLoop p (fun m pos' s' => k m pos' s' c) [] pos s
  | Group i a => rmatch a pos s c (fun m pos' s' c' => k m pos' s' ((i, m) :: c'))
  | Bol => if Nat.eqb pos 0 then k [] pos s c else None
  | Eol => match s with [] => k [] pos s c | _ :: _ => None end
  end.

(** The match that starts at the leftmost possible offset. *)
Fixpoint searchFrom (r : regex) (pos : nat) (s : gostring) : option caps :=
  orElse (rmatch r pos s [] (fun _ _ _ c => Some c))
         (match s with
          | [] => None
          | _ :: s' => searchFrom r (S pos) s'
          end).

Definition FindStringSubmatch (r : regex) (s : gostring) : option caps :=
  searchFrom r 0 s.

Definition MatchString (r : regex) (s : gostring) : bool :=
  match FindStringSubmatch r s with Some _ => true | None => false end.

(** Pattern syntax. *)
Definition Lit1 (c : rune) : regex := Class (rune_eqb c).
Definition Lit (s : gostring) : regex := fold_right (fun c r => Cat (Lit1 c) r) Eps s.
Definition Plus (p : rune -> bool) : regex := Cat (Class p) (Star p).
Definition Opt (r : regex) : regex := Alt r Eps.
Definition Seq (rs : list regex) : regex := fold_right Cat Eps rs.

(** [\s] is [[\t\n\f\r ]], [\d] is [[0-9]], [\w] is [[0-9A-Za-z_]], [.] is
    any rune but the line feed. *)
Definition cls_s (r : rune) : bool :=
  (N.eqb r 9 || N.eqb r 10 || N.eqb r 12 || N.eqb r 13 || N.eqb r 32)%bool%N.
Definition cls_S (r : rune) : bool := negb (cls_s r).
Definition cls_d (r : rune) : bool := in_range r0 r9 r.
Definition cls_w (r : rune) : bool :=
  (in_range r0 r9 r || in_range rA rZ r || in_range ra rz r || rune_eqb r underscore)%bool.
Definition cls_dot (r : rune) : bool := negb (N.eqb r 10).
Definition cls_of (s : gostring) (r : rune) : bool := existsb (rune_eqb r) s.
Definition d2 : regex := Cat (Class cls_d) (Class cls_d).
Definition d3 : regex := Cat (Class cls_d) d2.

(** [\d{2}:\d{2}:\d{2}[;:]\d{2}] and [\d{2}:\d{2}:\d{2}:\d{2}]. *)
Definition tcAny : regex :=
  Seq [d2; Lit (go ":"); d2; Lit (go ":"); d2; Class (cls_of (go ";:")); d2].
Definition tcColon : regex :=
  Seq [d2; Lit (go ":"); d2; Lit (go ":"); d2; Lit (go ":"); d2].

(** [^\s*(\d+)\s+(\S+)\s+(V|A\d?|AA)\s+(C|D|W\d{3}|KB|K)\s*(\d+)?] *)
Definition eventLineRegex : regex :=
  Seq [Bol; Star cls_s; Group 1 (Plus cls_d); Plus cls_s; Group 2 (Plus cls_S);
       Plus cls_s;
       Group 3 (Alt (Lit (go "V"))
               (Alt (Cat (Lit (go "A")) (Opt (Class cls_d))) (Lit (go "AA"))));
       Plus cls_s;
       Group 4 (Alt (Lit (go "C"))
               (Alt (Lit (go "D"))
               (Alt (Cat (Lit (go "W")) d3)
               (Alt (Lit (go "KB")) (Lit (go "K"))))));
       Star cls_s; Opt (Group 5 (Plus cls_d))].

(** [^\s*(tc)\s+(tc)\s+(tc)\s+(tc)] with [tc] the pattern [tcAny]. *)
Definition timecodeLineRegex : regex :=
  Seq [Bol; Star cls_s; Group 1 tcAny; Plus cls_s; Group 2 tcAny; Plus cls_s;
       Group 3 tcAny; Plus cls_s; Group 4 tcAny].

(** [^M2\s+(?P<name>\S+)\s+(?P<speed>-?[0-9.]+)\s+(?P<tc>\d{2}:\d{2}:\d{2}:\d{2})] *)
Definition speedEffectRegex : regex :=
  Seq [Bol; Lit (go "M2"); Plus cls_s; Group 1 (Plus cls_S); Plus cls_s;
       Group 2 (Cat (Opt (Lit (go "-"))) (Plus (fun r => cls_d r || rune_eqb r 46%N)));
       Plus cls_s; Group 3 tcColon].

(** The locator pattern: [^], a literal asterisk, [\s*], [LOC:], [\s+],
    group 1 [\d{2}:\d{2}:\d{2}:\d{2}], [\s+], group 2 [\w] repeated zero or
    more times, group 3 [\s+|$], group 4 [.] repeated zero or more times. *)
Definition markerRegex : regex :=
  Seq [Bol; Lit (go "*"); Star cls_s; Lit (go "LOC:"); Plus cls_s; Group 1 tcColon;
       Plus cls_s; Group 2 (Star cls_w); Group 3 (Alt (Plus cls_s) Eol);
       Group 4 (Star cls_dot)].

(** One number of an ASC triple, [([-+]?[\d.]+)], and the separator
    [[,\s]+]. *)
Definition ascNum (i : nat) : regex :=
  Group i (Cat (Opt (Class (cls_of (go "-+"))))
               (Plus (fun r => cls_d r || rune_eqb r 46%N))).
Definition ascSep : regex := Plus (fun r => rune_eqb r 44%N || cls_s r).
Definition ascTriple (i : nat) : regex :=
  Seq [Lit (go "("); Star cls_s; ascNum i; ascSep; ascNum (i + 1); ascSep;
       ascNum (i + 2); Star cls_s; Lit (go ")")].

(** [ASC_SOP\s*\(...\)\s*\(...\)\s*\(...\)], nine groups. *)
Definition ascSOPRegex : regex :=
  Seq [Lit (go "ASC_SOP"); Star cls_s; ascTriple 1; Star cls_s; ascTriple 4;
       Star cls_s; ascTriple 7].

(** [ASC_SAT\s+([-+]?[\d.]+)] *)
Definition ascSATRegex : regex :=
  Seq [Lit (go "ASC_SAT"); Plus cls_s; ascNum 1].

(** ** Package [strconv] (the values; every caller drops the error) *)

Fixpoint digitsValue (acc : Z) (s : gostring) : option Z :=
  match s with
  | [] => Some acc
  | c :: s' =>
      if cls_d c then digitsValue (acc * 10 + (Z.of_N c - 48)) s' else None
  end.

Definition maxInt64 : Z := 9223372036854775807.
Definition minInt64 : Z := -9223372036854775808.

(** [strconv.Atoi]: an optional sign and decimal digits; out of range
    saturates, a syntax error gives 0. *)
Definition Atoi (s : gostring) : Z :=
  let (neg, ds) :=
    match s with
    | c :: s' =>
        if rune_eqb c 45%N then (true, s')
        else if rune_eqb c 43%N then (false, s')
        else (false, s)
    | [] => (false, [])
    end in
  match ds with
  | [] => 0
  | _ :: _ =>
      match digitsValue 0 ds with
      | Some v => if neg then Z.max minInt64 (- v) else Z.min maxInt64 v
      | None => 0
      end
  end.

(** Digits and at most one point: mantissa, number of digits, digits after
    the point, whether the point was seen. *)
Fixpoint decimalScan (s : gostring) (mant : Z) (nd : nat) (frac : nat) (dot : bool)
    : option (Z * nat * nat) :=
  match s with
  | [] => Some (mant, nd, frac)
  | c :: s' =>
      if cls_d c
      then decimalScan s' (mant * 10 + (Z.of_N c - 48)) (S nd)
             (if dot then S frac else frac) dot
      else if rune_eqb c 46%N
      then (if dot then None else decimalScan s' mant nd frac true)
      else None
  end.

(** [strconv.ParseFloat(s, 64)] on the texts the patterns let through (a
    sign, digits and points): the decimal value, 0 on a syntax error. *)
Definition ParseFloat (s : gostring) : Q :=
  let (neg, ds) :=
    match s with
    | c :: s' =>
        if rune_eqb c 45%N then (true, s')
        else if rune_eqb c 43%N then (false, s')
        else (false, s)
    | [] => (false, [])
    end in
  match decimalScan ds 0 0 0 false with
  | Some (mant, S _, frac) =>
      let v := Qmake mant (Z.to_pos (10 ^ Z.of_nat frac)) in
      if neg then Qopp v else v
  | _ => 0%Q
  end.

(** ** decoder.go: [parseEvents] *)

(** [bufio.ScanLines]: lines end at a line feed, one carriage return before
    it is dropped, a last line without line feed counts when it is not
    empty.  (The scanner's token size limit is not modelled.) *)
Fixpoint splitLines (s : gostring) : list gostring :=
  match s with
  | [] => []
  | c :: s' =>
      if rune_eqb c 10%N then [] :: splitLines s'
      else match splitLines s' with
           | [] => [[c]]
           | l :: ls => (c :: l) :: ls
           end
  end.

Definition dropCR (l : gostring) : gostring :=
  match rev l with
  | c :: l' => if rune_eqb c 13%N then rev l' else l
  | [] => l
  end.

Definition ScanLines (text : gostring) : list gostring :=
  List.map dropCR (splitLines text).

(** The second part of [strings.SplitN(s, ":", 2)], when there is one. *)
Fixpoint afterColon (s : gostring) : option gostring :=
  match s with
  | [] => None
  | c :: s' => if rune_eqb c 58%N then Some s' else afterColon s'
  end.

(** The event built from the submatches of [eventLineRegex]
    (decoder.go, "Parse event number" to the struct literal). *)
Definition newEvent (matches : caps) : EDLEvent :=
  let eventNum := Atoi (submatch matches 1) in
  let transitionDuration :=
    if gostring_eqb (submatch matches 5) (go "") then 0
    else Atoi (submatch matches 5) in
  let editTypeStr := submatch matches 4 in
  let isWipe :=
    (len editTypeStr =? 4)
    && match editTypeStr with c :: _ => rune_eqb c 87%N | [] => false end in
  let editType := if isWipe then EditTypeWipe else editTypeStr in
  let wipeCode := if isWipe then editTypeStr else go "" in
  mkEDLEvent eventNum (submatch matches 2) (submatch matches 3) editType
    (go "") (go "") (go "") (go "") (go "") (go "") transitionDuration wipeCode
    None false (go "") [] None.

(** The M2 branch: the event changes only when one is open and the line
    matches [speedEffectRegex]. *)
Definition applySpeedLine (line : gostring) (cur : option EDLEvent) : option EDLEvent :=
  match cur with
  | Some ev =>
      match FindStringSubmatch speedEffectRegex line with
      | Some matches =>
          Some (set_SpeedEffect ev
                  (Some (mkSpeedEffect (submatch matches 1)
                                       (ParseFloat (submatch matches 2))
                                       (submatch matches 3))))
      | None => Some ev
      end
  | None => None
  end.

Definition cdlOrZero (ev : EDLEvent) : ASCCDL :=
  match evASCCDL ev with Some c => c | None => ASCCDL_zero end.

(** The chain of tests on a trimmed line while an event is open
    (decoder.go, "Check for comment lines"). *)
Definition applyCommentLine (trimmed : gostring) (ev : EDLEvent) : EDLEvent :=
  if HasPrefix trimmed (go "*FROM CLIP NAME:") then
    set_ClipName ev (TrimSpace (TrimPrefix trimmed (go "*FROM CLIP NAME:")))
  else if HasPrefix trimmed (go "* FROM CLIP NAME:") then
    set_ClipName ev (TrimSpace (TrimPrefix trimmed (go "* FROM CLIP NAME:")))
  else if HasPrefix trimmed (go "*FROM CLIP:") then
    set_FilePath ev (TrimSpace (TrimPrefix trimmed (go "*FROM CLIP:")))
  else if HasPrefix trimmed (go "* FROM CLIP:") then
    set_FilePath ev (TrimSpace (TrimPrefix trimmed (go "* FROM CLIP:")))
  else if HasPrefix trimmed (go "*FROM FILE:") then
    set_FilePath ev (TrimSpace (TrimPrefix trimmed (go "*FROM FILE:")))
  else if HasPrefix trimmed (go "* FROM FILE:") then
    set_FilePath ev (TrimSpace (TrimPrefix trimmed (go "* FROM FILE:")))
  else if HasPrefix trimmed (go "* FREEZE FRAME") || HasSuffix trimmed (go " FF") then
    set_FreezeFrame ev true
  else
    match FindStringSubmatch markerRegex trimmed with
    | Some matches =>
        set_Markers ev
          (Markers ev ++ [mkMarker (submatch matches 1) (submatch matches 2)
                                   (TrimSpace (submatch matches 4))])
    | None =>
    match FindStringSubmatch ascSOPRegex trimmed with
    | Some matches =>
        let f i := ParseFloat (submatch matches i) in
        let cdl := cdlOrZero ev in
        set_ASCCDL ev
          (Some (mkASCCDL (f 1%nat, f 2%nat, f 3%nat) (f 4%nat, f 5%nat, f 6%nat)
                          (f 7%nat, f 8%nat, f 9%nat) (Saturation cdl)))
    | None =>
    match FindStringSubmatch ascSATRegex trimmed with
    | Some matches =>
        let cdl := cdlOrZero ev in
        set_ASCCDL ev
          (Some (mkASCCDL (Slope cdl) (Offset cdl) (Power cdl)
                          (ParseFloat (submatch matches 1))))
    | None =>
        if HasPrefix trimmed (go "*") then
          set_Comment ev
            ((if gostring_eqb (Comment ev) (go "") then Comment ev
              else Comment ev ++ newline)
             ++ trimmed)
        else ev
    end end end.

(** The loop state of [parseEvents]: the flushed events, the open event,
    the line counter, and the decoder's [fcmMode]. *)
Record pstate := mkPstate {
  events : list EDLEvent;
  currentEvent : option EDLEvent;
  lineNum : Z;
  fcmMode : gostring }.

(** [events = append(events, *currentEvent)] when an event is open. *)
Definition flush (evs : list EDLEvent) (cur : option EDLEvent) : list EDLEvent :=
  match cur with
  | Some ev => evs ++ [ev]
  | None => evs
  end.

(** The body of [for scanner.Scan()]: one pass per line, the event branch
    takes the following line as well. *)
Fixpoint parseLines (lines : list gostring) (st : pstate) : result pstate :=
  match lines with
  | [] => Ok st
  | line :: rest =>
      let n := lineNum st + 1 in
      if gostring_eqb (TrimSpace line) (go "") then
        parseLines rest (mkPstate (events st) (currentEvent st) n (fcmMode st))
      else if HasPrefix (TrimSpace line) (go "TITLE:") then
        parseLines rest (mkPstate (events st) (currentEvent st) n (fcmMode st))
      else if HasPrefix (TrimSpace line) (go "FCM:") then
        let fcm :=
          match afterColon (TrimSpace line) with
          | Some part => TrimSpace part
          | None => fcmMode st
          end in
        parseLines rest (mkPstate (events st) (currentEvent st) n fcm)
      else
        match FindStringSubmatch eventLineRegex line with
        | Some matches =>
            let evs := flush (events st) (currentEvent st) in
            let ev := newEvent matches in
            match rest with
            | tcLine :: rest' =>
                match FindStringSubmatch timecodeLineRegex tcLine with
                | Some tc =>
                    parseLines rest'
                      (mkPstate evs
                         (Some (set_timecodes ev (submatch tc 1) (submatch tc 2)
                                                 (submatch tc 3) (submatch tc 4)))
                         (n + 1) (fcmMode st))
                | None =>
                    Err (ParseError (n + 1) (go "expected timecode line after event"))
                end
            | [] =>
                (* [scanner.Scan()] is false: no line is left, the loop ends *)
                Ok (mkPstate evs (Some ev) n (fcmMode st))
            end
        | None =>
            if HasPrefix (TrimSpace line) (go "M2") then
              parseLines rest
                (mkPstate (events st) (applySpeedLine line (currentEvent st)) n
                          (fcmMode st))
            else
              parseLines rest
                (mkPstate (events st)
                   (match currentEvent st with
                    | Some ev => Some (applyCommentLine (TrimSpace line) ev)
                    | None => None
                    end)
                   n (fcmMode st))
        end
  end.

Definition initialState : pstate := mkPstate [] None 0 (go "").

(** [func (d *Decoder) parseEvents() ([]EDLEvent, error)] on the scanned
    lines. *)
Definition parseEvents (lines : list gostring) : result (list EDLEvent) :=
  do st <- parseLines lines initialState;
  Ok (flush (events st) (currentEvent st)).

(** ** The packages outside the repository *)

(** Package [opentime]: rational time as the codec uses it.
    [zeroRationalTime] is the zero value [RationalTime{}]; [FromTimecode]
    and [ToTimecode] return [None] where the Go functions return an
    error. *)
Class Opentime := {
  RationalTime : Type;
  zeroRationalTime : RationalTime;
  NewRationalTime : Q -> Q -> RationalTime;
  Value : RationalTime -> Q;
  IsValidTime : RationalTime -> bool;
  Add : RationalTime -> RationalTime -> RationalTime;
  Sub : RationalTime -> RationalTime -> RationalTime;
  RescaledTo : RationalTime -> Q -> RationalTime;
  DurationFromStartEndTime : RationalTime -> RationalTime -> RationalTime;
  FromTimecode : gostring -> Q -> option RationalTime;
  ToTimecode : RationalTime -> Q -> option gostring }.

(** Package [unicode]: the upper-case mapping of the runes above ASCII
    (the case tables are not reproduced). *)
Class CaseTable := { upperAboveASCII : rune -> rune }.

Definition Qgt_bool (x y : Q) : bool := negb (Qle_bool x y).

Section Codec.
Context {OT : Opentime} {CT : CaseTable}.

(** [unicode.ToUpper] and [strings.ToUpper]. *)
Definition unicode_ToUpper (r : rune) : rune :=
  if N.leb r 127 then (if in_range ra rz r then (r - 32)%N else r)
  else upperAboveASCII r.

Definition ToUpper (s : gostring) : gostring := List.map unicode_ToUpper s.

(** Package [opentimelineio]: the nodes the codec builds and walks. *)
Record TimeRange := NewTimeRange {
  StartTime : RationalTime;
  Duration : RationalTime }.

Inductive MediaReference :=
| ExternalReference (name targetURL : gostring) (availableRange : option TimeRange)
| GeneratorReference (name generatorKind : gostring) (availableRange : option TimeRange).

Inductive Effect :=
| LinearTimeWarp (name effectName : gostring) (timeScalar : Q)
| FreezeFrameEffect (name : gostring).

Record TimelineMarker := NewMarker {
  markerName : gostring;
  markedRange : TimeRange;
  markerColor : gostring;
  markerComment : gostring;
  markerMetaColor : option gostring }.

Record ClipMetadata := mkClipMetadata {
  metaCdl : option ASCCDL;
  metaWipeCode : option gostring }.

Record Clip := NewClip {
  clipName : gostring;
  clipMediaReference : option MediaReference;
  clipSourceRange : option TimeRange;
  clipMetadata : ClipMetadata;
  clipEffects : list Effect;
  clipMarkers : list TimelineMarker }.

Record Gap := mkGap { gapDuration : option RationalTime }.

Record Transition := NewTransition {
  transitionName : gostring;
  transitionType : gostring;
  inOffset : RationalTime;
  outOffset : RationalTime }.

Inductive Composable :=
| CClip (c : Clip)
| CGap (g : Gap)
| CTransition (t : Transition)
| COther (name : gostring).

Record Track := NewTrack {
  trackName : gostring;
  trackKind : gostring;
  trackChildren : list Composable }.

Record Timeline := NewTimeline {
  timelineName : gostring;
  timelineTracks : list Track }.

Definition TrackKindVideo : gostring := go "Video".
Definition TrackKindAudio : gostring := go "Audio".
Definition TransitionTypeSMPTEDissolve : gostring := go "SMPTE_Dissolve".
Definition TransitionTypeCustom : gostring := go "Custom_Transition".

Definition NewGapWithDuration (d : RationalTime) : Gap := mkGap (Some d).

Definition VideoTracks (t : Timeline) : list Track :=
  filter (fun tr => gostring_eqb (trackKind tr) TrackKindVideo) (timelineTracks t).

Definition AudioTracks (t : Timeline) : list Track :=
  filter (fun tr => gostring_eqb (trackKind tr) TrackKindAudio) (timelineTracks t).

Definition MediaReference_Name (m : MediaReference) : gostring :=
  match m with
  | ExternalReference n _ _ => n
  | GeneratorReference n _ _ => n
  end.

Definition MediaReference_AvailableRange (m : MediaReference) : option TimeRange :=
  match m with
  | ExternalReference _ _ a => a
  | GeneratorReference _ _ a => a
  end.

(** [clip.AvailableRange()]: the range of the media reference, an error
    without one. *)
Definition Clip_AvailableRange (c : Clip) : result TimeRange :=
  match clipMediaReference c with
  | Some m =>
      match MediaReference_AvailableRange m with
      | Some r => Ok r
      | None => Err (ItemError (go "no available range"))
      end
  | None => Err (ItemError (go "no media reference"))
  end.

(** [clip.Duration()]: of the source range when set, else of the available
    range. *)
Definition Clip_Duration (c : Clip) : result RationalTime :=
  match clipSourceRange c with
  | Some r => Ok (Duration r)
  | None => do r <- Clip_AvailableRange c; Ok (Duration r)
  end.

Definition Gap_Duration (g : Gap) : result RationalTime :=
  match gapDuration g with
  | Some d => Ok d
  | None => Err (ItemError (go "no duration"))
  end.

(** ** decoder.go: [createTrack] and [eventsToTimeline] *)

Variable rate : Q.

Definition fromTimecode (f : TimecodeField) (s : gostring) : result RationalTime :=
  match FromTimecode s rate with
  | Some t => Ok t
  | None => Err (InvalidTimecode f s)
  end.

(** "Check for gaps in the timeline". *)
Definition gapBefore (lastRecordOut recordIn : RationalTime) : list Composable :=
  if IsValidTime lastRecordOut then
    let gap := Sub recordIn lastRecordOut in
    if Qgt_bool (Value gap) (1 # 2) then [CGap (NewGapWithDuration gap)] else []
  else [].

(** "Create media reference based on reel name". *)
Definition mediaReferenceOf (event : EDLEvent) (sourceRange : TimeRange) : MediaReference :=
  let reelUpper := ToUpper (ReelName event) in
  if gostring_eqb reelUpper (go "BLACK") || gostring_eqb reelUpper (go "BL") then
    GeneratorReference (go "black") (go "black") (Some sourceRange)
  else if gostring_eqb reelUpper (go "BARS") then
    GeneratorReference (go "SMPTEBars") (go "SMPTEBars") (Some sourceRange)
  else
    let targetURL :=
      if negb (gostring_eqb (FilePath event) (go "")) then FilePath event
      else ReelName event in
    ExternalReference targetURL targetURL (Some sourceRange).

(** "Use clip name from comment if available", then the freeze-frame
    suffix. *)
Definition clipNameOf (event : EDLEvent) : gostring :=
  let clipName :=
    if gostring_eqb (ClipName event) (go "") then ReelName event
    else ClipName event in
  if FreezeFrame event && HasSuffix clipName (go " FF")
  then firstn (List.length clipName - 3) clipName
  else clipName.

Definition metadataOf (event : EDLEvent) : ClipMetadata :=
  mkClipMetadata (evASCCDL event)
    (if negb (gostring_eqb (WipeCode event) (go "")) then Some (WipeCode event)
     else None).

(** "Build effects list". *)
Definition effectsOf (event : EDLEvent) : list Effect :=
  (match evSpeedEffect event with
   | Some se => [LinearTimeWarp (go "") (go "LinearTimeWarp") (seSpeed se / rate)%Q]
   | None => []
   end)
  ++ (if FreezeFrame event then [FreezeFrameEffect (go "")] else []).

(** "Build markers list": a marker whose timecode does not convert is
    skipped. *)
Fixpoint markersOf (ms : list Marker) : list TimelineMarker :=
  match ms with
  | [] => []
  | marker :: ms' =>
      match FromTimecode (mkTimecode marker) rate with
      | None => markersOf ms'
      | Some markerTC =>
          NewMarker (mkComment marker)
                    (NewTimeRange markerTC (NewRationalTime 0 rate))
                    (mkColor marker) (mkComment marker)
                    (if negb (gostring_eqb (mkColor marker) (go ""))
                     then Some (mkColor marker) else None)
          :: markersOf ms'
      end
  end.

(** "Handle transitions". *)
Definition transitionOf (event : EDLEvent) : list Composable :=
  if (gostring_eqb (evEditType event) EditTypeDissolve
      || gostring_eqb (evEditType event) EditTypeWipe)
     && (0 <? TransitionDuration event)
  then
    let transitionDuration := NewRationalTime (inject_Z (TransitionDuration event)) rate in
    let isWipe := gostring_eqb (evEditType event) EditTypeWipe in
    let transitionType :=
      if isWipe then TransitionTypeCustom else TransitionTypeSMPTEDissolve in
    let transitionName :=
      if isWipe then
        (if negb (gostring_eqb (WipeCode event) (go "")) then WipeCode event
         else go "SMPTE_Wipe")
      else go "" in
    [CTransition (NewTransition transitionName transitionType
                                (NewRationalTime 0 rate) transitionDuration)]
  else [].

Definition clipOf (event : EDLEvent) (sourceIn sourceOut : RationalTime) : Clip :=
  let sourceDuration := DurationFromStartEndTime sourceIn sourceOut in
  let sourceRange := NewTimeRange sourceIn sourceDuration in
  NewClip (clipNameOf event) (Some (mediaReferenceOf event sourceRange))
          (Some sourceRange) (metadataOf event) (effectsOf event)
          (markersOf (Markers event)).

(** The body of [for _, event := range events] in [createTrack]: the
    children of the track so far and [lastRecordOut] go in and come out. *)
Definition trackStep (st : list Composable * RationalTime) (event : EDLEvent)
    : result (list Composable * RationalTime) :=
  let (children, lastRecordOut) := st in
  do sourceIn <- fromTimecode FSourceIn (SourceIn event);
  do sourceOut <- fromTimecode FSourceOut (SourceOut event);
  do recordIn <- fromTimecode FRecordIn (RecordIn event);
  do recordOut <- fromTimecode FRecordOut (RecordOut event);
  Ok (children ++ gapBefore lastRecordOut recordIn ++ transitionOf event
               ++ [CClip (clipOf event sourceIn sourceOut)],
      recordOut).

Fixpoint trackLoop (evs : list EDLEvent) (st : list Composable * RationalTime)
    : result (list Composable * RationalTime) :=
  match evs with
  | [] => Ok st
  | event :: evs' => do st' <- trackStep st event; trackLoop evs' st'
  end.

(** [func (d *Decoder) createTrack(trackType, events)]. *)
Definition createTrack (trackType : TrackType) (evs : list EDLEvent) : result Track :=
  let kind := if IsAudioTrack trackType then TrackKindAudio else TrackKindVideo in
  do st <- trackLoop evs ([], zeroRationalTime);
  Ok (NewTrack trackType kind (fst st)).

(** [trackMap[event.TrackType] = append(trackMap[event.TrackType], event)]
    on a map kept as an association list. *)
Fixpoint mapAppend (m : list (TrackType * list EDLEvent)) (event : EDLEvent)
    : list (TrackType * list EDLEvent) :=
  match m with
  | [] => [(evTrackType event, [event])]
  | (k, v) :: m' =>
      if gostring_eqb k (evTrackType event) then (k, v ++ [event]) :: m'
      else (k, v) :: mapAppend m' event
  end.

Definition trackMapOf (evs : list EDLEvent) : list (TrackType * list EDLEvent) :=
  fold_left mapAppend evs [].

(** The body of [for trackType, trackEvents := range trackMap], on the
    entries in the order the iteration visits them. *)
Fixpoint buildTracks (entries : list (TrackType * list EDLEvent)) (tracks : list Track)
    : result (list Track) :=
  match entries with
  | [] => Ok tracks
  | (trackType, trackEvents) :: entries' =>
      do track <- createTrack trackType trackEvents;
      buildTracks entries' (tracks ++ [track])
  end.

Definition eventsToTimelineIn (order : list (TrackType * list EDLEvent)) : result Timeline :=
  do tracks <- buildTracks order [];
  Ok (NewTimeline (go "") tracks).

(** [func (d *Decoder) eventsToTimeline(events)].  Go leaves the order in
    which [range] visits a map unspecified: a run is any order of the
    entries. *)
Definition eventsToTimeline (evs : list EDLEvent) (r : result Timeline) : Prop :=
  exists order, Permutation order (trackMapOf evs) /\ r = eventsToTimelineIn order.

(** [func (d *Decoder) Decode()] on the text of the reader. *)
Definition Decode (text : gostring) (r : result Timeline) : Prop :=
  match parseEvents (ScanLines text) with
  | Err e => r = Err e
  | Ok evs => eventsToTimeline evs r
  end.

(** The run of [Decode] that visits the groups in the order of their first
    event. *)
Definition DecodeFirstSeen (text : gostring) : result Timeline :=
  do evs <- parseEvents (ScanLines text);
  eventsToTimelineIn (trackMapOf evs).

(** ** encoder.go *)

(** [type Encoder struct] without its writer: the text written so far is
    threaded through the functions below (a write never fails). *)
Record Encoder := mkEncoder {
  style : gostring;
  reelNameLen : Z;
  encRate : Q }.

Definition OutputStyleAvid : gostring := go "avid".

(** [NewEncoder]. *)
Definition NewEncoder : Encoder := mkEncoder OutputStyleAvid DefaultReelNameLength 24.

(** Decimal digits of a non-negative [int], most significant first. *)
Fixpoint itoaFuel (fuel : nat) (n : Z) (acc : gostring) : gostring :=
  match fuel with
  | O => acc
  | S fuel' =>
      let acc' := Z.to_N (48 + n mod 10) :: acc in
      if n <? 10 then acc' else itoaFuel fuel' (n / 10) acc'
  end.

Definition itoa (n : Z) : gostring := itoaFuel (S (Z.to_nat (Z.log2 n))) n [].

Definition padLeft (c : rune) (width : nat) (s : gostring) : gostring :=
  repeat c (width - List.length s) ++ s.

Definition padRight (c : rune) (width : nat) (s : gostring) : gostring :=
  s ++ repeat c (width - List.length s).

(** [fmt.Sprintf("%03d", n)]: the sign counts in the width. *)
Definition Sprintf03d (n : Z) : gostring :=
  if n <? 0 then 45%N :: padLeft r0 2 (itoa (- n)) else padLeft r0 3 (itoa n).

(** [isDropFrameRate]. *)
Definition isDropFrameRate (r : Q) : bool :=
  (Qgt_bool r (2996 # 100) && Qgt_bool (2998 # 100) r)
  || (Qgt_bool r (5993 # 100) && Qgt_bool (5995 # 100) r).

(** [strings.ReplaceAll(tc, ";", ":")]. *)
Definition replaceSemicolons (tc : gostring) : gostring :=
  List.map (fun c => if rune_eqb c 59%N then 58%N else c) tc.

(** [func (e *Encoder) formatTimecode(t)]. *)
Definition formatTimecode (e : Encoder) (t : RationalTime) : gostring :=
  let rescaled := RescaledTo t (encRate e) in
  match ToTimecode rescaled (encRate e) with
  | None => go "00:00:00:00"
  | Some tc => if negb (isDropFrameRate (encRate e)) then replaceSemicolons tc else tc
  end.

(** The text [writeEvent] writes for one event. *)
Definition eventText (event : EDLEvent) : gostring :=
  let eventLine :=
    Sprintf03d (EventNumber event) ++ go "  " ++ padRight space 8 (ReelName event)
    ++ go " " ++ evTrackType event ++ go "    " ++ padRight space 2 (evEditType event) in
  let eventLine :=
    if gostring_eqb (evEditType event) EditTypeDissolve && (0 <? TransitionDuration event)
    then eventLine ++ go "   " ++ Sprintf03d (TransitionDuration event)
    else eventLine in
  let timecodeLine :=
    go "     " ++ SourceIn event ++ go " " ++ SourceOut event ++ go " "
    ++ RecordIn event ++ go " " ++ RecordOut event in
  eventLine ++ newline ++ timecodeLine ++ newline
  ++ (if negb (gostring_eqb (ClipName event) (go ""))
      then go "* FROM CLIP NAME: " ++ ClipName event ++ newline else [])
  ++ newline.

(** [func (e *Encoder) writeEvent(event)]. *)
Definition writeEvent (event : EDLEvent) (w : gostring) : gostring :=
  w ++ eventText event.

(** [func (e *Encoder) writeHeader(t)]. *)
Definition writeHeader (t : Timeline) (w : gostring) : gostring :=
  let title :=
    if gostring_eqb (timelineName t) (go "") then go "Timeline" else timelineName t in
  w ++ go "TITLE: " ++ title ++ newline ++ go "FCM: NON-DROP FRAME" ++ newline ++ newline.

(** [int(x)] of a float: truncation toward zero. *)
Definition Qtrunc (x : Q) : Z := Z.quot (Qnum x) (Zpos (Qden x)).

(** "Get reel name from media reference". *)
Definition reelNameOf (e : Encoder) (clip : Clip) : gostring :=
  let reelName :=
    match clipMediaReference clip with
    | Some mediaRef =>
        let n := MediaReference_Name mediaRef in
        if gostring_eqb n (go "") then
          match mediaRef with
          | ExternalReference _ targetURL _ => targetURL
          | GeneratorReference _ _ _ => n
          end
        else n
    | None => go "AX"
    end in
  SanitizeReelName reelName (reelNameLen e).

(** "Determine edit type": the child after the clip decides. *)
Definition editOf (next : list Composable) : EditType * Z :=
  match next with
  | CTransition transition :: _ =>
      if gostring_eqb (transitionType transition) (go "SMPTE_Dissolve")
      then (EditTypeDissolve, Qtrunc (Value (outOffset transition)))
      else (EditTypeCut, 0)
  | _ => (EditTypeCut, 0)
  end.

(** The event [writeTrackEvents] hands to [writeEvent] for a clip. *)
Definition eventOfClip (e : Encoder) (trackType : TrackType) (eventNumber : Z)
    (recordTime : RationalTime) (clip : Clip) (duration : RationalTime)
    (sourceRange : TimeRange) (next : list Composable) : EDLEvent :=
  let sourceIn := StartTime sourceRange in
  let sourceOut := Add sourceIn duration in
  let recordIn := recordTime in
  let recordOut := Add recordTime duration in
  mkEDLEvent eventNumber (reelNameOf e clip) trackType (fst (editOf next))
    (formatTimecode e sourceIn) (formatTimecode e sourceOut)
    (formatTimecode e recordIn) (formatTimecode e recordOut)
    (go "") (clipName clip) (snd (editOf next)) (go "") None false (go "") [] None.

(** The loop of [writeTrackEvents] over the children from index [i] on:
    the event number reached, the error if any, and the text written. *)
Fixpoint writeChildren (e : Encoder) (trackType : TrackType) (children : list Composable)
    (eventNumber : Z) (recordTime : RationalTime) (w : gostring)
    : Z * option error * gostring :=
  match children with
  | [] => (eventNumber, None, w)
  | CGap gap :: rest =>
      match Gap_Duration gap with
      | Err er => (eventNumber, Some er, w)
      | Ok duration =>
          writeChildren e trackType rest eventNumber (Add recordTime duration) w
      end
  | CClip clip :: rest =>
      match Clip_Duration clip with
      | Err er => (eventNumber, Some er, w)
      | Ok duration =>
          match (match clipSourceRange clip with
                 | Some r => Ok r
                 | None => Clip_AvailableRange clip
                 end) with
          | Err er => (eventNumber, Some er, w)
          | Ok sourceRange =>
              let event :=
                eventOfClip e trackType eventNumber recordTime clip duration
                            sourceRange rest in
              let w' := writeEvent event w in
              let recordOut := Add recordTime duration in
              match rest with
              | CTransition _ :: rest' =>
                  (* the transition is skipped: [i++] *)
                  writeChildren e trackType rest' (eventNumber + 1) recordOut w'
              | _ => writeChildren e trackType rest (eventNumber + 1) recordOut w'
              end
          end
      end
  | _ :: rest => writeChildren e trackType rest eventNumber recordTime w
  end.

(** [func (e *Encoder) writeTrackEvents(track, trackType, startEventNum)]. *)
Definition writeTrackEvents (e : Encoder) (track : Track) (trackType : TrackType)
    (startEventNum : Z) (w : gostring) : Z * option error * gostring :=
  writeChildren e trackType (trackChildren track) startEventNum
                (NewRationalTime 0 (encRate e)) w.

Definition audioTrackType (i : nat) : TrackType :=
  match i with
  | 0%nat => TrackTypeAudio1
  | 1%nat => TrackTypeAudio2
  | 2%nat => TrackTypeAudio3
  | 3%nat => TrackTypeAudio4
  | _ => TrackTypeAudio
  end.

(** [for i, track := range audioTracks]. *)
Fixpoint writeAudioTracks (e : Encoder) (audioTracks : list Track) (i : nat)
    (eventNumber : Z) (w : gostring) : Z * option error * gostring :=
  match audioTracks with
  | [] => (eventNumber, None, w)
  | track :: rest =>
      match writeTrackEvents e track (audioTrackType i) eventNumber w with
      | (n, Some er, w') => (n, Some er, w')
      | (n, None, w') => writeAudioTracks e rest (S i) n w'
      end
  end.

(** [func (e *Encoder) Encode(t *Timeline) error]: the error returned and
    the text the writer holds afterwards ([w] is what it held before;
    [None] for the timeline is the nil pointer). *)
Definition Encode (e : Encoder) (t : option Timeline) (w : gostring)
    : option error * gostring :=
  match t with
  | None => (Some (EncodeError (go "timeline is nil")), w)
  | Some t =>
      let w1 := writeHeader t w in
      let videoTracks := VideoTracks t in
      if (1 <? Z.of_nat (List.length videoTracks)) then
        (Some (EncodeError (go "EDL format supports only one video track")), w1)
      else
        let audioTracks := AudioTracks t in
        let eventNumber := 1 in
        match (match videoTracks with
               | track :: _ => writeTrackEvents e track TrackTypeVideo eventNumber w1
               | [] => (eventNumber, None, w1)
               end) with
        | (_, Some er, w2) => (Some er, w2)
        | (eventNumber, None, w2) =>
            match writeAudioTracks e audioTracks 0 eventNumber w2 with
            | (_, er, w3) => (er, w3)
            end
        end
  end.

End Codec.

(** ** A sample implementation of the outside packages

    Non-drop-frame timecode at whole frame rates, a rational time as the
    pair of its value and rate, and a case table that leaves the runes
    above ASCII alone.  It serves to run the codec on concrete inputs. *)
Module Sample.

Definition time : Type := Q * Q.

Definition rescale (v r r' : Q) : Q :=
  if Qeq_bool r r' then v else Qred (v * r' / r).

Definition add (a b : time) : time :=
  if Qgt_bool (snd b) (snd a)
  then (Qred (rescale (fst a) (snd a) (snd b) + fst b), snd b)
  else (Qred (fst a + rescale (fst b) (snd b) (snd a)), snd a).

Definition sub (a b : time) : time :=
  if Qgt_bool (snd b) (snd a)
  then (Qred (rescale (fst a) (snd a) (snd b) - fst b), snd b)
  else (Qred (fst a - rescale (fst b) (snd b) (snd a)), snd a).

(** The fields of a text cut at its colons. *)
Fixpoint fields (s : gostring) (cur : gostring) : list gostring :=
  match s with
  | [] => [rev cur]
  | c :: s' => if rune_eqb c 58%N then rev cur :: fields s' [] else fields s' (c :: cur)
  end.

Definition wholeRate (r : Q) : option Z :=
  let r' := Qred r in
  if (Zpos (Qden r') =? 1) && (0 <? Qnum r') then Some (Qnum r') else None.

Definition fromTimecode (s : gostring) (r : Q) : option time :=
  match wholeRate r, List.map (digitsValue 0) (fields s []) with
  | Some fps, [Some h; Some m; Some sec; Some f] =>
      if (f <? fps) && (List.length s =? 11)%nat
      then Some (inject_Z (((h * 60 + m) * 60 + sec) * fps + f), r)
      else None
  | _, _ => None
  end.

Definition two (n : Z) : gostring := padLeft r0 2 (itoa n).

Definition toTimecode (t : time) (r : Q) : option gostring :=
  match wholeRate r with
  | Some fps =>
      let total := Qfloor (rescale (fst t) (snd t) r) in
      if total <? 0 then None
      else
        let f := total mod fps in
        let secs := total / fps in
        Some (two (secs / 3600) ++ go ":" ++ two (secs / 60 mod 60) ++ go ":"
              ++ two (secs mod 60) ++ go ":" ++ two f)
  | None => None
  end.

#[export] Instance opentime : Opentime := {|
  RationalTime := time;
  zeroRationalTime := (0, 0)%Q;
  NewRationalTime v r := (Qred v, r);
  Value := fst;
  IsValidTime t := Qgt_bool (snd t) 0;
  Add := add;
  Sub := sub;
  RescaledTo t r := (rescale (fst t) (snd t) r, r);
  DurationFromStartEndTime s e := sub e s;
  FromTimecode := fromTimecode;
  ToTimecode := toTimecode |}.

#[export] Instance caseTable : CaseTable := {| upperAboveASCII r := r |}.

End Sample.

(** ** Concrete inputs *)
Module Inputs.
Import Sample.

Definition lf : string := String (ascii_of_nat 10) EmptyString.


(** An event header as the last line of the input. *)
Definition headerAtEnd : gostring :=
  go ("TITLE: Truncated" ++ lf ++ "FCM: NON-DROP FRAME" ++ lf ++ lf
      ++ "001  AX       V     C" ++ lf).

Definition headerAtEndEvent : EDLEvent :=
  mkEDLEvent 1 (go "AX") (go "V") (go "C") (go "") (go "") (go "") (go "")
    (go "") (go "") 0 (go "") None false (go "") [] None.

(** An open event, and three lines that end in " FF". *)
Definition openEvent : EDLEvent :=
  mkEDLEvent 1 (go "AX") (go "V") (go "C") (go "00:00:00:00") (go "00:00:05:00")
    (go "00:00:00:00") (go "00:00:05:00") (go "") (go "") 0 (go "") None false
    (go "") [] None.

Definition openState : pstate := mkPstate [] (Some openEvent) 2 (go "").

Definition openingLines : list gostring :=
  [go "001  AX       V     C";
   go "     00:00:00:00 00:00:05:00 00:00:00:00 00:00:05:00"].

Definition clipNameLineFF : gostring := go "* FROM CLIP NAME: Shot FF".
Definition plainLineFF : gostring := go "HOLD LAST FRAME FF".

(** Events for the timeline builder: a plain cut, an event one second
    later on the record side, one that abuts it, a wipe and a BARS reel. *)
Definition cutEvent : EDLEvent :=
  mkEDLEvent 1 (go "CLIP1") (go "V") (go "C") (go "01:00:04:05") (go "01:00:05:12")
    (go "00:00:00:00") (go "00:00:01:07") (go "") (go "Clip1") 0 (go "") None false
    (go "") [] None.

Definition laterEvent : EDLEvent :=
  mkEDLEvent 2 (go "CLIP2") (go "V") (go "C") (go "01:00:06:00") (go "01:00:07:00")
    (go "00:00:02:07") (go "00:00:03:07") (go "") (go "Clip2") 0 (go "") None false
    (go "") [] None.

Definition wipeEvent : EDLEvent :=
  mkEDLEvent 2 (go "CLIP2") (go "V") (go "W") (go "01:00:06:00") (go "01:00:07:00")
    (go "00:00:01:07") (go "00:00:02:07") (go "") (go "Clip2") 30 (go "W001") None
    false (go "") [] None.


(** The header of the second event of [TestDecoder_WipeTransitions]. *)
Definition wipeHeader : gostring := go "002  CLIP2    V     W001    030".

(** A time of the sample implementation: [n] frames at 24 frames per
    second. *)
Definition frames (n : Z) : RationalTime := (inject_Z n, 24%Q).

(** The states of the loop of [createTrack] after [cutEvent], after
    [cutEvent] then [wipeEvent], and after [barsEvent] alone; the track of
    [cutEvent] then [laterEvent]. *)
Definition afterCut : list Composable * RationalTime :=
  Eval vm_compute in
    match trackStep 24 ([], zeroRationalTime) cutEvent with
    | Ok st => st
    | Err _ => ([], zeroRationalTime)
    end.

Definition afterWipe : list Composable * RationalTime :=
  Eval vm_compute in
    match trackStep 24 afterCut wipeEvent with
    | Ok st => st
    | Err _ => ([], zeroRationalTime)
    end.


Definition gapTrack : Track :=
  Eval vm_compute in
    match createTrack 24 (go "V") [cutEvent; laterEvent] with
    | Ok t => t
    | Err _ => NewTrack [] [] []
    end.

(** The text of [TestDecoder_AudioTrack], its events, and the two
    timelines: tracks in the order A1, A2 and in the order A2, A1. *)
Definition audioEDL : gostring :=
  go ("TITLE: Audio Test" ++ lf ++ "FCM: NON-DROP FRAME" ++ lf ++ lf
      ++ "001  AUDIO1   A1    C" ++ lf
      ++ "     00:00:00:00 00:00:05:00 00:00:00:00 00:00:05:00" ++ lf
      ++ "* FROM CLIP NAME: AudioClip1" ++ lf ++ lf
      ++ "002  AUDIO2   A2    C" ++ lf
      ++ "     00:00:00:00 00:00:05:00 00:00:00:00 00:00:05:00" ++ lf
      ++ "* FROM CLIP NAME: AudioClip2" ++ lf).

Definition audioEvents : list EDLEvent :=
  Eval vm_compute in
    match parseEvents (ScanLines audioEDL) with
    | Ok evs => evs
    | Err _ => []
    end.

Definition audioA1A2 : Timeline :=
  Eval vm_compute in
    match eventsToTimelineIn 24 (trackMapOf audioEvents) with
    | Ok t => t
    | Err _ => NewTimeline [] []
    end.

Definition audioA2A1 : Timeline :=
  Eval vm_compute in
    match eventsToTimelineIn 24 (rev (trackMapOf audioEvents)) with
    | Ok t => t
    | Err _ => NewTimeline [] []
    end.

(** The text [Encode] writes for [audioA1A2]. *)
Definition audioA1A2Text : gostring :=
  Eval vm_compute in snd (Encode NewEncoder (Some audioA1A2) []).

(** The text of [TestDecoder_FreezeFrame], with what the codec makes of
    it: the event, the timeline with its track, clip and source range, the
    text [Encode] writes for the timeline, and the timeline of that text. *)
Definition freezeEDL : gostring :=
  go ("TITLE: Freeze Frame Test" ++ lf ++ "FCM: NON-DROP FRAME" ++ lf ++ lf
      ++ "001  CLIP1    V     C" ++ lf
      ++ "     01:00:04:05 01:00:05:12 00:00:00:00 00:00:01:07" ++ lf
      ++ "* FROM CLIP NAME: FrozenClip FF" ++ lf
      ++ "* FREEZE FRAME" ++ lf).


Definition eventOfText (text : gostring) : EDLEvent :=
  match parseEvents (ScanLines text) with
  | Ok [ev] => ev
  | _ => headerAtEndEvent
  end.

Definition timelineOfText (text : gostring) : Timeline :=
  match DecodeFirstSeen 24 text with
  | Ok t => t
  | Err _ => NewTimeline [] []
  end.




Definition freezeEvent : EDLEvent := Eval vm_compute in eventOfText freezeEDL.
Definition freezeFirst : Timeline := Eval vm_compute in timelineOfText freezeEDL.



End Inputs.

(** * Properties *)

(** ** Strings *)

Lemma rune_eqb_eq (a b : rune) : rune_eqb a b = true <-> a = b.
Proof. apply N.eqb_eq. Qed.

Lemma gostring_eqb_eq (a b : gostring) : gostring_eqb a b = true <-> a = b.
Proof.
  revert b; induction a as [|x a IH]; intros [|y b]; simpl; split; intro H;
    try reflexivity; try discriminate.
  - apply andb_true_iff in H as [H1 H2].
    apply rune_eqb_eq in H1. apply IH in H2. now subst.
  - injection H as -> ->. apply andb_true_iff; split.
    + now apply rune_eqb_eq.
    + now apply IH.
Qed.

Lemma gostring_eqb_refl (a : gostring) : gostring_eqb a a = true.
Proof. now apply gostring_eqb_eq. Qed.

Lemma gostring_eqb_neq (a b : gostring) : gostring_eqb a b = false <-> a <> b.
Proof.
  split.
  - intros H E. apply gostring_eqb_eq in E. congruence.
  - intro H. destruct (gostring_eqb a b) eqn:E; [|reflexivity].
    apply gostring_eqb_eq in E. contradiction.
Qed.

Lemma in_range_iff (lo hi r : rune) :
  in_range lo hi r = true <-> (lo <= r <= hi)%N.
Proof.
  unfold in_range. rewrite andb_true_iff, !N.leb_le. tauto.
Qed.

(** ** Reel names *)

(** An ASCII letter, digit or underscore. *)
Definition asciiWordChar (r : rune) : Prop :=
  ((65 <= r <= 90) \/ (97 <= r <= 122) \/ (48 <= r <= 57) \/ r = 95)%N.

Lemma sanitizeRune_keeps (r : rune) : asciiWordChar r -> sanitizeRune r = r.
Proof.
  unfold asciiWordChar, sanitizeRune. intros H.
  destruct (in_range rA rZ r || in_range ra rz r || in_range r0 r9 r
            || rune_eqb r underscore)%bool eqn:E; [reflexivity|].
  rewrite !orb_false_iff in E. destruct E as [[[E1 E2] E3] E4].
  exfalso.
  destruct H as [H|[H|[H|H]]].
  - apply (in_range_iff rA rZ) in H. congruence.
  - apply (in_range_iff ra rz) in H. congruence.
  - apply (in_range_iff r0 r9) in H. congruence.
  - apply (rune_eqb_eq r underscore) in H. congruence.
Qed.

Lemma sanitizeRune_replaces (r : rune) : ~ asciiWordChar r -> sanitizeRune r = underscore.
Proof.
  unfold asciiWordChar, sanitizeRune. intros H.
  destruct (in_range rA rZ r || in_range ra rz r || in_range r0 r9 r
            || rune_eqb r underscore)%bool eqn:E; [|reflexivity].
  exfalso. apply H.
  rewrite !orb_true_iff in E. destruct E as [[[E|E]|E]|E].
  - left. now apply (in_range_iff rA rZ).
  - right; left. now apply (in_range_iff ra rz).
  - right; right; left. now apply (in_range_iff r0 r9).
  - right; right; right. now apply (rune_eqb_eq r underscore).
Qed.

Lemma SanitizeReelName_nonempty_input (name : gostring) (maxLength : Z) :
  name <> [] ->
  SanitizeReelName name maxLength =
    if (0 <? maxLength) && (maxLength <? len (strings_Map sanitizeRune name))
    then firstn (Z.to_nat maxLength) (strings_Map sanitizeRune name)
    else strings_Map sanitizeRune name.
Proof.
  intro Hne. unfold SanitizeReelName.
  set (m := strings_Map sanitizeRune name).
  assert (Hm : m <> []).
  { subst m. unfold strings_Map. destruct name; [contradiction|discriminate]. }
  destruct ((0 <? maxLength) && (maxLength <? len m)) eqn:E.
  - apply andb_true_iff in E as [E1 E2]. apply Z.ltb_lt in E1.
    destruct m as [|c m']; [contradiction|].
    destruct (Z.to_nat maxLength) eqn:En; [lia|]. reflexivity.
  - destruct m; [contradiction|reflexivity].
Qed.

(** C5. [SanitizeReelName] replaces every character that is not an ASCII
    letter, digit or underscore by an underscore and keeps the others;
    the empty name gives "AX"; a positive [maxLength] shorter than the
    mapped name cuts it to its first [maxLength] characters; otherwise
    ([maxLength] zero, negative, or not shorter) the mapped name is
    returned whole. *)
Theorem SanitizeReelName_spec (name : gostring) (maxLength : Z) :
  let mapped := strings_Map sanitizeRune name in
  (List.length mapped = List.length name
   /\ forall i r, nth_error name i = Some r ->
        (asciiWordChar r -> nth_error mapped i = Some r)
        /\ (~ asciiWordChar r -> nth_error mapped i = Some underscore))
  /\ (name = [] -> SanitizeReelName name maxLength = go "AX")
  /\ (name <> [] -> 0 < maxLength < len mapped ->
        SanitizeReelName name maxLength = firstn (Z.to_nat maxLength) mapped
        /\ len (SanitizeReelName name maxLength) = maxLength)
  /\ (name <> [] -> maxLength <= 0 -> SanitizeReelName name maxLength = mapped)
  /\ (name <> [] -> len mapped <= maxLength -> SanitizeReelName name maxLength = mapped).
Proof.
  intro mapped. repeat split.
  - apply length_map.
  - intro Hw. subst mapped. unfold strings_Map.
    rewrite nth_error_map, H. simpl. now rewrite sanitizeRune_keeps.
  - intro Hw. subst mapped. unfold strings_Map.
    rewrite nth_error_map, H. simpl. now rewrite sanitizeRune_replaces.
  - intros ->. unfold SanitizeReelName. simpl.
    destruct ((0 <? maxLength) && (maxLength <? len [])); [|reflexivity].
    now rewrite firstn_nil.
  - rewrite SanitizeReelName_nonempty_input by assumption. fold mapped.
    destruct H0 as [H1 H2].
    apply Z.ltb_lt in H1, H2. now rewrite H1, H2.
  - rewrite SanitizeReelName_nonempty_input by assumption. fold mapped.
    destruct H0 as [H1 H2].
    pose proof H1 as H1'. pose proof H2 as H2'.
    apply Z.ltb_lt in H1', H2'. rewrite H1', H2'. simpl.
    unfold len in *. rewrite length_firstn. lia.
  - intros Hne Hle. rewrite SanitizeReelName_nonempty_input by assumption.
    replace (0 <? maxLength) with false by (symmetry; apply Z.ltb_ge; lia).
    reflexivity.
  - intros Hne Hle. rewrite SanitizeReelName_nonempty_input by assumption.
    fold mapped.
    replace (maxLength <? len mapped) with false by (symmetry; apply Z.ltb_ge; lia).
    now rewrite andb_false_r.
Qed.

(** ** The encoder and more than one video track *)

Section EncoderRefusal.
Context {OT : Opentime}.

Lemma writeHeader_appends (t : Timeline) (w : gostring) :
  exists title,
    writeHeader t w =
      w ++ go "TITLE: " ++ title ++ newline ++ go "FCM: NON-DROP FRAME" ++ newline ++ newline.
Proof. unfold writeHeader. eexists. reflexivity. Qed.


End EncoderRefusal.



(** ** The line after an event header *)

(** The tests that come before the event-header test let the line through. *)
Definition pastHeaderTests (line : gostring) : bool :=
  negb (gostring_eqb (TrimSpace line) (go ""))
  && negb (HasPrefix (TrimSpace line) (go "TITLE:"))
  && negb (HasPrefix (TrimSpace line) (go "FCM:")).

Lemma pastHeaderTests_inv (line : gostring) :
  pastHeaderTests line = true ->
  gostring_eqb (TrimSpace line) (go "") = false
  /\ HasPrefix (TrimSpace line) (go "TITLE:") = false
  /\ HasPrefix (TrimSpace line) (go "FCM:") = false.
Proof.
  unfold pastHeaderTests. rewrite !andb_true_iff, !negb_true_iff. tauto.
Qed.

(** An event header followed by a line that is not a timecode line: the
    parse failure carries the number of that following line. *)
Lemma parseLines_timecode_line_missing
    (line tcLine : gostring) (rest : list gostring) (st : pstate) (m : caps) :
  pastHeaderTests line = true ->
  FindStringSubmatch eventLineRegex line = Some m ->
  FindStringSubmatch timecodeLineRegex tcLine = None ->
  parseLines (line :: tcLine :: rest) st =
    Err (ParseError (lineNum st + 2) (go "expected timecode line after event")).
Proof.
  intros Hp Hm Htc. apply pastHeaderTests_inv in Hp as (H1 & H2 & H3).
  cbn [parseLines]. rewrite H1, H2, H3, Hm, Htc.
  f_equal. f_equal. lia.
Qed.

(** An event header with no line after it: the loop ends without error and
    the event stays open with empty timecodes. *)
Lemma parseLines_header_last (line : gostring) (st : pstate) (m : caps) :
  pastHeaderTests line = true ->
  FindStringSubmatch eventLineRegex line = Some m ->
  parseLines [line] st =
    Ok (mkPstate (flush (events st) (currentEvent st)) (Some (newEvent m))
                 (lineNum st + 1) (fcmMode st)).
Proof.
  intros Hp Hm. apply pastHeaderTests_inv in Hp as (H1 & H2 & H3).
  cbn [parseLines]. now rewrite H1, H2, H3, Hm.
Qed.

Section HeaderAtEnd.
Context {OT : Opentime} {CT : CaseTable}.

Lemma trackStep_error (rate : Q) (st : list Composable * RationalTime) (ev : EDLEvent)
    (e : error) :
  trackStep rate st ev = Err e -> exists f s, e = InvalidTimecode f s.
Proof.
  unfold trackStep, fromTimecode. destruct st as [children lastRecordOut].
  destruct (FromTimecode (SourceIn ev) rate); [|intro H; injection H as <-; eauto].
  destruct (FromTimecode (SourceOut ev) rate); [|intro H; injection H as <-; eauto].
  destruct (FromTimecode (RecordIn ev) rate); [|intro H; injection H as <-; eauto].
  destruct (FromTimecode (RecordOut ev) rate); [|intro H; injection H as <-; eauto].
  discriminate.
Qed.

Lemma trackLoop_error (rate : Q) (evs : list EDLEvent)
    (st : list Composable * RationalTime) (e : error) :
  trackLoop rate evs st = Err e -> exists f s, e = InvalidTimecode f s.
Proof.
  revert st; induction evs as [|ev evs IH]; intros st; cbn [trackLoop].
  - discriminate.
  - destruct (trackStep rate st ev) as [st'|e'] eqn:E; cbn [bind].
    + apply IH.
    + intro H; injection H as <-. eapply trackStep_error; eassumption.
Qed.

Lemma createTrack_error (rate : Q) (tt : TrackType) (evs : list EDLEvent) (e : error) :
  createTrack rate tt evs = Err e -> exists f s, e = InvalidTimecode f s.
Proof.
  unfold createTrack.
  destruct (trackLoop rate evs ([], zeroRationalTime)) eqn:E; cbn [bind].
  - discriminate.
  - intro H; injection H as <-. eapply trackLoop_error; eassumption.
Qed.

Lemma buildTracks_error (rate : Q) (entries : list (TrackType * list EDLEvent))
    (tracks : list Track) (e : error) :
  buildTracks rate entries tracks = Err e -> exists f s, e = InvalidTimecode f s.
Proof.
  revert tracks; induction entries as [|[tt evs] entries IH]; intros tracks;
    cbn [buildTracks].
  - discriminate.
  - destruct (createTrack rate tt evs) eqn:E; cbn [bind].
    + apply IH.
    + intro H; injection H as <-. eapply createTrack_error; eassumption.
Qed.

(** The timeline builder never returns a parse failure. *)
Lemma eventsToTimeline_no_ParseError (rate : Q) (evs : list EDLEvent)
    (r : result Timeline) (n : Z) (msg : gostring) :
  eventsToTimeline rate evs r -> r <> Err (ParseError n msg).
Proof.
  intros (order & _ & ->) H. unfold eventsToTimelineIn in H.
  destruct (buildTracks rate order []) eqn:E; cbn [bind] in H; [discriminate|].
  injection H as ->. apply buildTracks_error in E as (f & s & E). discriminate.
Qed.

End HeaderAtEnd.

(** C3 (the case the code misses). On an input whose last line is an event
    header, [parseEvents] reports no failure: the event is flushed with
    empty timecodes, and no run of [Decode] returns a parse failure,
    whatever line number or message. *)
Theorem event_header_at_end_of_input :
  parseEvents (ScanLines Inputs.headerAtEnd) = Ok [Inputs.headerAtEndEvent]
  /\ forall (OT : Opentime) (CT : CaseTable) (rate : Q) (r : result Timeline)
            (n : Z) (msg : gostring),
       Decode rate Inputs.headerAtEnd r -> r <> Err (ParseError n msg).
Proof.
  assert (E : parseEvents (ScanLines Inputs.headerAtEnd) = Ok [Inputs.headerAtEndEvent])
    by (vm_compute; reflexivity).
  split; [exact E|].
  intros OT CT rate r n msg H. unfold Decode in H. rewrite E in H.
  eapply eventsToTimeline_no_ParseError; eassumption.
Qed.

(** ** Lines that end in " FF" *)

(** The line gets as far as the comment tests: it is not blank, not a
    TITLE or FCM line, not an event header and not an M2 line. *)
Definition reachesCommentTests (line : gostring) : bool :=
  pastHeaderTests line
  && (match FindStringSubmatch eventLineRegex line with
      | Some _ => false
      | None => true
      end)
  && negb (HasPrefix (TrimSpace line) (go "M2")).

(** The trimmed line starts with one of the six clip-name and file-path
    keywords, which are tested before the freeze-frame suffix. *)
Definition fromCommentPrefix (trimmed : gostring) : bool :=
  HasPrefix trimmed (go "*FROM CLIP NAME:")
  || HasPrefix trimmed (go "* FROM CLIP NAME:")
  || HasPrefix trimmed (go "*FROM CLIP:")
  || HasPrefix trimmed (go "* FROM CLIP:")
  || HasPrefix trimmed (go "*FROM FILE:")
  || HasPrefix trimmed (go "* FROM FILE:").

Lemma parseLines_comment_line (line : gostring) (rest : list gostring) (st : pstate) :
  reachesCommentTests line = true ->
  parseLines (line :: rest) st =
    parseLines rest
      (mkPstate (events st)
         (match currentEvent st with
          | Some ev => Some (applyCommentLine (TrimSpace line) ev)
          | None => None
          end)
         (lineNum st + 1) (fcmMode st)).
Proof.
  unfold reachesCommentTests. rewrite !andb_true_iff, negb_true_iff.
  intros [[Hp He] Hm]. apply pastHeaderTests_inv in Hp as (H1 & H2 & H3).
  cbn [parseLines]. rewrite H1, H2, H3, Hm.
  destruct (FindStringSubmatch eventLineRegex line); [discriminate|reflexivity].
Qed.

Lemma applyCommentLine_freeze (trimmed : gostring) (ev : EDLEvent) :
  fromCommentPrefix trimmed = false ->
  HasSuffix trimmed (go " FF") = true ->
  applyCommentLine trimmed ev = set_FreezeFrame ev true.
Proof.
  unfold fromCommentPrefix. rewrite !orb_false_iff.
  intros [[[[[H1 H2] H3] H4] H5] H6] Hs.
  unfold applyCommentLine. rewrite H1, H2, H3, H4, H5, H6, Hs.
  now rewrite orb_true_r.
Qed.

(** C10 (as the code has it). While an event is open, a line that gets as
    far as the comment tests, does not start with one of the six
    FROM CLIP NAME / FROM CLIP / FROM FILE keywords and ends, once
    trimmed, in " FF" sets the freeze-frame flag of the open event,
    whether or not it begins with an asterisk; the event's markers,
    colour decision and comment stay as they were. *)
Theorem freeze_frame_suffix_line
    (line : gostring) (rest : list gostring) (st : pstate) (ev : EDLEvent) :
  currentEvent st = Some ev ->
  reachesCommentTests line = true ->
  fromCommentPrefix (TrimSpace line) = false ->
  HasSuffix (TrimSpace line) (go " FF") = true ->
  parseLines (line :: rest) st =
    parseLines rest
      (mkPstate (events st) (Some (set_FreezeFrame ev true)) (lineNum st + 1)
                (fcmMode st))
  /\ FreezeFrame (set_FreezeFrame ev true) = true
  /\ Markers (set_FreezeFrame ev true) = Markers ev
  /\ evASCCDL (set_FreezeFrame ev true) = evASCCDL ev
  /\ Comment (set_FreezeFrame ev true) = Comment ev.
Proof.
  intros Hcur Hreach Hfrom Hsuf. repeat split.
  rewrite parseLines_comment_line by assumption.
  rewrite Hcur. now rewrite applyCommentLine_freeze.
Qed.

Lemma freeze_frame_suffix_line_witness :
  parseLines [Inputs.plainLineFF] Inputs.openState =
    parseLines []
      (mkPstate [] (Some (set_FreezeFrame Inputs.openEvent true)) 3 (go ""))
  /\ FreezeFrame (set_FreezeFrame Inputs.openEvent true) = true
  /\ Markers (set_FreezeFrame Inputs.openEvent true) = Markers Inputs.openEvent
  /\ evASCCDL (set_FreezeFrame Inputs.openEvent true) = evASCCDL Inputs.openEvent
  /\ Comment (set_FreezeFrame Inputs.openEvent true) = Comment Inputs.openEvent.
Proof.
  apply (freeze_frame_suffix_line Inputs.plainLineFF [] Inputs.openState
           Inputs.openEvent); reflexivity.
Defined.

(** C10 (as stated) fails: with the event of [Inputs.openingLines] open,
    the line "* FROM CLIP NAME: Shot FF" ends in " FF" and is taken by
    the clip-name test, which comes first; the freeze-frame flag stays
    unset. *)
Lemma clip_name_line_ending_in_FF :
  parseLines Inputs.openingLines initialState = Ok Inputs.openState
  /\ currentEvent Inputs.openState = Some Inputs.openEvent
  /\ HasSuffix (TrimSpace Inputs.clipNameLineFF) (go " FF") = true
  /\ parseLines [Inputs.clipNameLineFF] Inputs.openState =
       Ok (mkPstate [] (Some (set_ClipName Inputs.openEvent (go "Shot FF"))) 3 (go ""))
  /\ FreezeFrame (set_ClipName Inputs.openEvent (go "Shot FF")) = false.
Proof. repeat split; vm_compute; reflexivity. Qed.

(** ** The timeline builder *)

Lemma Qgt_bool_iff (x y : Q) : Qgt_bool x y = true <-> (y < x)%Q.
Proof.
  unfold Qgt_bool. rewrite negb_true_iff. split.
  - intro H. apply Qnot_le_lt. intro L. apply Qle_bool_iff in L. congruence.
  - intro H. destruct (Qle_bool x y) eqn:E; [|reflexivity].
    apply Qle_bool_iff in E. exfalso. now apply (Qlt_not_le y x).
Qed.

Lemma Qgt_bool_false_iff (x y : Q) : Qgt_bool x y = false <-> (x <= y)%Q.
Proof.
  unfold Qgt_bool. rewrite negb_false_iff. apply Qle_bool_iff.
Qed.

Section Builder.
Context {OT : Opentime} {CT : CaseTable}.
Variable rate : Q.

(** What one pass of the loop of [createTrack] appends for an event. *)
Definition eventBlock (lastRecordOut recordIn sourceIn sourceOut : RationalTime)
    (ev : EDLEvent) : list Composable :=
  gapBefore lastRecordOut recordIn ++ transitionOf rate ev
  ++ [CClip (clipOf rate ev sourceIn sourceOut)].

Lemma trackStep_ok (st st' : list Composable * RationalTime) (ev : EDLEvent) :
  trackStep rate st ev = Ok st' ->
  exists si so ri ro,
    FromTimecode (SourceIn ev) rate = Some si
    /\ FromTimecode (SourceOut ev) rate = Some so
    /\ FromTimecode (RecordIn ev) rate = Some ri
    /\ FromTimecode (RecordOut ev) rate = Some ro
    /\ st' = (fst st ++ eventBlock (snd st) ri si so ev, ro).
Proof.
  unfold trackStep, fromTimecode, eventBlock. destruct st as [children lastRecordOut].
  destruct (FromTimecode (SourceIn ev) rate) as [si|]; [|discriminate].
  destruct (FromTimecode (SourceOut ev) rate) as [so|]; [|discriminate].
  destruct (FromTimecode (RecordIn ev) rate) as [ri|]; [|discriminate].
  destruct (FromTimecode (RecordOut ev) rate) as [ro|]; [|discriminate].
  cbn [bind]. intro H; injection H as <-.
  exists si, so, ri, ro. repeat split; reflexivity.
Qed.

Lemma trackStep_children (ch ch0 : list Composable) (last : RationalTime)
    (ev : EDLEvent) (st' : list Composable * RationalTime) :
  trackStep rate (ch, last) ev = Ok st' ->
  exists block,
    st' = (ch ++ block, snd st')
    /\ trackStep rate (ch0, last) ev = Ok (ch0 ++ block, snd st').
Proof.
  intro H. pose proof (trackStep_ok _ _ _ H) as (si & so & ri & ro & H1 & H2 & H3 & H4 & ->).
  cbn [fst snd]. eexists. split; [reflexivity|].
  unfold trackStep, fromTimecode. rewrite H1, H2, H3, H4. reflexivity.
Qed.

Lemma trackLoop_app (a b : list EDLEvent) (st : list Composable * RationalTime) :
  trackLoop rate (a ++ b) st = (do st' <- trackLoop rate a st; trackLoop rate b st').
Proof.
  revert st; induction a as [|ev a IH]; intro st; cbn [app trackLoop bind].
  - reflexivity.
  - destruct (trackStep rate st ev); cbn [bind]; [apply IH|reflexivity].
Qed.

(** The loop only appends, and what it appends does not depend on the
    children already there. *)
Lemma trackLoop_children (evs : list EDLEvent) (ch : list Composable)
    (last : RationalTime) (st' : list Composable * RationalTime) :
  trackLoop rate evs (ch, last) = Ok st' ->
  exists suffix,
    st' = (ch ++ suffix, snd st')
    /\ forall ch0, trackLoop rate evs (ch0, last) = Ok (ch0 ++ suffix, snd st').
Proof.
  revert ch last st'; induction evs as [|ev evs IH]; intros ch last st'; cbn [trackLoop].
  - intro H; injection H as <-. exists []. cbn [snd]. rewrite app_nil_r. split; [reflexivity|].
    intro ch0. now rewrite app_nil_r.
  - destruct (trackStep rate (ch, last) ev) as [[ch1 last1]|] eqn:E; cbn [bind];
      [|discriminate].
    intro H.
    destruct (trackStep_children ch ch last ev _ E) as (block & E1 & _).
    cbn [snd] in E1. injection E1 as ->.
    destruct (IH _ _ _ H) as (suffix & -> & Hall).
    exists (block ++ suffix). cbn [snd]. split.
    + now rewrite app_assoc.
    + intro ch0.
      destruct (trackStep_children ch ch0 last ev _ E) as (block' & E1' & E2').
      cbn [snd] in E1', E2'. injection E1' as E1'. apply app_inv_head in E1'. subst block'.
      rewrite E2'. cbn [bind]. rewrite app_assoc. apply Hall.
Qed.

Lemma trackLoop_last (pre : list EDLEvent) (ev : EDLEvent)
    (st st' : list Composable * RationalTime) :
  trackLoop rate (pre ++ [ev]) st = Ok st' ->
  FromTimecode (RecordOut ev) rate = Some (snd st').
Proof.
  rewrite trackLoop_app.
  destruct (trackLoop rate pre st) as [st1|]; cbn [bind trackLoop]; [|discriminate].
  destruct (trackStep rate st1 ev) as [st2|] eqn:E; cbn [bind]; [|discriminate].
  intro H; injection H as <-.
  apply trackStep_ok in E as (si & so & ri & ro & _ & _ & _ & Hro & ->).
  exact Hro.
Qed.

(** C4. Two consecutive events [e1], [e2] of one track group, the record-out
    of [e1] a valid time: when the record-in of [e2] exceeds it by more
    than half a frame, the children of the track are those built up to
    the clip of [e1], then one gap whose duration is exactly record-in
    minus record-out, then the transition of [e2] if it has one, then
    the clip of [e2], then what the later events add; when it exceeds it
    by half a frame or less, the same without the gap. *)
Theorem gap_between_consecutive_events
    (trackType : TrackType) (pre post : list EDLEvent) (e1 e2 : EDLEvent)
    (track : Track) (ro1 ri2 : RationalTime) :
  createTrack rate trackType (pre ++ e1 :: e2 :: post) = Ok track ->
  FromTimecode (RecordOut e1) rate = Some ro1 ->
  FromTimecode (RecordIn e2) rate = Some ri2 ->
  IsValidTime ro1 = true ->
  exists before after si2 so2,
    trackLoop rate (pre ++ [e1]) ([], zeroRationalTime) = Ok (before, ro1)
    /\ FromTimecode (SourceIn e2) rate = Some si2
    /\ FromTimecode (SourceOut e2) rate = Some so2
    /\ ((1 # 2 < Value (Sub ri2 ro1))%Q ->
        trackChildren track =
          before ++ [CGap (NewGapWithDuration (Sub ri2 ro1))]
                 ++ transitionOf rate e2 ++ [CClip (clipOf rate e2 si2 so2)] ++ after)
    /\ ((Value (Sub ri2 ro1) <= 1 # 2)%Q ->
        trackChildren track =
          before ++ transitionOf rate e2 ++ [CClip (clipOf rate e2 si2 so2)] ++ after).
Proof.
  intros Hct Hro1 Hri2 Hvalid. unfold createTrack in Hct.
  replace (pre ++ e1 :: e2 :: post) with ((pre ++ [e1]) ++ e2 :: post) in Hct
    by (rewrite <- app_assoc; reflexivity).
  rewrite trackLoop_app in Hct.
  destruct (trackLoop rate (pre ++ [e1]) ([], zeroRationalTime)) as [[before last1]|] eqn:E1;
    cbn [bind] in Hct; [|discriminate].
  pose proof (trackLoop_last _ _ _ _ E1) as Hlast. cbn [snd] in Hlast.
  rewrite Hro1 in Hlast. injection Hlast as <-.
  cbn [trackLoop] in Hct.
  destruct (trackStep rate (before, ro1) e2) as [st2|] eqn:E2; cbn [bind] in Hct;
    [|discriminate].
  apply trackStep_ok in E2 as (si2 & so2 & ri & ro2 & Hsi & Hso & Hri & Hro & ->).
  rewrite Hri2 in Hri. injection Hri as <-. cbn [fst snd] in Hct.
  destruct (trackLoop rate post _) as [[ch last]|] eqn:E3; cbn [bind] in Hct; [|discriminate].
  injection Hct as <-. cbn [trackChildren fst].
  apply trackLoop_children in E3 as (after & E3 & _). cbn [snd] in E3.
  injection E3 as ->.
  exists before, after, si2, so2. split; [reflexivity|]. split; [exact Hsi|].
  split; [exact Hso|].
  unfold eventBlock, gapBefore. rewrite Hvalid. split; intro Hgap.
  - apply Qgt_bool_iff in Hgap. rewrite Hgap.
    rewrite <- !app_assoc. reflexivity.
  - apply Qgt_bool_false_iff in Hgap. rewrite Hgap.
    rewrite <- !app_assoc. reflexivity.
Qed.


Lemma trackStep_clip (st st' : list Composable * RationalTime) (ev : EDLEvent) :
  trackStep rate st ev = Ok st' ->
  exists si so ri ro,
    FromTimecode (SourceIn ev) rate = Some si
    /\ FromTimecode (SourceOut ev) rate = Some so
    /\ FromTimecode (RecordIn ev) rate = Some ri
    /\ FromTimecode (RecordOut ev) rate = Some ro
    /\ fst st' = fst st ++ gapBefore (snd st) ri ++ transitionOf rate ev
                 ++ [CClip (clipOf rate ev si so)].
Proof.
  intro H. apply trackStep_ok in H as (si & so & ri & ro & H1 & H2 & H3 & H4 & ->).
  exists si, so, ri, ro. repeat split; assumption.
Qed.


(** The event built from a header whose edit token is W001 and whose
    duration field reads 30 is a wipe with that code and duration. *)
Lemma newEvent_W001 (m : caps) :
  submatch m 4 = go "W001" ->
  Atoi (submatch m 5) = 30 ->
  evEditType (newEvent m) = EditTypeWipe
  /\ WipeCode (newEvent m) = go "W001"
  /\ TransitionDuration (newEvent m) = 30.
Proof.
  intros H4 H5. unfold newEvent. rewrite H4. cbn [evEditType WipeCode TransitionDuration].
  repeat split.
  destruct (gostring_eqb (submatch m 5) (go "")) eqn:E; [|exact H5].
  apply gostring_eqb_eq in E. rewrite E in H5. discriminate.
Qed.

(** C7. For an event with edit token W001 (a wipe whose code is W001)
    and transition duration 30, one pass of the builder appends, after
    the gap if there is one and immediately before the event's clip,
    exactly one transition: named "W001", of the custom kind, with
    in-offset zero and out-offset 30 frames at the decode rate. *)
Theorem wipe_W001_transition
    (st st' : list Composable * RationalTime) (ev : EDLEvent) :
  evEditType ev = EditTypeWipe ->
  WipeCode ev = go "W001" ->
  TransitionDuration ev = 30 ->
  trackStep rate st ev = Ok st' ->
  exists gap clip,
    fst st' =
      fst st ++ gap
      ++ [CTransition (NewTransition (go "W001") TransitionTypeCustom
                                     (NewRationalTime 0 rate)
                                     (NewRationalTime (inject_Z 30) rate));
          CClip clip]
    /\ (gap = [] \/ exists g, gap = [CGap g])
    /\ clipName clip = clipNameOf ev.
Proof.
  intros He Hw Hd H.
  apply trackStep_clip in H as (si & so & ri & ro & _ & _ & _ & _ & ->).
  exists (gapBefore (snd st) ri), (clipOf rate ev si so).
  split; [|split].
  - unfold transitionOf. rewrite He, Hw, Hd. reflexivity.
  - unfold gapBefore. destruct (IsValidTime (snd st)); [|now left].
    destruct (Qgt_bool _ _); [right; eexists; reflexivity|now left].
  - reflexivity.
Qed.

End Builder.

Section BuilderOnSample.
#[local] Existing Instance Sample.opentime.
#[local] Existing Instance Sample.caseTable.

Lemma gap_between_consecutive_events_witness :
  exists before after si2 so2,
    trackLoop 24 ([] ++ [Inputs.cutEvent]) ([], zeroRationalTime)
      = Ok (before, Inputs.frames 31)
    /\ FromTimecode (SourceIn Inputs.laterEvent) 24 = Some si2
    /\ FromTimecode (SourceOut Inputs.laterEvent) 24 = Some so2
    /\ ((1 # 2 < Value (Sub (Inputs.frames 55) (Inputs.frames 31)))%Q ->
        trackChildren Inputs.gapTrack =
          before ++ [CGap (NewGapWithDuration (Sub (Inputs.frames 55) (Inputs.frames 31)))]
                 ++ transitionOf 24 Inputs.laterEvent
                 ++ [CClip (clipOf 24 Inputs.laterEvent si2 so2)] ++ after)
    /\ ((Value (Sub (Inputs.frames 55) (Inputs.frames 31)) <= 1 # 2)%Q ->
        trackChildren Inputs.gapTrack =
          before ++ transitionOf 24 Inputs.laterEvent
                 ++ [CClip (clipOf 24 Inputs.laterEvent si2 so2)] ++ after).
Proof.
  apply (@gap_between_consecutive_events Sample.opentime Sample.caseTable 24
           (go "V") [] [] Inputs.cutEvent Inputs.laterEvent Inputs.gapTrack
           (Inputs.frames 31) (Inputs.frames 55)); reflexivity.
Defined.


Lemma wipe_W001_transition_witness :
  exists gap clip,
    fst Inputs.afterWipe =
      fst Inputs.afterCut ++ gap
      ++ [CTransition (NewTransition (go "W001") TransitionTypeCustom
                                     (NewRationalTime 0 24)
                                     (NewRationalTime (inject_Z 30) 24));
          CClip clip]
    /\ (gap = [] \/ exists g, gap = [CGap g])
    /\ clipName clip = clipNameOf Inputs.wipeEvent.
Proof.
  apply (@wipe_W001_transition Sample.opentime Sample.caseTable 24
           Inputs.afterCut Inputs.afterWipe Inputs.wipeEvent); reflexivity.
Defined.

(** The header of [Inputs.wipeHeader] gives the fields of
    [Inputs.wipeEvent]. *)
Lemma wipeHeader_fields :
  exists m,
    FindStringSubmatch eventLineRegex Inputs.wipeHeader = Some m
    /\ submatch m 4 = go "W001"
    /\ Atoi (submatch m 5) = 30
    /\ evEditType (newEvent m) = evEditType Inputs.wipeEvent
    /\ WipeCode (newEvent m) = WipeCode Inputs.wipeEvent
    /\ TransitionDuration (newEvent m) = TransitionDuration Inputs.wipeEvent.
Proof. eexists. repeat split; vm_compute; reflexivity. Qed.

End BuilderOnSample.

(** ** The order of the tracks *)

Section TrackOrder.
Context {OT : Opentime} {CT : CaseTable}.
Variable rate : Q.

(** The track built for one entry of the map. *)
Definition trackOfEntry (entry : TrackType * list EDLEvent) (track : Track) : Prop :=
  createTrack rate (fst entry) (snd entry) = Ok track.

Lemma buildTracks_ok (entries : list (TrackType * list EDLEvent))
    (acc tracks : list Track) :
  buildTracks rate entries acc = Ok tracks <->
  exists built, Forall2 trackOfEntry entries built /\ tracks = acc ++ built.
Proof.
  revert acc tracks; induction entries as [|[tt evs] entries IH]; intros acc tracks;
    cbn [buildTracks].
  - split.
    + intro H; injection H as <-. exists []. split; [constructor|now rewrite app_nil_r].
    + intros (built & HF & ->). inversion HF. now rewrite app_nil_r.
  - split.
    + destruct (createTrack rate tt evs) as [track|] eqn:E; cbn [bind]; [|discriminate].
      intro H. apply IH in H as (built & HF & ->).
      exists (track :: built). split.
      * constructor; [exact E|exact HF].
      * now rewrite <- app_assoc.
    + intros (built & HF & ->). inversion HF as [|? track ? built' Hx HF']; subst.
      unfold trackOfEntry in Hx. cbn [fst snd] in Hx. rewrite Hx. cbn [bind].
      apply IH. exists built'. split; [exact HF'|now rewrite <- app_assoc].
Qed.

(** C8 (as the code has it). The range over the map fixes no order: two
    runs of [Decode] on one text, the first of them successful, both
    succeed and build the same tracks, the second possibly in another
    order; the timeline name is the same. *)
Theorem Decode_tracks_up_to_order
    (text : gostring) (t1 : Timeline) (r2 : result Timeline) :
  Decode rate text (Ok t1) ->
  Decode rate text r2 ->
  exists t2,
    r2 = Ok t2
    /\ Permutation (timelineTracks t1) (timelineTracks t2)
    /\ timelineName t2 = timelineName t1.
Proof.
  unfold Decode. destruct (parseEvents (ScanLines text)) as [evs|e]; [|discriminate].
  intros (o1 & P1 & E1) (o2 & P2 & ->). unfold eventsToTimelineIn in *.
  destruct (buildTracks rate o1 []) as [ts1|] eqn:B1; cbn [bind] in E1; [|discriminate].
  injection E1 as ->. cbn [timelineTracks timelineName].
  apply buildTracks_ok in B1 as (built1 & F1 & ->). cbn [app].
  assert (P : Permutation o1 o2).
  { eapply Permutation_trans; [exact P1|]. now apply Permutation_sym. }
  destruct (Permutation_Forall2 P F1) as (built2 & PB & F2).
  assert (B2 : buildTracks rate o2 [] = Ok built2).
  { apply buildTracks_ok. exists built2. split; [exact F2|reflexivity]. }
  rewrite B2. cbn [bind]. eexists. split; [reflexivity|]. split; [exact PB|reflexivity].
Qed.

End TrackOrder.

Section TrackOrderOnSample.
#[local] Existing Instance Sample.opentime.
#[local] Existing Instance Sample.caseTable.

Lemma Decode_first_seen_order :
  Decode 24 Inputs.audioEDL (Ok Inputs.audioA1A2).
Proof.
  unfold Decode.
  replace (parseEvents (ScanLines Inputs.audioEDL)) with (Ok Inputs.audioEvents)
    by (vm_compute; reflexivity).
  exists (trackMapOf Inputs.audioEvents). split; [apply Permutation_refl|].
  reflexivity.
Qed.

Lemma Decode_tracks_up_to_order_witness :
  exists t2,
    Ok Inputs.audioA1A2 = Ok t2
    /\ Permutation (timelineTracks Inputs.audioA1A2) (timelineTracks t2)
    /\ timelineName t2 = timelineName Inputs.audioA1A2.
Proof.
  apply (@Decode_tracks_up_to_order Sample.opentime Sample.caseTable 24
           Inputs.audioEDL Inputs.audioA1A2 (Ok Inputs.audioA1A2));
    exact Decode_first_seen_order.
Defined.

(** C8 (as stated) fails: the text of [TestDecoder_AudioTrack] has two
    runs, one with the tracks in the order A1, A2 and one in the order
    A2, A1. *)
Lemma Decode_two_track_orders :
  Decode 24 Inputs.audioEDL (Ok Inputs.audioA1A2)
  /\ Decode 24 Inputs.audioEDL (Ok Inputs.audioA2A1)
  /\ List.map trackName (timelineTracks Inputs.audioA1A2) = [go "A1"; go "A2"]
  /\ List.map trackName (timelineTracks Inputs.audioA2A1) = [go "A2"; go "A1"].
Proof.
  split; [exact Decode_first_seen_order|]. split; [|split; reflexivity].
  unfold Decode.
  replace (parseEvents (ScanLines Inputs.audioEDL)) with (Ok Inputs.audioEvents)
    by (vm_compute; reflexivity).
  exists (rev (trackMapOf Inputs.audioEvents)). split.
  - apply Permutation_sym, Permutation_rev.
  - reflexivity.
Qed.

End TrackOrderOnSample.

(** ** Event numbers *)

Lemma digitsValue_app (a : Z) (ds rest : gostring) :
  digitsValue a (ds ++ rest) =
    match digitsValue a ds with
    | Some v => digitsValue v rest
    | None => None
    end.
Proof.
  revert a; induction ds as [|c ds IH]; intro a; cbn [app digitsValue].
  - reflexivity.
  - destruct (cls_d c); [apply IH|reflexivity].
Qed.

Lemma digit_rune (d : Z) :
  0 <= d <= 9 ->
  cls_d (Z.to_N (48 + d)) = true /\ Z.of_N (Z.to_N (48 + d)) - 48 = d.
Proof.
  intro H. split.
  - unfold cls_d. apply in_range_iff. unfold r0, r9. lia.
  - lia.
Qed.

Lemma itoaFuel_S (fuel : nat) (n : Z) (acc : gostring) :
  itoaFuel (S fuel) n acc =
    if n <? 10 then Z.to_N (48 + n mod 10) :: acc
    else itoaFuel fuel (n / 10) (Z.to_N (48 + n mod 10) :: acc).
Proof. reflexivity. Qed.

(** The digits [itoaFuel] puts in front of [acc]: they read back as [n],
    there are as many as [n] needs, and the first is not a zero unless
    [n] is 0. *)
Lemma itoaFuel_digits (fuel : nat) (n : Z) (acc : gostring) :
  0 <= n < 10 ^ Z.of_nat (S fuel) ->
  exists ds,
    itoaFuel (S fuel) n acc = ds ++ acc
    /\ (forall a, digitsValue a ds = Some (a * 10 ^ Z.of_nat (List.length ds) + n))
    /\ (0 < List.length ds)%nat
    /\ n < 10 ^ Z.of_nat (List.length ds)
    /\ (0 < n -> 10 ^ (Z.of_nat (List.length ds) - 1) <= n)
    /\ (0 < n -> forall c, List.hd_error ds = Some c -> c <> r0).
Proof.
  revert n acc; induction fuel as [|fuel IH]; intros n acc Hn;
    rewrite itoaFuel_S; destruct (n <? 10) eqn:E.
  1,3: apply Z.ltb_lt in E; exists [Z.to_N (48 + n mod 10)];
       rewrite (Z.mod_small n 10) by lia;
       assert (Hn9 : 0 <= n <= 9) by lia;
       destruct (digit_rune n Hn9) as [Hd Hv];
       cbn [List.length hd_error]; change (Z.of_nat 1) with 1;
       rewrite Z.pow_1_r; change (1 - 1) with 0; rewrite Z.pow_0_r;
       split; [reflexivity|]; split; [|split; [|split; [|split]]];
       [ intro a; cbn [digitsValue]; rewrite Hd, Hv; reflexivity
       | lia
       | lia
       | lia
       | intros Hpos c Hc; replace c with (Z.to_N (48 + n)) by congruence;
         intro Heq; rewrite Heq in Hv; unfold r0 in Hv;
         change (Z.of_N 48 - 48) with 0 in Hv; lia ].
  - apply Z.ltb_ge in E. change (Z.of_nat 1) with 1 in Hn. lia.
  - apply Z.ltb_ge in E.
    assert (Hq : 0 <= n / 10 < 10 ^ Z.of_nat (S fuel)).
    { split; [apply Z.div_pos; lia|].
      apply Z.div_lt_upper_bound; [lia|].
      replace (Z.of_nat (S (S fuel))) with (Z.of_nat (S fuel) + 1) in Hn by lia.
      rewrite Z.pow_add_r in Hn by lia. lia. }
    destruct (IH (n / 10) (Z.to_N (48 + n mod 10) :: acc) Hq)
      as (ds & Hds & Hval & Hlen & Hub & Hlb & Hhd).
    exists (ds ++ [Z.to_N (48 + n mod 10)]).
    assert (Hm : 0 <= n mod 10 <= 9) by (pose proof (Z.mod_pos_bound n 10); lia).
    destruct (digit_rune (n mod 10) Hm) as [Hd Hv].
    assert (Hq1 : 0 < n / 10) by (apply Z.div_str_pos; lia).
    assert (Hdm : n = 10 * (n / 10) + n mod 10) by (apply Z.div_mod; lia).
    rewrite length_app. cbn [List.length].
    replace (Z.of_nat (List.length ds + 1)) with (Z.of_nat (List.length ds) + 1) by lia.
    rewrite Z.pow_add_r by lia.
    split; [|split; [|split; [|split; [|split]]]].
    + rewrite Hds, <- app_assoc. reflexivity.
    + intro a. rewrite digitsValue_app, Hval. cbn [digitsValue].
      rewrite Hd, Hv. f_equal. lia.
    + lia.
    + lia.
    + intros _. replace (Z.of_nat (List.length ds) + 1 - 1)
        with ((Z.of_nat (List.length ds) - 1) + 1) by lia.
      rewrite Z.pow_add_r by lia. specialize (Hlb Hq1). lia.
    + intros _ c Hc. apply (Hhd Hq1 c).
      destruct ds as [|c0 ds']; [cbn [List.length] in Hlen; lia|exact Hc].
Qed.

Lemma itoa_digits (n : Z) :
  0 <= n ->
  (forall a, digitsValue a (itoa n) = Some (a * 10 ^ Z.of_nat (List.length (itoa n)) + n))
  /\ (0 < List.length (itoa n))%nat
  /\ n < 10 ^ Z.of_nat (List.length (itoa n))
  /\ (0 < n -> 10 ^ (Z.of_nat (List.length (itoa n)) - 1) <= n)
  /\ (0 < n -> forall c, List.hd_error (itoa n) = Some c -> c <> r0).
Proof.
  intro Hn. unfold itoa.
  assert (Hf : 0 <= n < 10 ^ Z.of_nat (S (Z.to_nat (Z.log2 n)))).
  { split; [exact Hn|].
    pose proof (Z.log2_nonneg n) as Hl.
    replace (Z.of_nat (S (Z.to_nat (Z.log2 n)))) with (Z.succ (Z.log2 n)) by lia.
    destruct (Z.eq_dec n 0) as [->|Hz].
    - cbn. lia.
    - pose proof (Z.log2_spec n ltac:(lia)) as [_ Hu].
      eapply Z.lt_le_trans; [exact Hu|].
      apply Z.pow_le_mono_l. lia. }
  destruct (itoaFuel_digits _ n [] Hf) as (ds & Hds & H).
  rewrite Hds, app_nil_r. exact H.
Qed.

Lemma digitsValue_zeros (k : nat) (a : Z) (s : gostring) :
  digitsValue a (repeat r0 k ++ s) = digitsValue (a * 10 ^ Z.of_nat k) s.
Proof.
  revert a; induction k as [|k IH]; intro a.
  - cbn [repeat app]. f_equal. cbn. lia.
  - cbn [repeat app digitsValue]. change (cls_d r0) with true. cbn iota.
    rewrite IH. f_equal. change (Z.of_N r0 - 48) with 0.
    replace (Z.of_nat (S k)) with (Z.of_nat k + 1) by lia.
    rewrite Z.pow_add_r by lia. lia.
Qed.

(** What [%03d] prints for a positive number: decimal digits that read
    back as the number, three of them (zeros in front) below 1000, and
    from 1000 on the digits of the number with nothing in front. *)
Lemma Sprintf03d_positive (n : Z) :
  0 < n ->
  digitsValue 0 (Sprintf03d n) = Some n
  /\ (3 <= List.length (Sprintf03d n))%nat
  /\ (n < 1000 -> List.length (Sprintf03d n) = 3%nat)
  /\ (1000 <= n ->
      Sprintf03d n = itoa n
      /\ forall c, List.hd_error (Sprintf03d n) = Some c -> c <> r0).
Proof.
  intro Hn. unfold Sprintf03d.
  replace (n <? 0) with false by (symmetry; apply Z.ltb_ge; lia).
  destruct (itoa_digits n ltac:(lia)) as (Hval & Hlen & Hub & Hlb & Hhd).
  specialize (Hlb Hn). specialize (Hhd Hn). unfold padLeft.
  split; [|split; [|split]].
  - rewrite digitsValue_zeros, Hval. f_equal; lia.
  - rewrite length_app, repeat_length. lia.
  - intro Hlt. rewrite length_app, repeat_length.
    assert (List.length (itoa n) <= 3)%nat; [|lia].
    destruct (le_lt_dec (List.length (itoa n)) 3) as [|Hgt]; [assumption|exfalso].
    assert (10 ^ 3 <= 10 ^ (Z.of_nat (List.length (itoa n)) - 1))
      by (apply Z.pow_le_mono_r; lia).
    change (10 ^ 3) with 1000 in *. lia.
  - intro Hge.
    assert (Hl : (3 < List.length (itoa n))%nat).
    { destruct (le_lt_dec (List.length (itoa n)) 3) as [Hle|]; [exfalso|assumption].
      assert (10 ^ Z.of_nat (List.length (itoa n)) <= 10 ^ 3)
        by (apply Z.pow_le_mono_r; lia).
      change (10 ^ 3) with 1000 in *. lia. }
    replace (3 - List.length (itoa n))%nat with 0%nat by lia.
    cbn [repeat app]. split; [reflexivity|exact Hhd].
Qed.

(** [k] consecutive numbers from [n] on. *)
Fixpoint countFrom (n : Z) (k : nat) : list Z :=
  match k with
  | O => []
  | S k' => n :: countFrom (n + 1) k'
  end.

Lemma countFrom_app (n : Z) (a b : nat) :
  countFrom n (a + b) = countFrom n a ++ countFrom (n + Z.of_nat a) b.
Proof.
  revert n; induction a as [|a IH]; intro n.
  - cbn. f_equal. lia.
  - cbn [Nat.add countFrom app]. rewrite IH. do 3 f_equal. lia.
Qed.


(** The events a stretch of the encoder has written, one after the other
    from the text [w] on, numbered from [n] on. *)
Definition wrote (w w' : gostring) (n n' : Z) (evs : list EDLEvent) : Prop :=
  w' = w ++ List.concat (List.map eventText evs)
  /\ List.map EventNumber evs = countFrom n (List.length evs)
  /\ n' = n + Z.of_nat (List.length evs).

Lemma wrote_nil (w : gostring) (n : Z) : wrote w w n n [].
Proof.
  unfold wrote. cbn. rewrite app_nil_r. repeat split. lia.
Qed.

Lemma wrote_app (w1 w2 w3 : gostring) (n1 n2 n3 : Z) (a b : list EDLEvent) :
  wrote w1 w2 n1 n2 a -> wrote w2 w3 n2 n3 b -> wrote w1 w3 n1 n3 (a ++ b).
Proof.
  unfold wrote. intros (-> & Ha & ->) (-> & Hb & ->).
  rewrite map_app, concat_app, map_app, length_app, countFrom_app, Ha, Hb.
  repeat split.
  - now rewrite app_assoc.
  - lia.
Qed.

Section EventNumbers.
Context {OT : Opentime}.

Lemma writeChildren_wrote (e : Encoder) (trackType : TrackType) (k : nat) :
  forall (children : list Composable) (n : Z) (recordTime : RationalTime)
         (w : gostring) (n' : Z) (er : option error) (w' : gostring),
    (List.length children <= k)%nat ->
    writeChildren e trackType children n recordTime w = (n', er, w') ->
    exists evs,
      wrote w w' n n' evs /\ Forall (fun ev => evTrackType ev = trackType) evs.
Proof.
  induction k as [|k IH]; intros children n recordTime w n' er w' Hlen H.
  - destruct children; [|cbn in Hlen; lia].
    cbn in H. injection H as <- <- <-. exists []. split; [apply wrote_nil|constructor].
  - destruct children as [|child rest].
    { cbn in H. injection H as <- <- <-. exists []. split; [apply wrote_nil|constructor]. }
    cbn [List.length] in Hlen.
    destruct child as [clip|gap|tr|other]; cbn [writeChildren] in H.
    + destruct (Clip_Duration clip) as [duration|er1].
      2:{ injection H as <- <- <-. exists []. split; [apply wrote_nil|constructor]. }
      destruct (match clipSourceRange clip with
                | Some r => Ok r
                | None => Clip_AvailableRange clip
                end) as [sourceRange|er1].
      2:{ injection H as <- <- <-. exists []. split; [apply wrote_nil|constructor]. }
      set (event := eventOfClip e trackType n recordTime clip duration sourceRange rest) in H.
      assert (Hev : wrote w (writeEvent event w) n (n + 1) [event]).
      { unfold wrote, writeEvent. cbn. rewrite app_nil_r. repeat split. }
      assert (Htt : evTrackType event = trackType) by reflexivity.
      assert (Hrec : exists rest',
                 (List.length rest' <= k)%nat
                 /\ writeChildren e trackType rest' (n + 1) (Add recordTime duration)
                      (writeEvent event w) = (n', er, w')).
      { destruct rest as [|[c|g|t|o] rest'].
        - exists []. split; [cbn; lia|exact H].
        - eexists. split; [|exact H]. cbn in *; lia.
        - eexists. split; [|exact H]. cbn in *; lia.
        - exists rest'. split; [cbn in *; lia|exact H].
        - eexists. split; [|exact H]. cbn in *; lia. }
      destruct Hrec as (rest' & Hl & Hr).
      destruct (IH _ _ _ _ _ _ _ Hl Hr) as (evs & Hw & Hf).
      exists ([event] ++ evs). split.
      * eapply wrote_app; eassumption.
      * constructor; assumption.
    + destruct (Gap_Duration gap) as [duration|er1].
      2:{ injection H as <- <- <-. exists []. split; [apply wrote_nil|constructor]. }
      eapply IH; [|exact H]; lia.
    + eapply IH; [|exact H]; lia.
    + eapply IH; [|exact H]; lia.
Qed.

Lemma writeTrackEvents_wrote (e : Encoder) (track : Track) (trackType : TrackType)
    (n : Z) (w : gostring) (n' : Z) (er : option error) (w' : gostring) :
  writeTrackEvents e track trackType n w = (n', er, w') ->
  exists evs,
    wrote w w' n n' evs /\ Forall (fun ev => evTrackType ev = trackType) evs.
Proof.
  unfold writeTrackEvents. intro H.
  eapply writeChildren_wrote; [|exact H]. apply Nat.le_refl.
Qed.

Lemma audioTrackType_audio (i : nat) : IsAudioTrack (audioTrackType i) = true.
Proof. destruct i as [|[|[|[|i]]]]; reflexivity. Qed.

Lemma writeAudioTracks_wrote (e : Encoder) (audioTracks : list Track) :
  forall (i : nat) (n : Z) (w : gostring) (n' : Z) (er : option error) (w' : gostring),
    writeAudioTracks e audioTracks i n w = (n', er, w') ->
    exists evs,
      wrote w w' n n' evs
      /\ Forall (fun ev => IsAudioTrack (evTrackType ev) = true) evs.
Proof.
  induction audioTracks as [|track rest IH]; intros i n w n' er w' H;
    cbn [writeAudioTracks] in H.
  - injection H as <- <- <-. exists []. split; [apply wrote_nil|constructor].
  - destruct (writeTrackEvents e track (audioTrackType i) n w) as [[n1 er1] w1] eqn:E.
    apply writeTrackEvents_wrote in E as (evs1 & Hw1 & Hf1).
    assert (Hf1' : Forall (fun ev => IsAudioTrack (evTrackType ev) = true) evs1).
    { eapply Forall_impl; [|exact Hf1]. intros ev ->. apply audioTrackType_audio. }
    destruct er1 as [er1|].
    + injection H as <- <- <-. exists evs1. split; assumption.
    + apply IH in H as (evs2 & Hw2 & Hf2). exists (evs1 ++ evs2). split.
      * eapply wrote_app; eassumption.
      * apply Forall_app; split; assumption.
Qed.



End EventNumbers.


(** ** Trimming and splitting *)

Lemma TrimLeftSpace_length (s : gostring) :
  (List.length (TrimLeftSpace s) <= List.length s)%nat.
Proof.
  induction s as [|c s IH]; cbn [TrimLeftSpace List.length]; [lia|].
  destruct (unicode_IsSpace c); cbn [List.length]; lia.
Qed.

Lemma TrimLeftSpace_head (s : gostring) :
  TrimLeftSpace s = [] \/
  exists c t, TrimLeftSpace s = c :: t /\ unicode_IsSpace c = false.
Proof.
  induction s as [|c s IH]; cbn [TrimLeftSpace]; [now left|].
  destruct (unicode_IsSpace c) eqn:E; [exact IH|].
  right. exists c, s. now split.
Qed.

Lemma TrimLeftSpace_fixed_head (c : rune) (s : gostring) :
  TrimLeftSpace (c :: s) = c :: s -> unicode_IsSpace c = false.
Proof.
  cbn [TrimLeftSpace]. destruct (unicode_IsSpace c); [|reflexivity].
  intro H. pose proof (TrimLeftSpace_length s) as L. rewrite H in L.
  cbn [List.length] in L. lia.
Qed.

Lemma TrimLeftSpace_keeps_last (l : gostring) (c : rune) :
  unicode_IsSpace c = false -> exists l', TrimLeftSpace (l ++ [c]) = l' ++ [c].
Proof.
  intro Hc. induction l as [|x l IH]; cbn [app TrimLeftSpace].
  - rewrite Hc. now exists [].
  - destruct (unicode_IsSpace x); [exact IH|]. now exists (x :: l).
Qed.

Lemma TrimLeftSpace_Forall (P : rune -> Prop) (s : gostring) :
  Forall P s -> Forall P (TrimLeftSpace s).
Proof.
  induction 1 as [|c s Hc Hs IH]; cbn [TrimLeftSpace]; [constructor|].
  destruct (unicode_IsSpace c); [exact IH|now constructor].
Qed.

Lemma TrimSpace_Forall (P : rune -> Prop) (s : gostring) :
  Forall P s -> Forall P (TrimSpace s).
Proof.
  intro H. unfold TrimSpace.
  apply Forall_rev, TrimLeftSpace_Forall, Forall_rev, TrimLeftSpace_Forall, H.
Qed.

(** A trimmed text is empty or starts with a rune that is not a space and
    ends with one. *)
Lemma TrimSpace_head (s : gostring) :
  TrimSpace s = [] \/
  exists c t, TrimSpace s = c :: t /\ unicode_IsSpace c = false.
Proof.
  unfold TrimSpace.
  destruct (TrimLeftSpace_head s) as [->|(c & t & -> & Hc)]; [now left|].
  right. cbn [rev].
  destruct (TrimLeftSpace_keeps_last (rev t) c Hc) as (l' & ->).
  rewrite rev_app_distr. cbn [rev app]. now exists c, (rev l').
Qed.

Lemma TrimSpace_fixed_iff (s : gostring) :
  TrimSpace s = s <-> TrimLeftSpace s = s /\ TrimLeftSpace (rev s) = rev s.
Proof.
  split.
  - intro H. assert (H1 : TrimLeftSpace s = s).
    { destruct s as [|c t]; [reflexivity|].
      destruct (TrimSpace_head (c :: t)) as [E|(c' & t' & E & Hc)];
        rewrite H in E; [discriminate|].
      injection E as <- <-. cbn [TrimLeftSpace]. now rewrite Hc. }
    split; [exact H1|].
    unfold TrimSpace in H. rewrite H1 in H.
    rewrite <- H at 2. now rewrite rev_involutive.
  - intros [H1 H2]. unfold TrimSpace. now rewrite H1, H2, rev_involutive.
Qed.

Lemma TrimSpace_idempotent (s : gostring) : TrimSpace (TrimSpace s) = TrimSpace s.
Proof.
  apply TrimSpace_fixed_iff. unfold TrimSpace.
  set (u := TrimLeftSpace s). split.
  - destruct (TrimLeftSpace_head s) as [E|(c & t & E & Hc)]; fold u in E; rewrite E.
    + reflexivity.
    + cbn [rev]. destruct (TrimLeftSpace_keeps_last (rev t) c Hc) as (l' & ->).
      rewrite rev_app_distr. cbn [rev app TrimLeftSpace]. now rewrite Hc.
  - rewrite rev_involutive.
    destruct (TrimLeftSpace_head (rev u)) as [E|(c & t & E & Hc)]; rewrite E.
    + reflexivity.
    + cbn [TrimLeftSpace]. now rewrite Hc.
Qed.



Lemma TrimSpace_starts (c : rune) (s : gostring) :
  unicode_IsSpace c = false -> exists t, TrimSpace (c :: s) = c :: t.
Proof.
  intro Hc. unfold TrimSpace. cbn [TrimLeftSpace]. rewrite Hc. cbn [rev].
  destruct (TrimLeftSpace_keeps_last (rev s) c Hc) as (l' & ->).
  rewrite rev_app_distr. cbn [rev app]. now exists (rev l').
Qed.

Lemma HasPrefix_app (s prefix : gostring) :
  HasPrefix s prefix = true <-> exists rest, s = prefix ++ rest.
Proof.
  revert s; induction prefix as [|p prefix IH]; intro s; cbn [HasPrefix].
  - split; [intros _; now exists s|intros _; now destruct s].
  - destruct s as [|c s]; cbn [HasPrefix].
    + split; [discriminate|]. intros (rest & H). discriminate.
    + rewrite andb_true_iff, rune_eqb_eq, IH. split.
      * intros [-> (rest & ->)]. now exists rest.
      * intros (rest & H). cbn [app] in H. injection H as -> ->. split; [reflexivity|].
        now exists rest.
Qed.

Lemma HasSuffix_app (s suffix : gostring) :
  HasSuffix s suffix = true <-> exists front, s = front ++ suffix.
Proof.
  unfold HasSuffix. rewrite HasPrefix_app. split.
  - intros (rest & H). exists (rev rest).
    apply (f_equal (@rev rune)) in H. rewrite rev_involutive in H.
    now rewrite H, rev_app_distr, rev_involutive.
  - intros (front & ->). exists (rev front). now rewrite rev_app_distr.
Qed.

Definition noLineFeed (s : gostring) : Prop := Forall (fun c : rune => c <> 10%N) s.


Lemma splitLines_noLineFeed (s : gostring) : Forall noLineFeed (splitLines s).
Proof.
  induction s as [|c s IH]; cbn [splitLines]; [constructor|].
  destruct (rune_eqb c 10%N) eqn:E.
  - constructor; [constructor|exact IH].
  - assert (Hc : c <> 10%N).
    { intro H. apply rune_eqb_eq in H. congruence. }
    destruct (splitLines s) as [|l ls].
    + repeat constructor. exact Hc.
    + inversion IH as [|? ? Hl Hls]; subst. constructor; [|exact Hls].
      constructor; assumption.
Qed.

Lemma dropCR_noLineFeed (l : gostring) : noLineFeed l -> noLineFeed (dropCR l).
Proof.
  intro H. unfold dropCR. destruct (rev l) as [|c l'] eqn:E; [exact H|].
  destruct (rune_eqb c 13%N); [|exact H].
  apply Forall_rev. apply Forall_rev in H. rewrite E in H. now inversion H.
Qed.

Lemma ScanLines_noLineFeed (text : gostring) : Forall noLineFeed (ScanLines text).
Proof.
  unfold ScanLines. apply Forall_map.
  eapply Forall_impl; [|apply splitLines_noLineFeed].
  intros l. apply dropCR_noLineFeed.
Qed.


(** ** The matcher on the lines the encoder writes *)

(** The matcher stops a run of [p] at [rest]. *)
Definition stopsAt (p : rune -> bool) (rest : gostring) : Prop :=
  match rest with
  | [] => True
  | y :: _ => p y = false
  end.

Lemma starLoop_run (p : rune -> bool) (k : gostring -> nat -> gostring -> option caps)
    (xs rest : gostring) (r : caps) :
  forall (m : gostring) (pos : nat),
    forallb p xs = true ->
    stopsAt p rest ->
    k (m ++ xs) (pos + List.length xs)%nat rest = Some r ->
    starLoop p k m pos (xs ++ rest) = Some r.
Proof.
  induction xs as [|x xs IH]; intros m pos Hp Hstop Hk.
  - rewrite app_nil_r, Nat.add_0_r in Hk. cbn [app].
    destruct rest as [|y rest']; cbn [starLoop]; [exact Hk|].
    cbn [stopsAt] in Hstop. now rewrite Hstop.
  - cbn [forallb] in Hp. apply andb_true_iff in Hp as [Hx Hp].
    cbn [app starLoop]. rewrite Hx.
    rewrite (IH (m ++ [x]) (S pos) Hp Hstop); [reflexivity|].
    rewrite <- app_assoc. cbn [app List.length] in *.
    now rewrite Nat.add_succ_r in Hk.
Qed.

Lemma rmatch_star (p : rune -> bool) (xs rest : gostring) (pos : nat) (c : caps)
    (k : cont) (r : caps) :
  forallb p xs = true ->
  stopsAt p rest ->
  k xs (pos + List.length xs)%nat rest c = Some r ->
  rmatch (Star p) pos (xs ++ rest) c k = Some r.
Proof.
  intros Hp Hstop Hk. cbn [rmatch]. now apply starLoop_run.
Qed.

Lemma rmatch_plus (p : rune -> bool) (xs rest : gostring) (pos : nat) (c : caps)
    (k : cont) (r : caps) :
  xs <> [] ->
  forallb p xs = true ->
  stopsAt p rest ->
  k xs (pos + List.length xs)%nat rest c = Some r ->
  rmatch (Plus p) pos (xs ++ rest) c k = Some r.
Proof.
  intros Hne Hp Hstop Hk. destruct xs as [|x xs]; [contradiction|].
  cbn [forallb] in Hp. apply andb_true_iff in Hp as [Hx Hp].
  unfold Plus. cbn [rmatch app]. rewrite Hx.
  apply starLoop_run; [exact Hp|exact Hstop|].
  cbn [app List.length] in *. now rewrite Nat.add_succ_r in Hk.
Qed.

Lemma rmatch_lit (l rest : gostring) (c : caps) (r : caps) :
  forall (pos : nat) (k : cont),
    k l (pos + List.length l)%nat rest c = Some r ->
    rmatch (Lit l) pos (l ++ rest) c k = Some r.
Proof.
  induction l as [|x l IH]; intros pos k Hk.
  - cbn [Lit fold_right rmatch app]. now rewrite Nat.add_0_r in Hk.
  - change (Lit (x :: l)) with (Cat (Lit1 x) (Lit l)).
    cbn [rmatch app Lit1]. unfold rune_eqb at 1. rewrite N.eqb_refl.
    apply IH. cbn [app List.length] in *. now rewrite Nat.add_succ_r in Hk.
Qed.

Lemma rmatch_cat (a b : regex) (pos : nat) (s : gostring) (c : caps) (k : cont) :
  rmatch (Cat a b) pos s c k =
    rmatch a pos s c
      (fun m1 pos1 s1 c1 =>
         rmatch b pos1 s1 c1 (fun m2 pos2 s2 c2 => k (m1 ++ m2) pos2 s2 c2)).
Proof. reflexivity. Qed.

Lemma rmatch_group (i : nat) (a : regex) (pos : nat) (s : gostring) (c : caps)
    (k : cont) :
  rmatch (Group i a) pos s c k =
    rmatch a pos s c (fun m pos' s' c' => k m pos' s' ((i, m) :: c')).
Proof. reflexivity. Qed.

Lemma rmatch_alt_left (a b : regex) (pos : nat) (s : gostring) (c : caps) (k : cont)
    (r : caps) :
  rmatch a pos s c k = Some r -> rmatch (Alt a b) pos s c k = Some r.
Proof. intro H. cbn [rmatch]. now rewrite H. Qed.

Lemma searchFrom_first (r : regex) (pos : nat) (s : gostring) (m : caps) :
  rmatch r pos s [] (fun _ _ _ c => Some c) = Some m -> searchFrom r pos s = Some m.
Proof. intro H. destruct s; cbn [searchFrom]; now rewrite H. Qed.

(** A pattern that starts with [^] matches at offset 0 or not at all. *)
Lemma searchFrom_anchored_later (r : regex) (s : gostring) :
  forall pos, searchFrom (Cat Bol r) (S pos) s = None.
Proof.
  induction s as [|x s IH]; intro pos; cbn [searchFrom rmatch Nat.eqb orElse].
  - reflexivity.
  - apply IH.
Qed.

Lemma FindStringSubmatch_anchored (r : regex) (s : gostring) :
  FindStringSubmatch (Cat Bol r) s =
    rmatch r 0 s [] (fun _ _ _ c => Some c).
Proof.
  unfold FindStringSubmatch.
  assert (E : rmatch (Cat Bol r) 0 s [] (fun _ _ _ c => Some c)
              = rmatch r 0 s [] (fun _ _ _ c => Some c)) by reflexivity.
  destruct s as [|x s]; cbn [searchFrom]; rewrite E.
  - now destruct (rmatch r 0 [] [] _).
  - rewrite searchFrom_anchored_later. now destruct (rmatch r 0 (x :: s) [] _).
Qed.

Lemma cls_d_not_space (c : rune) : cls_d c = true -> cls_s c = false.
Proof.
  unfold cls_d. intro H. apply in_range_iff in H. unfold r0, r9 in H.
  unfold cls_s. rewrite !orb_false_iff, !N.eqb_neq. lia.
Qed.

(** The shape [\d{2}:\d{2}:\d{2}[;:]\d{2}] of a timecode. *)
Definition timecodeShape (s : gostring) : bool :=
  match s with
  | [h1; h2; x1; m1; m2; x2; s1; s2; x3; f1; f2] =>
      cls_d h1 && cls_d h2 && rune_eqb 58%N x1 && cls_d m1 && cls_d m2
      && rune_eqb 58%N x2 && cls_d s1 && cls_d s2 && cls_of (go ";:") x3
      && cls_d f1 && cls_d f2
  | _ => false
  end.




Lemma stopsAt_spaces (pad : nat) (rest : gostring) :
  stopsAt cls_S (repeat space pad ++ space :: rest).
Proof. destruct pad; reflexivity. Qed.

Lemma forallb_spaces (pad : nat) : forallb cls_s (repeat space pad ++ [space]) = true.
Proof. induction pad as [|pad IH]; [reflexivity|exact IH]. Qed.



(** ** What a successful match says about the submatches *)

(** [matches r m c c']: the pattern [r] can consume the runes [m], taking
    the submatches from [c] to [c']. *)
Inductive matches : regex -> gostring -> caps -> caps -> Prop :=
| M_Eps c : matches Eps [] c c
| M_Class p x c : p x = true -> matches (Class p) [x] c c
| M_Cat a b m1 m2 c c1 c2 :
    matches a m1 c c1 -> matches b m2 c1 c2 -> matches (Cat a b) (m1 ++ m2) c c2
| M_AltL a b m c c' : matches a m c c' -> matches (Alt a b) m c c'
| M_AltR a b m c c' : matches b m c c' -> matches (Alt a b) m c c'
| M_Star p m c : forallb p m = true -> matches (Star p) m c c
| M_Group i a m c c' : matches a m c c' -> matches (Group i a) m c ((i, m) :: c')
| M_Bol c : matches Bol [] c c
| M_Eol c : matches Eol [] c c.

Lemma starLoop_sound (p : rune -> bool) (k : gostring -> nat -> gostring -> option caps)
    (s : gostring) (res : caps) :
  forall (m : gostring) (pos : nat),
    starLoop p k m pos s = Some res ->
    exists xs pos' s',
      forallb p xs = true /\ s = xs ++ s' /\ k (m ++ xs) pos' s' = Some res.
Proof.
  induction s as [|x s IH]; intros m pos H; cbn [starLoop] in H.
  - exists [], pos, []. repeat split. now rewrite app_nil_r.
  - destruct (p x) eqn:Hx.
    + destruct (starLoop p k (m ++ [x]) (S pos) s) as [res'|] eqn:E; cbn [orElse] in H.
      * injection H as <-. apply IH in E as (xs & pos' & s' & Hp & -> & Hk).
        exists (x :: xs), pos', s'. rewrite <- app_assoc in Hk.
        cbn [forallb]. rewrite Hx, Hp. repeat split. exact Hk.
      * exists [], pos, (x :: s). repeat split. now rewrite app_nil_r.
    + exists [], pos, (x :: s). repeat split. now rewrite app_nil_r.
Qed.

Lemma rmatch_sound (r : regex) :
  forall (pos : nat) (s : gostring) (c : caps) (k : cont) (res : caps),
    rmatch r pos s c k = Some res ->
    exists m pos' s' c',
      matches r m c c' /\ s = m ++ s' /\ k m pos' s' c' = Some res.
Proof.
  induction r as [|p|a IHa b IHb|a IHa b IHb|p|i a IHa| |];
    intros pos s c k res H; cbn [rmatch] in H.
  - exists [], pos, s, c. repeat split; [constructor|exact H].
  - destruct s as [|x s]; [discriminate|]. destruct (p x) eqn:Hx; [|discriminate].
    exists [x], (S pos), s, c. repeat split; [now constructor|exact H].
  - apply IHa in H as (m1 & pos1 & s1 & c1 & Ma & -> & H).
    apply IHb in H as (m2 & pos2 & s2 & c2 & Mb & -> & H).
    exists (m1 ++ m2), pos2, s2, c2. rewrite <- app_assoc.
    repeat split; [econstructor; eassumption|exact H].
  - destruct (rmatch a pos s c k) as [res'|] eqn:E; cbn [orElse] in H.
    + injection H as <-. apply IHa in E as (m & pos' & s' & c' & Ma & -> & H).
      exists m, pos', s', c'. repeat split; [now apply M_AltL|exact H].
    + apply IHb in H as (m & pos' & s' & c' & Mb & -> & H).
      exists m, pos', s', c'. repeat split; [now apply M_AltR|exact H].
  - apply starLoop_sound in H as (xs & pos' & s' & Hp & -> & H).
    exists xs, pos', s', c. repeat split; [now constructor|exact H].
  - apply IHa in H as (m & pos' & s' & c' & Ma & -> & H).
    exists m, pos', s', ((i, m) :: c'). repeat split; [now constructor|exact H].
  - destruct (Nat.eqb pos 0); [|discriminate].
    exists [], pos, s, c. repeat split; [constructor|exact H].
  - destruct s; [|discriminate].
    exists [], pos, [], c. repeat split; [constructor|exact H].
Qed.

(** The groups of a pattern. *)
Fixpoint groupsOf (r : regex) : list nat :=
  match r with
  | Cat a b | Alt a b => groupsOf a ++ groupsOf b
  | Group i a => i :: groupsOf a
  | _ => []
  end.

Lemma matches_extends (r : regex) (m : gostring) (c c' : caps) :
  matches r m c c' ->
  exists new, c' = new ++ c /\ Forall (fun e => In (fst e) (groupsOf r)) new.
Proof.
  induction 1 as [c|p x c Hx|a b m1 m2 c c1 c2 _ IHa _ IHb|a b m c c' _ IH
                 |a b m c c' _ IH|p m c Hp|i a m c c' _ IH|c|c];
    cbn [groupsOf]; try (exists []; split; [reflexivity|constructor]).
  - destruct IHa as (n1 & -> & F1). destruct IHb as (n2 & -> & F2).
    exists (n2 ++ n1). rewrite app_assoc. split; [reflexivity|].
    apply Forall_app; split; (eapply Forall_impl; [|eassumption]);
      intros e He; apply in_or_app; tauto.
  - destruct IH as (n & -> & F). exists n. split; [reflexivity|].
    eapply Forall_impl; [|exact F]. intros e He. apply in_or_app; tauto.
  - destruct IH as (n & -> & F). exists n. split; [reflexivity|].
    eapply Forall_impl; [|exact F]. intros e He. apply in_or_app; tauto.
  - destruct IH as (n & -> & F). exists ((i, m) :: n). split; [reflexivity|].
    constructor; [now left|].
    eapply Forall_impl; [|exact F]. intros e He. now right.
Qed.

Lemma submatch_skip (new c : caps) (i : nat) :
  Forall (fun e => fst e <> i) new -> submatch (new ++ c) i = submatch c i.
Proof.
  induction 1 as [|[j s] new Hj _ IH]; cbn [app submatch]; [reflexivity|].
  cbn [fst] in Hj. destruct (Nat.eqb i j) eqn:E; [|exact IH].
  apply Nat.eqb_eq in E. congruence.
Qed.

Lemma matches_plus (p : rune -> bool) (m : gostring) (c c' : caps) :
  matches (Plus p) m c c' -> c' = c /\ m <> [] /\ forallb p m = true.
Proof.
  unfold Plus. intro H. inversion H as [| |? ? m1 m2 ? c1 ? Ha Hb| | | | | |]; subst.
  inversion Ha; subst. inversion Hb; subst.
  split; [reflexivity|]. split; [discriminate|].
  cbn [app forallb]. apply andb_true_iff. now split.
Qed.

(** The reel name of a matched event header is a non-empty run of runes
    that are not [\s]. *)
Lemma eventLine_reel (line : gostring) (m : caps) :
  FindStringSubmatch eventLineRegex line = Some m ->
  submatch m 2 <> [] /\ forallb cls_S (submatch m 2) = true.
Proof.
  unfold eventLineRegex, Seq. cbn [fold_right]. rewrite FindStringSubmatch_anchored.
  intro H.
  apply rmatch_sound in H as (m0 & pos' & s' & c' & M & _ & H). injection H as <-.
  inversion M as [| |? ? ? ? ? c1 ? M1 M'| | | | | |]; subst; clear M.
  inversion M1; subst; clear M1.
  inversion M' as [| |? ? ? ? ? c2 ? M2 M''| | | | | |]; subst; clear M'.
  inversion M2 as [| | | | | |? ? ? ? ? M2'| |]; subst; clear M2.
  apply matches_plus in M2' as (-> & _ & _).
  inversion M'' as [| |? ? ? ? ? c3 ? M3 M4| | | | | |]; subst; clear M''.
  apply matches_plus in M3 as (-> & _ & _).
  inversion M4 as [| |? ? ? ? ? c4 ? M5 M6| | | | | |]; subst; clear M4.
  inversion M5 as [| | | | | |? ? reel ? ? M5'| |]; subst; clear M5.
  apply matches_plus in M5' as (-> & Hne & Hp).
  apply matches_extends in M6 as (new & -> & F).
  rewrite submatch_skip.
  - cbn [submatch Nat.eqb]. now split.
  - eapply Forall_impl; [|exact F]. intros e He Heq.
    cbn in He. intuition congruence.
Qed.

(** ** What every parsed event satisfies *)

(** The reel name is a non-empty run of runes that are not [\s]; the clip
    name has no line feed and is its own trimming. *)
Definition wellFormed (ev : EDLEvent) : Prop :=
  ReelName ev <> []
  /\ forallb cls_S (ReelName ev) = true
  /\ noLineFeed (ClipName ev)
  /\ TrimSpace (ClipName ev) = ClipName ev.

Lemma noLineFeed_skipn (n : nat) (s : gostring) : noLineFeed s -> noLineFeed (skipn n s).
Proof.
  revert s; induction n as [|n IH]; intros s H; [exact H|].
  destruct s as [|c s]; [exact H|]. cbn [skipn]. apply IH. now inversion H.
Qed.

Lemma noLineFeed_TrimPrefix (s prefix : gostring) :
  noLineFeed s -> noLineFeed (TrimPrefix s prefix).
Proof.
  intro H. unfold TrimPrefix. destruct (HasPrefix s prefix); [|exact H].
  now apply noLineFeed_skipn.
Qed.

Lemma wellFormed_newEvent (line : gostring) (m : caps) :
  FindStringSubmatch eventLineRegex line = Some m -> wellFormed (newEvent m).
Proof.
  intro H. apply eventLine_reel in H as [H1 H2].
  unfold wellFormed, newEvent. cbn [ReelName ClipName].
  repeat split; try assumption. constructor.
Qed.

Lemma wellFormed_set_timecodes (ev : EDLEvent) (a b c d : gostring) :
  wellFormed ev -> wellFormed (set_timecodes ev a b c d).
Proof. intro H. exact H. Qed.

Lemma wellFormed_set_ClipName (ev : EDLEvent) (s : gostring) :
  wellFormed ev -> noLineFeed s -> wellFormed (set_ClipName ev (TrimSpace s)).
Proof.
  intros (H1 & H2 & _ & _) Hs. unfold wellFormed. cbn [ReelName ClipName set_ClipName].
  repeat split; try assumption.
  - now apply TrimSpace_Forall.
  - apply TrimSpace_idempotent.
Qed.

Lemma wellFormed_applyCommentLine (line : gostring) (ev : EDLEvent) :
  noLineFeed line -> wellFormed ev -> wellFormed (applyCommentLine (TrimSpace line) ev).
Proof.
  intros Hl Hev.
  assert (Ht : noLineFeed (TrimSpace line)) by now apply TrimSpace_Forall.
  unfold applyCommentLine.
  repeat match goal with
         | |- wellFormed (if ?b then _ else _) => destruct b
         | |- wellFormed (match ?x with Some _ => _ | None => _ end) => destruct x
         end;
    try exact Hev;
    apply wellFormed_set_ClipName; try exact Hev; now apply noLineFeed_TrimPrefix.
Qed.

Definition wellFormedOpt (cur : option EDLEvent) : Prop :=
  match cur with
  | Some ev => wellFormed ev
  | None => True
  end.

Lemma wellFormed_applySpeedLine (line : gostring) (cur : option EDLEvent) :
  wellFormedOpt cur -> wellFormedOpt (applySpeedLine line cur).
Proof.
  destruct cur as [ev|]; [|trivial]. cbn [applySpeedLine wellFormedOpt].
  intro H. destruct (FindStringSubmatch speedEffectRegex line); exact H.
Qed.

Lemma wellFormed_flush (evs : list EDLEvent) (cur : option EDLEvent) :
  Forall wellFormed evs -> wellFormedOpt cur -> Forall wellFormed (flush evs cur).
Proof.
  intros He Hc. destruct cur as [ev|]; cbn [flush]; [|exact He].
  apply Forall_app. split; [exact He|]. now constructor.
Qed.

Lemma parseLines_wellFormed (n : nat) :
  forall (lines : list gostring) (st st' : pstate),
    (List.length lines <= n)%nat ->
    Forall noLineFeed lines ->
    Forall wellFormed (events st) -> wellFormedOpt (currentEvent st) ->
    parseLines lines st = Ok st' ->
    Forall wellFormed (events st') /\ wellFormedOpt (currentEvent st').
Proof.
  induction n as [|n IH]; intros lines st st' Hlen Hl He Hc H.
  - destruct lines; [|cbn in Hlen; lia]. cbn in H. injection H as <-. now split.
  - destruct lines as [|line rest].
    { cbn in H. injection H as <-. now split. }
    cbn [List.length] in Hlen. inversion Hl as [|? ? Hline Hrest]; subst.
    cbn [parseLines] in H.
    destruct (gostring_eqb (TrimSpace line) (go "")).
    { refine (IH _ _ _ _ _ _ _ H); cbn [events currentEvent];
        [lia|exact Hrest|exact He|exact Hc]. }
    destruct (HasPrefix (TrimSpace line) (go "TITLE:")).
    { refine (IH _ _ _ _ _ _ _ H); cbn [events currentEvent];
        [lia|exact Hrest|exact He|exact Hc]. }
    destruct (HasPrefix (TrimSpace line) (go "FCM:")).
    { refine (IH _ _ _ _ _ _ _ H); cbn [events currentEvent];
        [lia|exact Hrest|exact He|exact Hc]. }
    destruct (FindStringSubmatch eventLineRegex line) as [m|] eqn:Em.
    + pose proof (wellFormed_newEvent _ _ Em) as Hnew.
      pose proof (wellFormed_flush _ _ He Hc) as Hflush.
      destruct rest as [|tcLine rest'].
      * injection H as <-. cbn [events currentEvent]. split; assumption.
      * destruct (FindStringSubmatch timecodeLineRegex tcLine); [|discriminate].
        inversion Hrest; subst. cbn [List.length] in Hlen.
        refine (IH _ _ _ _ _ _ _ H); cbn [events currentEvent wellFormedOpt];
          [lia|assumption|assumption|assumption].
    + destruct (HasPrefix (TrimSpace line) (go "M2")).
      * refine (IH _ _ _ _ _ _ _ H); cbn [events currentEvent];
          [lia|exact Hrest|exact He|now apply wellFormed_applySpeedLine].
      * refine (IH _ _ _ _ _ _ _ H); cbn [events currentEvent];
          [lia|exact Hrest|exact He|].
        destruct (currentEvent st) as [ev|]; [|trivial].
        cbn [wellFormedOpt] in *. now apply wellFormed_applyCommentLine.
Qed.

Lemma parseEvents_wellFormed (text : gostring) (evs : list EDLEvent) :
  parseEvents (ScanLines text) = Ok evs -> Forall wellFormed evs.
Proof.
  unfold parseEvents.
  destruct (parseLines (ScanLines text) initialState) as [st|] eqn:E; cbn [bind];
    [|discriminate].
  intro H; injection H as <-.
  destruct (parseLines_wellFormed _ _ initialState _ (Nat.le_refl _)
              (ScanLines_noLineFeed text) (Forall_nil _) I E) as [He Hc].
  now apply wellFormed_flush.
Qed.

Lemma cls_S_not_space (s : gostring) :
  forallb cls_S s = true -> Forall (fun c : rune => c <> 10%N /\ c <> space) s.
Proof.
  induction s as [|c s IH]; cbn [forallb]; [constructor|].
  rewrite andb_true_iff. intros [Hc Hs]. constructor; [|now apply IH].
  unfold cls_S, cls_s in Hc. rewrite negb_true_iff, !orb_false_iff, !N.eqb_neq in Hc.
  unfold space. tauto.
Qed.

(** The name the builder gives the clip of a parsed event is not empty and
    has no line feed. *)
Lemma clipNameOf_wellFormed (ev : EDLEvent) :
  wellFormed ev -> clipNameOf ev <> [] /\ noLineFeed (clipNameOf ev).
Proof.
  intros (Hr1 & Hr2 & Hc1 & Hc2). unfold clipNameOf.
  set (cn := if gostring_eqb (ClipName ev) (go "") then ReelName ev else ClipName ev).
  assert (Hcn : cn <> [] /\ noLineFeed cn /\ forall t, cn <> space :: t).
  { subst cn. destruct (gostring_eqb (ClipName ev) (go "")) eqn:E.
    - apply cls_S_not_space in Hr2. split; [exact Hr1|]. split.
      + eapply Forall_impl; [|exact Hr2]. now intros c [H _].
      + intros t Ht. rewrite Ht in Hr2. inversion Hr2 as [|? ? [_ H] _]. now apply H.
    - apply gostring_eqb_neq in E. split; [exact E|]. split; [exact Hc1|].
      intros t Ht. apply TrimSpace_fixed_iff in Hc2 as [Hc2 _]. rewrite Ht in Hc2.
      apply TrimLeftSpace_fixed_head in Hc2. discriminate. }
  destruct Hcn as (Hne & Hlf & Hsp).
  destruct (FreezeFrame ev && HasSuffix cn (go " FF")) eqn:E; [|now split].
  apply andb_true_iff in E as [_ E]. apply HasSuffix_app in E as (front & E).
  rewrite E. rewrite length_app. change (List.length (go " FF")) with 3%nat.
  replace (List.length front + 3 - 3)%nat with (List.length front + 0)%nat by lia.
  rewrite firstn_app_2. cbn [firstn]. rewrite app_nil_r. split.
  - intros ->. apply (Hsp (go "FF")). exact E.
  - rewrite E in Hlf. apply Forall_app in Hlf. tauto.
Qed.

(** ** A text with one event: its timeline and what [Encode] writes for it *)

Section RoundTrip.
Context {OT : Opentime} {CT : CaseTable}.
Variable drate : Q.
Variable e : Encoder.

Lemma transitionOf_cases (ev : EDLEvent) :
  transitionOf drate ev = [] \/ exists t, transitionOf drate ev = [CTransition t].
Proof.
  unfold transitionOf.
  destruct ((gostring_eqb (evEditType ev) EditTypeDissolve
             || gostring_eqb (evEditType ev) EditTypeWipe)
            && (0 <? TransitionDuration ev)); [right; eexists; reflexivity|now left].
Qed.

Definition kindOf (trackType : TrackType) : gostring :=
  if IsAudioTrack trackType then TrackKindAudio else TrackKindVideo.

(** The timeline of a text with one event, when the zero value of a
    rational time is not a valid time (so that no gap comes first). *)
Lemma eventsToTimeline_single (ev : EDLEvent) (r : result Timeline) :
  eventsToTimeline drate [ev] r <->
  r = eventsToTimelineIn drate [(evTrackType ev, [ev])].
Proof.
  unfold eventsToTimeline. cbn [trackMapOf fold_left mapAppend]. split.
  - intros (order & P & ->). apply Permutation_sym, Permutation_length_1_inv in P.
    now subst.
  - intros ->. eexists. split; [apply Permutation_refl|reflexivity].
Qed.

Lemma eventsToTimelineIn_single (ev : EDLEvent) (t : Timeline) :
  IsValidTime zeroRationalTime = false ->
  eventsToTimelineIn drate [(evTrackType ev, [ev])] = Ok t <->
  exists si so ri ro,
    FromTimecode (SourceIn ev) drate = Some si
    /\ FromTimecode (SourceOut ev) drate = Some so
    /\ FromTimecode (RecordIn ev) drate = Some ri
    /\ FromTimecode (RecordOut ev) drate = Some ro
    /\ t = NewTimeline (go "")
             [NewTrack (evTrackType ev) (kindOf (evTrackType ev))
                (transitionOf drate ev ++ [CClip (clipOf drate ev si so)])].
Proof.
  intro Hz.
  unfold eventsToTimelineIn, createTrack. cbn [buildTracks].
  unfold createTrack. cbn [trackLoop]. unfold trackStep, fromTimecode, gapBefore.
  rewrite Hz. fold (kindOf (evTrackType ev)).
  destruct (FromTimecode (SourceIn ev) drate) as [si|]; cbn [bind].
  2:{ split; [discriminate|]. intros (? & ? & ? & ? & H & _). discriminate. }
  destruct (FromTimecode (SourceOut ev) drate) as [so|]; cbn [bind].
  2:{ split; [discriminate|]. intros (? & ? & ? & ? & _ & H & _). discriminate. }
  destruct (FromTimecode (RecordIn ev) drate) as [ri|]; cbn [bind].
  2:{ split; [discriminate|]. intros (? & ? & ? & ? & _ & _ & H & _). discriminate. }
  destruct (FromTimecode (RecordOut ev) drate) as [ro|]; cbn [bind].
  2:{ split; [discriminate|]. intros (? & ? & ? & ? & _ & _ & _ & H & _). discriminate. }
  cbn [app fst]. split.
  - intro H; injection H as <-. exists si, so, ri, ro. repeat split.
  - intros (si' & so' & ri' & ro' & H1 & H2 & H3 & H4 & ->).
    injection H1 as <-. injection H2 as <-. reflexivity.
Qed.

(** The track identifier the encoder writes for the only track of a
    decoded timeline. *)
Definition writtenTrackType (trackType : TrackType) : TrackType :=
  if IsAudioTrack trackType then TrackTypeAudio1 else TrackTypeVideo.

Lemma writeChildren_single (trackType : TrackType) (ev : EDLEvent)
    (si so : RationalTime) (w : gostring) :
  writeChildren e trackType (transitionOf drate ev ++ [CClip (clipOf drate ev si so)])
                1 (NewRationalTime 0 (encRate e)) w
  = (2, None,
     w ++ eventText
            (eventOfClip e trackType 1 (NewRationalTime 0 (encRate e))
               (clipOf drate ev si so) (DurationFromStartEndTime si so)
               (NewTimeRange si (DurationFromStartEndTime si so)) [])).
Proof.
  destruct (transitionOf_cases ev) as [-> | (t & ->)]; reflexivity.
Qed.

Lemma Encode_single (ev : EDLEvent) (si so : RationalTime) :
  Encode e
    (Some (NewTimeline (go "")
             [NewTrack (evTrackType ev) (kindOf (evTrackType ev))
                (transitionOf drate ev ++ [CClip (clipOf drate ev si so)])])) []
  = (None,
     go "TITLE: Timeline" ++ newline ++ go "FCM: NON-DROP FRAME" ++ newline ++ newline
     ++ eventText
          (eventOfClip e (writtenTrackType (evTrackType ev)) 1
             (NewRationalTime 0 (encRate e))
             (clipOf drate ev si so) (DurationFromStartEndTime si so)
             (NewTimeRange si (DurationFromStartEndTime si so)) [])).
Proof.
  unfold Encode, VideoTracks, AudioTracks, kindOf, writtenTrackType.
  cbn [timelineTracks filter trackKind].
  destruct (IsAudioTrack (evTrackType ev));
    change (gostring_eqb TrackKindAudio TrackKindVideo) with false;
    change (gostring_eqb TrackKindVideo TrackKindAudio) with false;
    change (gostring_eqb TrackKindAudio TrackKindAudio) with true;
    change (gostring_eqb TrackKindVideo TrackKindVideo) with true;
    cbn [List.length Z.of_nat Z.ltb Z.compare writeAudioTracks audioTrackType];
    unfold writeTrackEvents; cbn [trackChildren];
    rewrite writeChildren_single; reflexivity.
Qed.

End RoundTrip.

(** ** Reading back what [writeEvent] wrote *)





Definition timecodeLine (a b c d : gostring) : gostring :=
  go "     " ++ a ++ go " " ++ b ++ go " " ++ c ++ go " " ++ d.


















(** ** Decode, encode, decode *)

Lemma forallb_firstn {A : Type} (f : A -> bool) (n : nat) (l : list A) :
  forallb f l = true -> forallb f (firstn n l) = true.
Proof.
  revert l; induction n as [|n IH]; intros [|x l]; cbn [firstn forallb]; try reflexivity.
  rewrite !andb_true_iff. intros [Hx Hl]. split; [exact Hx|now apply IH].
Qed.

Lemma sanitizeRune_cls_S (r : rune) : cls_S (sanitizeRune r) = true.
Proof.
  unfold sanitizeRune.
  destruct (in_range rA rZ r || in_range ra rz r || in_range r0 r9 r
            || rune_eqb r underscore)%bool eqn:E; [|reflexivity].
  rewrite !orb_true_iff in E.
  unfold cls_S, cls_s. rewrite negb_true_iff, !orb_false_iff, !N.eqb_neq.
  destruct E as [[[E|E]|E]|E].
  - apply (in_range_iff rA rZ) in E. unfold rA, rZ in E. lia.
  - apply (in_range_iff ra rz) in E. unfold ra, rz in E. lia.
  - apply (in_range_iff r0 r9) in E. unfold r0, r9 in E. lia.
  - apply (rune_eqb_eq r underscore) in E. subst r. unfold underscore. lia.
Qed.

(** A sanitized reel name is one token of the event header. *)
Lemma SanitizeReelName_token (name : gostring) (maxLength : Z) :
  SanitizeReelName name maxLength <> []
  /\ forallb cls_S (SanitizeReelName name maxLength) = true.
Proof.
  unfold SanitizeReelName.
  set (m := strings_Map sanitizeRune name).
  assert (Hm : forallb cls_S m = true).
  { subst m. unfold strings_Map. induction name as [|c s IH]; [reflexivity|].
    cbn [List.map forallb]. now rewrite sanitizeRune_cls_S, IH. }
  set (n2 := if (0 <? maxLength) && (maxLength <? len m)
             then firstn (Z.to_nat maxLength) m else m).
  assert (Hn : forallb cls_S n2 = true).
  { subst n2. destruct ((0 <? maxLength) && (maxLength <? len m));
      [now apply forallb_firstn|exact Hm]. }
  destruct (gostring_eqb n2 (go "")) eqn:E.
  - split; [discriminate|reflexivity].
  - split; [|exact Hn]. now apply gostring_eqb_neq in E.
Qed.

Section RoundTripOfOneClip.
Context {OT : Opentime} {CT : CaseTable}.
Variable drate : Q.
Variable e : Encoder.







End RoundTripOfOneClip.

Section RoundTripOnSample.
#[local] Existing Instance Sample.opentime.
#[local] Existing Instance Sample.caseTable.

Lemma Decode_freezeEDL : Decode 24 Inputs.freezeEDL (Ok Inputs.freezeFirst).
Proof.
  unfold Decode.
  replace (parseEvents (ScanLines Inputs.freezeEDL)) with (Ok [Inputs.freezeEvent])
    by (vm_compute; reflexivity).
  apply eventsToTimeline_single. reflexivity.
Qed.



End RoundTripOnSample.

(** * Further properties of the code *)

(** ** [SanitizeReelName]: what every result looks like *)

Lemma sanitizeRune_word (r : rune) : asciiWordChar (sanitizeRune r).
Proof.
  unfold sanitizeRune.
  destruct (in_range rA rZ r || in_range ra rz r || in_range r0 r9 r
            || rune_eqb r underscore)%bool eqn:E.
  - rewrite !orb_true_iff in E. unfold asciiWordChar. destruct E as [[[E|E]|E]|E].
    + left. now apply (in_range_iff rA rZ).
    + right; left. now apply (in_range_iff ra rz).
    + right; right; left. now apply (in_range_iff r0 r9).
    + right; right; right. now apply (rune_eqb_eq r underscore).
  - unfold asciiWordChar, underscore. right; right; right. reflexivity.
Qed.

Lemma Forall_firstn {A : Type} (P : A -> Prop) (n : nat) (l : list A) :
  Forall P l -> Forall P (firstn n l).
Proof.
  revert l; induction n as [|n IH]; intros l H; [constructor|].
  destruct l as [|x l]; [constructor|]. cbn [firstn].
  inversion H; subst. constructor; [assumption|now apply IH].
Qed.

Lemma mapped_word (name : gostring) : Forall asciiWordChar (strings_Map sanitizeRune name).
Proof.
  unfold strings_Map. induction name as [|c s IH]; cbn [List.map]; constructor;
    [apply sanitizeRune_word|exact IH].
Qed.

Lemma mapped_fixed (s : gostring) :
  Forall asciiWordChar s -> strings_Map sanitizeRune s = s.
Proof.
  unfold strings_Map. induction 1 as [|c s Hc _ IH]; cbn [List.map]; [reflexivity|].
  now rewrite sanitizeRune_keeps, IH.
Qed.

Lemma SanitizeReelName_empty (maxLength : Z) : SanitizeReelName [] maxLength = go "AX".
Proof.
  unfold SanitizeReelName. cbn [strings_Map List.map].
  destruct ((0 <? maxLength) && (maxLength <? len [])); [now rewrite firstn_nil|reflexivity].
Qed.

(** The result is a word. *)
Lemma sanitized_word (name : gostring) (maxLength : Z) :
  SanitizeReelName name maxLength <> []
  /\ Forall asciiWordChar (SanitizeReelName name maxLength).
Proof.
  destruct name as [|c s].
  - rewrite SanitizeReelName_empty. change (go "AX") with [65%N; 88%N].
    split; [discriminate|]. repeat constructor; unfold asciiWordChar; lia.
  - rewrite SanitizeReelName_nonempty_input by discriminate.
    pose proof (mapped_word (c :: s)) as Hm.
    destruct ((0 <? maxLength) && (maxLength <? len (strings_Map sanitizeRune (c :: s))))
      eqn:E.
    + split; [|now apply Forall_firstn].
      apply andb_true_iff in E as [E _]. apply Z.ltb_lt in E.
      destruct (Z.to_nat maxLength) eqn:En; [lia|]. discriminate.
    + split; [discriminate|exact Hm].
Qed.

(** The length of the result under a positive limit. *)
Lemma sanitized_length (name : gostring) (maxLength : Z) :
  0 < maxLength ->
  (name <> [] -> 1 <= len (SanitizeReelName name maxLength) <= maxLength)
  /\ (name = [] -> len (SanitizeReelName name maxLength) = 2).
Proof.
  intro Hpos. split.
  - intro Hne. rewrite SanitizeReelName_nonempty_input by exact Hne.
    set (m := strings_Map sanitizeRune name).
    assert (Hm : 1 <= len m).
    { subst m. unfold len, strings_Map. rewrite length_map.
      destruct name; [contradiction|cbn [List.length]; lia]. }
    replace (0 <? maxLength) with true by (symmetry; now apply Z.ltb_lt).
    cbn [andb]. destruct (maxLength <? len m) eqn:E.
    + apply Z.ltb_lt in E. unfold len in *. rewrite length_firstn. lia.
    + apply Z.ltb_ge in E. lia.
  - intros ->. now rewrite SanitizeReelName_empty.
Qed.

(** X1. Whatever the name and the length limit, the result of
    [SanitizeReelName] is not empty and holds only ASCII letters, digits
    and underscores. *)
Theorem SanitizeReelName_word_token (name : gostring) (maxLength : Z) :
  SanitizeReelName name maxLength <> []
  /\ Forall asciiWordChar (SanitizeReelName name maxLength).
Proof. apply sanitized_word. Qed.

(** X2. With a positive limit, the result for a name that is not empty
    has between 1 and [maxLength] characters; for the empty name it is
    "AX", two characters, whatever the limit (also when the limit is 1). *)
Theorem SanitizeReelName_length (name : gostring) (maxLength : Z) :
  0 < maxLength ->
  (name <> [] -> 1 <= len (SanitizeReelName name maxLength) <= maxLength)
  /\ (name = [] -> len (SanitizeReelName name maxLength) = 2).
Proof. apply sanitized_length. Qed.

Lemma SanitizeReelName_length_witness :
  (go "VeryLongClipName" <> [] ->
   1 <= len (SanitizeReelName (go "VeryLongClipName") 8) <= 8)
  /\ (go "VeryLongClipName" = [] -> len (SanitizeReelName (go "VeryLongClipName") 8) = 2).
Proof.
  apply (SanitizeReelName_length (go "VeryLongClipName") 8). lia.
Defined.

(** X3. Sanitizing twice gives what sanitizing once gives, except for the
    empty name under the limit 1 (there the first result "AX" is longer
    than the limit, and the second pass cuts it). *)
Theorem SanitizeReelName_idempotent (name : gostring) (maxLength : Z) :
  name <> [] \/ maxLength <> 1 ->
  SanitizeReelName (SanitizeReelName name maxLength) maxLength
  = SanitizeReelName name maxLength.
Proof.
  intro H.
  destruct (sanitized_word name maxLength) as [Hne Hw].
  set (r := SanitizeReelName name maxLength) in *.
  assert (Hlen : 0 < maxLength -> len r <= maxLength).
  { intro Hpos. destruct (sanitized_length name maxLength Hpos) as [H1 H2].
    destruct name as [|c s].
    - fold r in H2. rewrite H2 by reflexivity. destruct H as [H|H]; [contradiction|lia].
    - fold r in H1. apply H1. discriminate. }
  rewrite SanitizeReelName_nonempty_input by exact Hne.
  rewrite mapped_fixed by exact Hw.
  destruct (0 <? maxLength) eqn:E; [|reflexivity].
  apply Z.ltb_lt in E. specialize (Hlen E).
  replace (maxLength <? len r) with false by (symmetry; apply Z.ltb_ge; lia).
  reflexivity.
Qed.

Lemma SanitizeReelName_idempotent_witness :
  SanitizeReelName (SanitizeReelName (go "My Clip") 8) 8
  = SanitizeReelName (go "My Clip") 8.
Proof.
  apply (SanitizeReelName_idempotent (go "My Clip") 8). left. discriminate.
Defined.

(** ** [parseEvents]: texts without events, and the one failure *)




Section NoEvents.
Context {OT : Opentime} {CT : CaseTable}.
Variable rate : Q.


End NoEvents.



(** ** What the two line patterns let through *)

Lemma matches_lit (l : gostring) :
  forall m c c', matches (Lit l) m c c' -> m = l /\ c' = c.
Proof.
  induction l as [|x l IH]; intros m c c' H.
  - inversion H; subst. now split.
  - change (Lit (x :: l)) with (Cat (Class (rune_eqb x)) (Lit l)) in H.
    inversion H as [| |? ? m1 m2 ? c1 ? Ha Hb| | | | | |]; subst.
    inversion Ha as [|? y ? Hy| | | | | | |]; subst.
    apply IH in Hb as [-> ->]. apply rune_eqb_eq in Hy. subst. now split.
Qed.

Lemma matches_class (p : rune -> bool) (m : gostring) (c c' : caps) :
  matches (Class p) m c c' -> c' = c /\ exists x, m = [x] /\ p x = true.
Proof. intro H. inversion H; subst. split; [reflexivity|]. eexists. now split. Qed.

Lemma matches_star (p : rune -> bool) (m : gostring) (c c' : caps) :
  matches (Star p) m c c' -> c' = c /\ forallb p m = true.
Proof. intro H. inversion H; subst. now split. Qed.

Lemma matches_cat (a b : regex) (m : gostring) (c c' : caps) :
  matches (Cat a b) m c c' ->
  exists m1 m2 c1, m = m1 ++ m2 /\ matches a m1 c c1 /\ matches b m2 c1 c'.
Proof.
  intro H. inversion H as [| |? ? m1 m2 ? c1 ? Ha Hb| | | | | |]; subst.
  now exists m1, m2, c1.
Qed.

Lemma matches_group (i : nat) (a : regex) (m : gostring) (c c' : caps) :
  matches (Group i a) m c c' -> exists c1, c' = (i, m) :: c1 /\ matches a m c c1.
Proof.
  intro H. inversion H as [| | | | | |? ? ? ? c1 Ha| |]; subst. now exists c1.
Qed.

Lemma matches_alt (a b : regex) (m : gostring) (c c' : caps) :
  matches (Alt a b) m c c' -> matches a m c c' \/ matches b m c c'.
Proof. intro H. inversion H; subst; [now left|now right]. Qed.

Lemma matches_eps (m : gostring) (c c' : caps) : matches Eps m c c' -> m = [] /\ c' = c.
Proof. intro H. inversion H; subst. now split. Qed.

Lemma matches_d2 (m : gostring) (c c' : caps) :
  matches d2 m c c' ->
  c' = c /\ exists a b, m = [a; b] /\ cls_d a = true /\ cls_d b = true.
Proof.
  unfold d2. intro H.
  apply matches_cat in H as (m1 & m2 & c1 & -> & Ha & Hb).
  apply matches_class in Ha as (-> & a & -> & Ha).
  apply matches_class in Hb as (-> & b & -> & Hb).
  split; [reflexivity|]. now exists a, b.
Qed.

Lemma matches_d3 (m : gostring) (c c' : caps) :
  matches d3 m c c' ->
  c' = c /\ exists a b d, m = [a; b; d] /\ cls_d a = true /\ cls_d b = true
                         /\ cls_d d = true.
Proof.
  unfold d3. intro H.
  apply matches_cat in H as (m1 & m2 & c1 & -> & Ha & Hb).
  apply matches_class in Ha as (-> & a & -> & Ha).
  apply matches_d2 in Hb as (-> & b & d & -> & Hb & Hd).
  split; [reflexivity|]. now exists a, b, d.
Qed.

(** A text the pattern [tcAny] consumes has the shape of a timecode. *)
Lemma matches_tcAny (m : gostring) (c c' : caps) :
  matches tcAny m c c' -> c' = c /\ timecodeShape m = true.
Proof.
  unfold tcAny, Seq. cbn [fold_right]. intro H.
  apply matches_cat in H as (h & m1 & c1 & -> & Hh & H).
  apply matches_d2 in Hh as (-> & h1 & h2 & -> & Hh1 & Hh2).
  apply matches_cat in H as (x1 & m2 & c2 & -> & Hx1 & H).
  apply matches_lit in Hx1 as [-> ->].
  apply matches_cat in H as (mi & m3 & c3 & -> & Hmi & H).
  apply matches_d2 in Hmi as (-> & mi1 & mi2 & -> & Hmi1 & Hmi2).
  apply matches_cat in H as (x2 & m4 & c4 & -> & Hx2 & H).
  apply matches_lit in Hx2 as [-> ->].
  apply matches_cat in H as (se & m5 & c5 & -> & Hse & H).
  apply matches_d2 in Hse as (-> & s1 & s2 & -> & Hs1 & Hs2).
  apply matches_cat in H as (x3 & m6 & c6 & -> & Hx3 & H).
  apply matches_class in Hx3 as (-> & y & -> & Hy).
  apply matches_cat in H as (fr & m7 & c7 & -> & Hfr & H).
  apply matches_d2 in Hfr as (-> & f1 & f2 & -> & Hf1 & Hf2).
  apply matches_eps in H as [-> ->].
  split; [reflexivity|].
  change (go ":") with [58%N]. cbn [app timecodeShape].
  rewrite Hh1, Hh2, Hmi1, Hmi2, Hs1, Hs2, Hy, Hf1, Hf2.
  unfold rune_eqb. rewrite N.eqb_refl. reflexivity.
Qed.

(** The track and edit tokens of an event header. *)
Definition trackToken (tt : gostring) : Prop :=
  tt = go "V" \/ tt = go "A" \/ (exists d, cls_d d = true /\ tt = go "A" ++ [d])
  \/ tt = go "AA".

Definition editToken (ed : gostring) : Prop :=
  ed = go "C" \/ ed = go "D" \/ ed = go "KB" \/ ed = go "K"
  \/ exists d1 d2 d3,
       cls_d d1 = true /\ cls_d d2 = true /\ cls_d d3 = true
       /\ ed = go "W" ++ [d1; d2; d3].

(** A line [eventLineRegex] matches: spaces, digits, spaces, the reel,
    and so on; the submatches are the number, the reel, a track token, an
    edit token, and digits or nothing. *)
Lemma eventLine_inv (line : gostring) (m : caps) :
  FindStringSubmatch eventLineRegex line = Some m ->
  exists sp0 num sp1 tail,
    line = sp0 ++ num ++ sp1 ++ tail
    /\ forallb cls_s sp0 = true
    /\ num <> [] /\ forallb cls_d num = true
    /\ sp1 <> [] /\ forallb cls_s sp1 = true
    /\ submatch m 1 = num
    /\ submatch m 2 <> [] /\ forallb cls_S (submatch m 2) = true
    /\ trackToken (submatch m 3)
    /\ editToken (submatch m 4)
    /\ forallb cls_d (submatch m 5) = true.
Proof.
  unfold eventLineRegex, Seq. cbn [fold_right]. rewrite FindStringSubmatch_anchored.
  intro H.
  apply rmatch_sound in H as (m0 & pos' & s' & c' & M & -> & H). injection H as <-.
  apply matches_cat in M as (sp0 & m1 & c1 & -> & H0 & M).
  apply matches_star in H0 as (-> & Hsp0).
  apply matches_cat in M as (num & m2 & c2 & -> & H1 & M).
  apply matches_group in H1 as (c1' & -> & H1).
  apply matches_plus in H1 as (-> & Hnum1 & Hnum2).
  apply matches_cat in M as (sp1 & m3 & c3 & -> & H2 & M).
  apply matches_plus in H2 as (-> & Hsp1 & Hsp1').
  apply matches_cat in M as (reel & m4 & c4 & -> & H3 & M).
  apply matches_group in H3 as (c3' & -> & H3).
  apply matches_plus in H3 as (-> & Hreel1 & Hreel2).
  apply matches_cat in M as (sp2 & m5 & c5 & -> & H4 & M).
  apply matches_plus in H4 as (-> & _ & _).
  apply matches_cat in M as (tt & m6 & c6 & -> & H5 & M).
  apply matches_group in H5 as (c5' & -> & H5).
  assert (Htt : trackToken tt /\ c5' = [(2%nat, reel); (1%nat, num)]).
  { apply matches_alt in H5 as [H5|H5].
    - apply matches_lit in H5 as [-> ->]. split; [now left|reflexivity].
    - apply matches_alt in H5 as [H5|H5].
      + apply matches_cat in H5 as (a & d & ca & -> & Ha & Hd).
        apply matches_lit in Ha as [-> ->]. unfold Opt in Hd.
        apply matches_alt in Hd as [Hd|Hd].
        * apply matches_class in Hd as (-> & x & -> & Hx).
          split; [|reflexivity]. right; right; left. now exists x.
        * apply matches_eps in Hd as [-> ->]. split; [|reflexivity]. right; left.
          reflexivity.
      + apply matches_lit in H5 as [-> ->]. split; [|reflexivity]. right; right; right.
        reflexivity. }
  destruct Htt as [Htt ->].
  apply matches_cat in M as (sp3 & m7 & c7 & -> & H6 & M).
  apply matches_plus in H6 as (-> & _ & _).
  apply matches_cat in M as (ed & m8 & c8 & -> & H7 & M).
  apply matches_group in H7 as (c7' & -> & H7).
  assert (Hed : editToken ed /\ c7' = [(3%nat, tt); (2%nat, reel); (1%nat, num)]).
  { apply matches_alt in H7 as [H7|H7].
    { apply matches_lit in H7 as [-> ->]. split; [now left|reflexivity]. }
    apply matches_alt in H7 as [H7|H7].
    { apply matches_lit in H7 as [-> ->]. split; [right; now left|reflexivity]. }
    apply matches_alt in H7 as [H7|H7].
    { apply matches_cat in H7 as (w & ds & cw & -> & Hw & Hds).
      apply matches_lit in Hw as [-> ->].
      apply matches_d3 in Hds as (-> & d1 & d2' & d3' & -> & Hd1 & Hd2 & Hd3).
      split; [|reflexivity]. right; right; right; right. now exists d1, d2', d3'. }
    apply matches_alt in H7 as [H7|H7].
    { apply matches_lit in H7 as [-> ->]. split; [|reflexivity]. right; right; now left. }
    apply matches_lit in H7 as [-> ->]. split; [|reflexivity]. right; right; right; now left. }
  destruct Hed as [Hed ->].
  apply matches_cat in M as (sp4 & m9 & c9 & -> & H8 & M).
  apply matches_star in H8 as (-> & _).
  apply matches_cat in M as (dur & m10 & c10 & -> & H9 & M).
  apply matches_eps in M as [-> ->].
  exists sp0, num, sp1,
    (reel ++ sp2 ++ tt ++ sp3 ++ ed ++ sp4 ++ dur ++ [] ++ s').
  rewrite <- !app_assoc. split; [reflexivity|].
  unfold Opt in H9. apply matches_alt in H9 as [H9|H9].
  - apply matches_group in H9 as (c9' & -> & H9).
    apply matches_plus in H9 as (-> & _ & Hdur).
    cbn [submatch Nat.eqb]. repeat split; assumption.
  - apply matches_eps in H9 as [-> ->].
    cbn [submatch Nat.eqb]. repeat split; assumption.
Qed.

(** A line [timecodeLineRegex] matches: spaces, then a text that starts
    with two digits and a colon; the four submatches have the shape of a
    timecode. *)
Lemma timecodeLine_inv (line : gostring) (tc : caps) :
  FindStringSubmatch timecodeLineRegex line = Some tc ->
  (exists sp0 h1 h2 tail,
     line = sp0 ++ h1 :: h2 :: 58%N :: tail
     /\ forallb cls_s sp0 = true /\ cls_d h1 = true /\ cls_d h2 = true)
  /\ timecodeShape (submatch tc 1) = true
  /\ timecodeShape (submatch tc 2) = true
  /\ timecodeShape (submatch tc 3) = true
  /\ timecodeShape (submatch tc 4) = true.
Proof.
  unfold timecodeLineRegex, Seq. cbn [fold_right]. rewrite FindStringSubmatch_anchored.
  intro H.
  apply rmatch_sound in H as (m0 & pos' & s' & c' & M & -> & H). injection H as <-.
  apply matches_cat in M as (sp0 & m1 & c1 & -> & H0 & M).
  apply matches_star in H0 as (-> & Hsp0).
  apply matches_cat in M as (a & m2 & c2 & -> & Ha & M).
  apply matches_group in Ha as (ca & -> & Ha). apply matches_tcAny in Ha as (-> & Ha).
  apply matches_cat in M as (sp1 & m3 & c3 & -> & H1 & M).
  apply matches_plus in H1 as (-> & _ & _).
  apply matches_cat in M as (b & m4 & c4 & -> & Hb & M).
  apply matches_group in Hb as (cb & -> & Hb). apply matches_tcAny in Hb as (-> & Hb).
  apply matches_cat in M as (sp2 & m5 & c5 & -> & H2 & M).
  apply matches_plus in H2 as (-> & _ & _).
  apply matches_cat in M as (c & m6 & c6 & -> & Hc & M).
  apply matches_group in Hc as (cc & -> & Hc). apply matches_tcAny in Hc as (-> & Hc).
  apply matches_cat in M as (sp3 & m7 & c7 & -> & H3 & M).
  apply matches_plus in H3 as (-> & _ & _).
  apply matches_cat in M as (d & m8 & c8 & -> & Hd & M).
  apply matches_group in Hd as (cd & -> & Hd). apply matches_tcAny in Hd as (-> & Hd).
  apply matches_eps in M as [-> ->].
  cbn [submatch Nat.eqb]. split; [|repeat split; assumption].
  destruct a as [|h1 [|h2 [|x1 a']]]; try discriminate.
  exists sp0, h1, h2, (a' ++ sp1 ++ b ++ sp2 ++ c ++ sp3 ++ d ++ [] ++ s').
  assert (Hx : cls_d h1 = true /\ cls_d h2 = true /\ x1 = 58%N).
  { destruct a' as [|m1' [|m2' [|x2 [|s1 [|s2 [|x3 [|f1 [|f2 [|? ?]]]]]]]]];
      try discriminate.
    cbn [timecodeShape] in Ha. rewrite !andb_true_iff in Ha.
    destruct Ha as [[[[[[[[[[A1 A2] A3] _] _] _] _] _] _] _] _].
    apply rune_eqb_eq in A3. auto. }
  destruct Hx as (Hh1 & Hh2 & ->).
  rewrite <- !app_assoc. cbn [app]. repeat split; assumption.
Qed.

(** ** Invariants of the events [parseEvents] returns *)

(** The fields the header line sets, and the four timecodes. *)
Definition headerOf (ev : EDLEvent)
    : Z * gostring * TrackType * EditType * Z * gostring :=
  (EventNumber ev, ReelName ev, evTrackType ev, evEditType ev, TransitionDuration ev,
   WipeCode ev).

Definition timecodesOf (ev : EDLEvent) : gostring * gostring * gostring * gostring :=
  (SourceIn ev, SourceOut ev, RecordIn ev, RecordOut ev).

(** Comment lines and M2 lines leave the header fields and the timecodes
    of the open event alone. *)
Lemma applyCommentLine_frame (trimmed : gostring) (ev : EDLEvent) :
  headerOf (applyCommentLine trimmed ev) = headerOf ev
  /\ timecodesOf (applyCommentLine trimmed ev) = timecodesOf ev.
Proof.
  unfold applyCommentLine.
  repeat match goal with
         | |- context [if ?b then _ else _] => destruct b
         | |- context [match FindStringSubmatch ?r ?s with Some _ => _ | None => _ end] =>
             destruct (FindStringSubmatch r s)
         end; split; reflexivity.
Qed.

Lemma applySpeedLine_frame (line : gostring) (ev ev' : EDLEvent) :
  applySpeedLine line (Some ev) = Some ev' ->
  headerOf ev' = headerOf ev /\ timecodesOf ev' = timecodesOf ev.
Proof.
  cbn [applySpeedLine]. destruct (FindStringSubmatch speedEffectRegex line);
    intro H; injection H as <-; split; reflexivity.
Qed.

Definition optP (P : EDLEvent -> Prop) (cur : option EDLEvent) : Prop :=
  match cur with
  | Some ev => P ev
  | None => True
  end.

Section ParseInvariant.
Variables Q R : EDLEvent -> Prop.
Hypothesis Q_R : forall ev, Q ev -> R ev.
Hypothesis Q_new :
  forall line m tcLine tc,
    FindStringSubmatch eventLineRegex line = Some m ->
    FindStringSubmatch timecodeLineRegex tcLine = Some tc ->
    Q (set_timecodes (newEvent m) (submatch tc 1) (submatch tc 2) (submatch tc 3)
                     (submatch tc 4)).
Hypothesis R_new :
  forall line m, FindStringSubmatch eventLineRegex line = Some m -> R (newEvent m).
Hypothesis Q_frame :
  forall ev ev',
    headerOf ev' = headerOf ev -> timecodesOf ev' = timecodesOf ev -> Q ev -> Q ev'.

(** [Q] holds of every event whose timecode line was read, [R] of an event
    whose header was the last line. *)
Lemma parseLines_invariant (k : nat) :
  forall (lines : list gostring) (st st' : pstate),
    (List.length lines <= k)%nat ->
    Forall Q (events st) -> optP Q (currentEvent st) ->
    parseLines lines st = Ok st' ->
    Forall Q (events st') /\ optP R (currentEvent st').
Proof.
  induction k as [|k IH]; intros lines st st' Hlen He Hc H.
  - destruct lines; [|cbn in Hlen; lia]. cbn in H. injection H as <-.
    split; [exact He|]. destruct (currentEvent st); [now apply Q_R|exact I].
  - destruct lines as [|line rest].
    { cbn in H. injection H as <-.
      split; [exact He|]. destruct (currentEvent st); [now apply Q_R|exact I]. }
    cbn [List.length] in Hlen. cbn [parseLines] in H.
    destruct (gostring_eqb (TrimSpace line) (go "")).
    { refine (IH _ _ _ _ _ _ H); cbn [events currentEvent]; [lia|exact He|exact Hc]. }
    destruct (HasPrefix (TrimSpace line) (go "TITLE:")).
    { refine (IH _ _ _ _ _ _ H); cbn [events currentEvent]; [lia|exact He|exact Hc]. }
    destruct (HasPrefix (TrimSpace line) (go "FCM:")).
    { refine (IH _ _ _ _ _ _ H); cbn [events currentEvent]; [lia|exact He|exact Hc]. }
    destruct (FindStringSubmatch eventLineRegex line) as [m|] eqn:Em.
    + assert (Hflush : Forall Q (flush (events st) (currentEvent st))).
      { destruct (currentEvent st) as [ev|]; cbn [flush]; [|exact He].
        apply Forall_app. split; [exact He|]. now constructor. }
      destruct rest as [|tcLine rest'].
      * injection H as <-. cbn [events currentEvent optP].
        split; [exact Hflush|]. eapply R_new; eassumption.
      * destruct (FindStringSubmatch timecodeLineRegex tcLine) as [tc|] eqn:Etc;
          [|discriminate].
        cbn [List.length] in Hlen.
        refine (IH _ _ _ _ _ _ H); cbn [events currentEvent optP];
          [lia|exact Hflush|]. eapply Q_new; eassumption.
    + destruct (HasPrefix (TrimSpace line) (go "M2")).
      * refine (IH _ _ _ _ _ _ H); cbn [events currentEvent]; [lia|exact He|].
        destruct (currentEvent st) as [ev|]; [|exact I]. cbn [optP] in *.
        destruct (applySpeedLine line (Some ev)) as [ev'|] eqn:Es; [|exact I].
        destruct (applySpeedLine_frame _ _ _ Es) as [F1 F2]. cbn [optP].
        now apply (Q_frame ev ev').
      * refine (IH _ _ _ _ _ _ H); cbn [events currentEvent]; [lia|exact He|].
        destruct (currentEvent st) as [ev|]; [|exact I]. cbn [optP] in *.
        destruct (applyCommentLine_frame (TrimSpace line) ev) as [F1 F2].
        now apply (Q_frame ev _).
Qed.

Lemma Forall_removelast {A : Type} (P : A -> Prop) (l : list A) :
  Forall P l -> Forall P (removelast l).
Proof.
  induction 1 as [|x l Hx Hl IH]; cbn [removelast]; [constructor|].
  destruct l; [constructor|]. constructor; assumption.
Qed.

Lemma parseEvents_invariant (lines : list gostring) (evs : list EDLEvent) :
  parseEvents lines = Ok evs -> Forall Q (removelast evs) /\ Forall R evs.
Proof.
  unfold parseEvents.
  destruct (parseLines lines initialState) as [st|] eqn:E; cbn [bind]; [|discriminate].
  intro H; injection H as <-.
  destruct (parseLines_invariant _ _ initialState _ (Nat.le_refl _) (Forall_nil _) I E)
    as [He Hc].
  assert (HeR : Forall R (events st)) by (eapply Forall_impl; [|exact He]; exact Q_R).
  destruct (currentEvent st) as [ev|]; cbn [flush optP] in *.
  - rewrite removelast_last. split; [exact He|].
    apply Forall_app. split; [exact HeR|]. now constructor.
  - split; [now apply Forall_removelast|exact HeR].
Qed.

End ParseInvariant.

(** Digits read as a number that is not negative. *)
Lemma digitsValue_nonneg (s : gostring) :
  forall a v, 0 <= a -> digitsValue a s = Some v -> 0 <= v.
Proof.
  induction s as [|c s IH]; intros a v Ha; cbn [digitsValue].
  - intro H; injection H as <-. exact Ha.
  - destruct (cls_d c) eqn:E; [|discriminate].
    apply IH. unfold cls_d in E. apply in_range_iff in E. unfold r0, r9 in E. lia.
Qed.

Lemma Atoi_digits_nonneg (s : gostring) : forallb cls_d s = true -> 0 <= Atoi s.
Proof.
  intro H. destruct s as [|c s]; [cbn; lia|].
  cbn [forallb] in H. apply andb_true_iff in H as [Hc _].
  assert (E1 : rune_eqb c 45%N = false).
  { apply N.eqb_neq. unfold cls_d in Hc. apply in_range_iff in Hc. unfold r0, r9 in Hc. lia. }
  assert (E2 : rune_eqb c 43%N = false).
  { apply N.eqb_neq. unfold cls_d in Hc. apply in_range_iff in Hc. unfold r0, r9 in Hc. lia. }
  unfold Atoi. rewrite E1, E2.
  destruct (digitsValue 0 (c :: s)) as [v|] eqn:E; [|lia].
  apply digitsValue_nonneg in E; [|lia]. unfold maxInt64. lia.
Qed.

(** The fields a header line can give an event. *)
Definition headerFieldsOK (ev : EDLEvent) : Prop :=
  0 <= EventNumber ev
  /\ ReelName ev <> [] /\ forallb cls_S (ReelName ev) = true
  /\ trackToken (evTrackType ev)
  /\ 0 <= TransitionDuration ev
  /\ ((evEditType ev = EditTypeCut \/ evEditType ev = EditTypeDissolve
       \/ evEditType ev = EditTypeKeyBackground \/ evEditType ev = EditTypeKey)
      /\ WipeCode ev = go ""
      \/ evEditType ev = EditTypeWipe
         /\ exists d1 d2 d3,
              cls_d d1 = true /\ cls_d d2 = true /\ cls_d d3 = true
              /\ WipeCode ev = go "W" ++ [d1; d2; d3]).

Lemma newEvent_headerFieldsOK (line : gostring) (m : caps) :
  FindStringSubmatch eventLineRegex line = Some m -> headerFieldsOK (newEvent m).
Proof.
  intro H.
  apply eventLine_inv in H
    as (sp0 & num & sp1 & tail & _ & _ & _ & Hnum & _ & _ & E1 & Hr1 & Hr2 & Htt & Hed & Hdur).
  unfold headerFieldsOK, newEvent.
  cbn [EventNumber ReelName evTrackType TransitionDuration evEditType WipeCode].
  split; [rewrite E1; now apply Atoi_digits_nonneg|].
  split; [exact Hr1|]. split; [exact Hr2|]. split; [exact Htt|].
  split.
  - destruct (gostring_eqb (submatch m 5) (go "")); [lia|now apply Atoi_digits_nonneg].
  - destruct Hed as [->|[->|[->|[->|(d1 & d2' & d3' & H1 & H2 & H3 & ->)]]]].
    + left. split; [now left|reflexivity].
    + left. split; [right; now left|reflexivity].
    + left. split; [right; right; now left|reflexivity].
    + left. split; [right; right; right; reflexivity|reflexivity].
    + right. split; [reflexivity|]. now exists d1, d2', d3'.
Qed.

(** X6. Every event [parseEvents] returns has a number and a transition
    duration that are not negative, a reel name that is a non-empty run
    of non-space runes, a track identifier among V, A, A0 to A9 and AA,
    and an edit type among C, D, KB, K with an empty wipe code, or the
    edit type W with a wipe code made of W and three digits. *)
Theorem parseEvents_header_fields (lines : list gostring) (evs : list EDLEvent) :
  parseEvents lines = Ok evs -> Forall headerFieldsOK evs.
Proof.
  intro H.
  apply (parseEvents_invariant headerFieldsOK headerFieldsOK) in H; [tauto|auto| | |].
  - intros line m tcLine tc Hm _. exact (newEvent_headerFieldsOK line m Hm).
  - exact newEvent_headerFieldsOK.
  - intros ev ev' Hh _. unfold headerOf in Hh. injection Hh as E1 E2 E3 E4 E5 E6.
    unfold headerFieldsOK. now rewrite E1, E2, E3, E4, E5, E6.
Qed.

(** The timecodes of an event: all four with the shape of a timecode, or
    all four empty. *)
Definition timecodesRead (ev : EDLEvent) : Prop :=
  timecodeShape (SourceIn ev) = true /\ timecodeShape (SourceOut ev) = true
  /\ timecodeShape (RecordIn ev) = true /\ timecodeShape (RecordOut ev) = true.

Definition timecodesMissing (ev : EDLEvent) : Prop :=
  timecodesOf ev = (go "", go "", go "", go "").

(** X7. In the list [parseEvents] returns, the four timecodes of every
    event but the last have the shape of a timecode (two digits, colon,
    two digits, colon, two digits, colon or semicolon, two digits); those
    of the last event have it too, or are all four empty (its header was
    the last line of the text). *)
Theorem parseEvents_timecodes (lines : list gostring) (evs : list EDLEvent) :
  parseEvents lines = Ok evs ->
  Forall timecodesRead (removelast evs)
  /\ Forall (fun ev => timecodesRead ev \/ timecodesMissing ev) evs.
Proof.
  intro H.
  apply (parseEvents_invariant timecodesRead
           (fun ev => timecodesRead ev \/ timecodesMissing ev)) in H; [exact H|auto| | |].
  - intros line m tcLine tc _ Htc.
    apply timecodeLine_inv in Htc as (_ & H1 & H2 & H3 & H4).
    unfold timecodesRead. cbn [set_timecodes SourceIn SourceOut RecordIn RecordOut].
    repeat split; assumption.
  - intros line m _. right. reflexivity.
  - intros ev ev' _ Ht. unfold timecodesOf in Ht. injection Ht as E1 E2 E3 E4.
    unfold timecodesRead. now rewrite E1, E2, E3, E4.
Qed.

(** ** Header lines, timecode lines and the lines tested before them *)

Lemma cls_s_IsSpace (c : rune) : cls_s c = true -> unicode_IsSpace c = true.
Proof.
  unfold cls_s, unicode_IsSpace, in_range.
  rewrite !orb_true_iff, !andb_true_iff, !N.eqb_eq, !N.leb_le. lia.
Qed.

Lemma cls_d_not_IsSpace (c : rune) : cls_d c = true -> unicode_IsSpace c = false.
Proof.
  intro H. unfold cls_d in H. apply in_range_iff in H. unfold r0, r9 in H.
  destruct (unicode_IsSpace c) eqn:E; [exfalso|reflexivity].
  unfold unicode_IsSpace, in_range in E.
  rewrite !orb_true_iff, !andb_true_iff, !N.eqb_eq, !N.leb_le in E. lia.
Qed.

Lemma TrimSpace_leading (sp s : gostring) :
  forallb cls_s sp = true -> TrimSpace (sp ++ s) = TrimSpace s.
Proof.
  intro H. unfold TrimSpace. f_equal. f_equal. f_equal.
  induction sp as [|c sp IH]; [reflexivity|].
  cbn [forallb] in H. apply andb_true_iff in H as [Hc Hsp].
  cbn [app TrimLeftSpace]. rewrite (cls_s_IsSpace c Hc). now apply IH.
Qed.

(** A line that starts, after spaces, with a digit passes the tests that
    come before the event header test. *)
Lemma digit_line_pastHeaderTests (sp : gostring) (d : rune) (rest : gostring) :
  forallb cls_s sp = true -> cls_d d = true ->
  pastHeaderTests (sp ++ d :: rest) = true.
Proof.
  intros Hsp Hd. unfold pastHeaderTests. rewrite TrimSpace_leading by exact Hsp.
  destruct (TrimSpace_starts d rest (cls_d_not_IsSpace d Hd)) as (t & ->).
  unfold cls_d in Hd. apply in_range_iff in Hd. unfold r0, r9 in Hd.
  change (go "") with (@nil rune).
  change (go "TITLE:") with [84; 73; 84; 76; 69; 58]%N.
  change (go "FCM:") with [70; 67; 77; 58]%N.
  cbn [gostring_eqb HasPrefix]. unfold rune_eqb.
  replace (84 =? d)%N with false by (symmetry; apply N.eqb_neq; lia).
  replace (70 =? d)%N with false by (symmetry; apply N.eqb_neq; lia).
  reflexivity.
Qed.

Lemma eventLine_pastHeaderTests (line : gostring) (m : caps) :
  FindStringSubmatch eventLineRegex line = Some m -> pastHeaderTests line = true.
Proof.
  intro H. apply eventLine_inv in H as (sp0 & num & sp1 & tail & -> & Hsp0 & Hn & Hd & _).
  destruct num as [|d num]; [contradiction|].
  cbn [forallb] in Hd. apply andb_true_iff in Hd as [Hd _].
  cbn [app]. now apply digit_line_pastHeaderTests.
Qed.

Lemma timecodeLine_pastHeaderTests (line : gostring) (tc : caps) :
  FindStringSubmatch timecodeLineRegex line = Some tc -> pastHeaderTests line = true.
Proof.
  intro H. apply timecodeLine_inv in H as ((sp0 & h1 & h2 & tail & -> & Hsp0 & Hh1 & _) & _).
  now apply digit_line_pastHeaderTests.
Qed.

(** Two ways to cut a text into leading spaces and a rest that does not
    start with a space agree. *)
Lemma leading_spaces_unique (sp sp' : gostring) (c c' : rune) (s s' : gostring) :
  forallb cls_s sp = true -> forallb cls_s sp' = true ->
  cls_s c = false -> cls_s c' = false ->
  sp ++ c :: s = sp' ++ c' :: s' -> sp = sp' /\ c :: s = c' :: s'.
Proof.
  revert sp'; induction sp as [|x sp IH]; intros [|y sp'] Hsp Hsp' Hc Hc' E;
    cbn [app forallb] in *.
  - now split.
  - injection E as -> _. apply andb_true_iff in Hsp' as [Hy _]. congruence.
  - injection E as <- _. apply andb_true_iff in Hsp as [Hx _]. congruence.
  - injection E as <- E. apply andb_true_iff in Hsp as [_ Hsp].
    apply andb_true_iff in Hsp' as [_ Hsp'].
    destruct (IH sp' Hsp Hsp' Hc Hc' E) as [-> E']. now split.
Qed.

(** No line is both an event header and a timecode line. *)
Lemma timecodeLine_not_eventLine (line : gostring) (tc : caps) :
  FindStringSubmatch timecodeLineRegex line = Some tc ->
  FindStringSubmatch eventLineRegex line = None.
Proof.
  intro H. destruct (FindStringSubmatch eventLineRegex line) as [m|] eqn:Em;
    [exfalso|reflexivity].
  apply timecodeLine_inv in H as ((sp0 & h1 & h2 & tail & E & Hsp0 & Hh1 & Hh2) & _).
  apply eventLine_inv in Em
    as (sp0' & num & sp1 & tail' & E' & Hsp0' & Hn & Hd & Hs1 & Hs1' & _).
  rewrite E in E'. clear E.
  destruct num as [|d num]; [contradiction|].
  cbn [forallb] in Hd. apply andb_true_iff in Hd as [Hd Hnum].
  cbn [app] in E'.
  destruct (leading_spaces_unique _ _ _ _ _ _ Hsp0 Hsp0'
              (cls_d_not_space _ Hh1) (cls_d_not_space _ Hd) E') as [_ E2].
  injection E2 as _ E2.
  destruct sp1 as [|x sp1]; [contradiction|].
  cbn [forallb] in Hs1'. apply andb_true_iff in Hs1' as [Hx _].
  destruct num as [|d2' num]; cbn [app] in E2.
  - injection E2 as <- _. apply cls_d_not_space in Hh2. congruence.
  - injection E2 as _ E2. cbn [forallb] in Hnum. apply andb_true_iff in Hnum as [_ Hnum].
    destruct num as [|d3' num]; cbn [app] in E2.
    + injection E2 as <- _. discriminate.
    + injection E2 as <- _. cbn [forallb] in Hnum. apply andb_true_iff in Hnum as [Hc _].
      discriminate.
Qed.

(** ** The events and the header lines *)

(** The header fields of the event a line opens, if it opens one. *)
Definition headerFieldsOf (line : gostring)
    : list (Z * gostring * TrackType * EditType * Z * gostring) :=
  match FindStringSubmatch eventLineRegex line with
  | Some m => [headerOf (newEvent m)]
  | None => []
  end.

Lemma parseLines_headers (k : nat) :
  forall (lines : list gostring) (st st' : pstate),
    (List.length lines <= k)%nat ->
    parseLines lines st = Ok st' ->
    List.map headerOf (flush (events st') (currentEvent st'))
    = List.map headerOf (flush (events st) (currentEvent st))
      ++ flat_map headerFieldsOf lines.
Proof.
  induction k as [|k IH]; intros lines st st' Hlen H.
  - destruct lines; [|cbn in Hlen; lia]. cbn in H. injection H as <-.
    cbn [flat_map]. now rewrite app_nil_r.
  - destruct lines as [|line rest].
    { cbn in H. injection H as <-. cbn [flat_map]. now rewrite app_nil_r. }
    cbn [List.length] in Hlen. cbn [flat_map].
    assert (Hskip : pastHeaderTests line = false -> headerFieldsOf line = []).
    { intro Hp. unfold headerFieldsOf.
      destruct (FindStringSubmatch eventLineRegex line) as [m|] eqn:Em; [|reflexivity].
      apply eventLine_pastHeaderTests in Em. congruence. }
    cbn [parseLines] in H. unfold pastHeaderTests in Hskip.
    destruct (gostring_eqb (TrimSpace line) (go "")).
    { rewrite Hskip by reflexivity. apply (IH rest _ _ ltac:(lia) H). }
    destruct (HasPrefix (TrimSpace line) (go "TITLE:")).
    { rewrite Hskip by reflexivity. apply (IH rest _ _ ltac:(lia) H). }
    destruct (HasPrefix (TrimSpace line) (go "FCM:")).
    { rewrite Hskip by reflexivity. apply (IH rest _ _ ltac:(lia) H). }
    clear Hskip. unfold headerFieldsOf at 1.
    destruct (FindStringSubmatch eventLineRegex line) as [m|] eqn:Em.
    + destruct rest as [|tcLine rest'].
      * injection H as <-. cbn [events currentEvent flush flat_map].
        rewrite map_app. reflexivity.
      * destruct (FindStringSubmatch timecodeLineRegex tcLine) as [tc|] eqn:Etc;
          [|discriminate].
        cbn [List.length] in Hlen. rewrite (IH rest' _ _ ltac:(lia) H).
        cbn [events currentEvent flush flat_map]. rewrite map_app.
        unfold headerFieldsOf at 2. rewrite (timecodeLine_not_eventLine _ _ Etc).
        rewrite <- app_assoc. reflexivity.
    + cbn [app]. destruct (HasPrefix (TrimSpace line) (go "M2")).
      * rewrite (IH rest _ _ ltac:(lia) H). cbn [events currentEvent]. f_equal.
        destruct (currentEvent st) as [ev|]; [|reflexivity].
        destruct (applySpeedLine line (Some ev)) as [ev'|] eqn:Es.
        -- destruct (applySpeedLine_frame _ _ _ Es) as [F _].
           cbn [flush]. rewrite !map_app. cbn [List.map]. now rewrite F.
        -- cbn [applySpeedLine] in Es.
           destruct (FindStringSubmatch speedEffectRegex line); discriminate.
      * rewrite (IH rest _ _ ltac:(lia) H). cbn [events currentEvent]. f_equal.
        destruct (currentEvent st) as [ev|]; [|reflexivity].
        destruct (applyCommentLine_frame (TrimSpace line) ev) as [F _].
        cbn [flush]. rewrite !map_app. cbn [List.map]. now rewrite F.
Qed.

(** X8. The events [parseEvents] returns are those of the lines that
    match the event header pattern, one event per such line and in the
    order of the lines; number, reel, track identifier, edit type,
    transition duration and wipe code of each event are those of its
    header line, whatever lines follow it. *)
Theorem parseEvents_headers (lines : list gostring) (evs : list EDLEvent) :
  parseEvents lines = Ok evs ->
  List.map headerOf evs = flat_map headerFieldsOf lines.
Proof.
  unfold parseEvents.
  destruct (parseLines lines initialState) as [st|] eqn:E; cbn [bind]; [|discriminate].
  intro H; injection H as <-.
  now rewrite (parseLines_headers _ _ _ _ (Nat.le_refl _) E).
Qed.

(** ** The FCM line *)

(** Two outcomes of the loop that agree on everything but [fcmMode]. *)
Definition sameParse (r1 r2 : result pstate) : Prop :=
  match r1, r2 with
  | Ok a, Ok b =>
      events a = events b /\ currentEvent a = currentEvent b /\ lineNum a = lineNum b
  | Err e1, Err e2 => e1 = e2
  | _, _ => False
  end.

Lemma parseLines_fcmMode (k : nat) :
  forall (lines : list gostring) (evs : list EDLEvent) (cur : option EDLEvent) (n : Z)
         (f1 f2 : gostring),
    (List.length lines <= k)%nat ->
    sameParse (parseLines lines (mkPstate evs cur n f1))
              (parseLines lines (mkPstate evs cur n f2)).
Proof.
  induction k as [|k IH]; intros lines evs cur n f1 f2 Hlen.
  - destruct lines; [|cbn in Hlen; lia]. cbn. auto.
  - destruct lines as [|line rest]; [cbn; auto|].
    cbn [List.length] in Hlen. cbn [parseLines events currentEvent lineNum fcmMode].
    destruct (gostring_eqb (TrimSpace line) (go "")); [apply IH; lia|].
    destruct (HasPrefix (TrimSpace line) (go "TITLE:")); [apply IH; lia|].
    destruct (HasPrefix (TrimSpace line) (go "FCM:")); [apply IH; lia|].
    destruct (FindStringSubmatch eventLineRegex line).
    + destruct rest as [|tcLine rest']; [cbn; auto|].
      destruct (FindStringSubmatch timecodeLineRegex tcLine); [|reflexivity].
      apply IH. cbn [List.length] in Hlen. lia.
    + destruct (HasPrefix (TrimSpace line) (go "M2")); apply IH; lia.
Qed.

Definition isFcmLine (line : gostring) : bool := HasPrefix (TrimSpace line) (go "FCM:").

Lemma isFcmLine_tests (f : gostring) :
  isFcmLine f = true ->
  gostring_eqb (TrimSpace f) (go "") = false
  /\ HasPrefix (TrimSpace f) (go "TITLE:") = false
  /\ FindStringSubmatch timecodeLineRegex f = None.
Proof.
  unfold isFcmLine. intro H. split; [|split].
  - destruct (TrimSpace f); [discriminate|reflexivity].
  - apply HasPrefix_app in H as (rest & ->). reflexivity.
  - destruct (FindStringSubmatch timecodeLineRegex f) as [tc|] eqn:E; [|reflexivity].
    apply timecodeLine_pastHeaderTests in E. unfold pastHeaderTests in E.
    rewrite H in E. now rewrite andb_false_r in E.
Qed.

Lemma parseLines_fcm_line (f f' : gostring) (post : list gostring) (k : nat) :
  isFcmLine f = true -> isFcmLine f' = true ->
  forall (pre : list gostring) (evs : list EDLEvent) (cur : option EDLEvent) (n : Z)
         (f1 f2 : gostring),
    (List.length pre <= k)%nat ->
    sameParse (parseLines (pre ++ f :: post) (mkPstate evs cur n f1))
              (parseLines (pre ++ f' :: post) (mkPstate evs cur n f2)).
Proof.
  intros Hf Hf'.
  destruct (isFcmLine_tests f Hf) as (B1 & T1 & C1).
  destruct (isFcmLine_tests f' Hf') as (B2 & T2 & C2).
  unfold isFcmLine in Hf, Hf'.
  induction k as [|k IH]; intros pre evs cur n f1 f2 Hlen.
  - destruct pre; [|cbn in Hlen; lia].
    cbn [app parseLines events currentEvent lineNum fcmMode].
    rewrite B1, T1, Hf, B2, T2, Hf'.
    apply parseLines_fcmMode with (k := List.length post). apply Nat.le_refl.
  - destruct pre as [|line pre'].
    { cbn [app parseLines events currentEvent lineNum fcmMode].
      rewrite B1, T1, Hf, B2, T2, Hf'.
      apply parseLines_fcmMode with (k := List.length post). apply Nat.le_refl. }
    cbn [List.length] in Hlen.
    cbn [app parseLines events currentEvent lineNum fcmMode].
    destruct (gostring_eqb (TrimSpace line) (go "")); [apply IH; lia|].
    destruct (HasPrefix (TrimSpace line) (go "TITLE:")); [apply IH; lia|].
    destruct (HasPrefix (TrimSpace line) (go "FCM:")); [apply IH; lia|].
    destruct (FindStringSubmatch eventLineRegex line).
    + destruct pre' as [|tcLine pre'']; cbn [app].
      * rewrite C1, C2. reflexivity.
      * destruct (FindStringSubmatch timecodeLineRegex tcLine); [|reflexivity].
        apply IH. cbn [List.length] in Hlen. lia.
    + destruct (HasPrefix (TrimSpace line) (go "M2")); apply IH; lia.
Qed.

(** X9. The frame count mode has no part in the result: replacing an FCM
    line by any other FCM line (DROP FRAME by NON-DROP FRAME, say), at
    any place in the text, leaves what [parseEvents] returns, events or
    failure, as it was. *)
Theorem parseEvents_ignores_FCM (pre post : list gostring) (f f' : gostring) :
  isFcmLine f = true -> isFcmLine f' = true ->
  parseEvents (pre ++ f :: post) = parseEvents (pre ++ f' :: post).
Proof.
  intros Hf Hf'. unfold parseEvents, initialState.
  pose proof (parseLines_fcm_line f f' post _ Hf Hf' pre [] None 0 (go "") (go "")
                (Nat.le_refl _)) as H.
  unfold sameParse in H.
  destruct (parseLines (pre ++ f :: post) _) as [a|e1];
    destruct (parseLines (pre ++ f' :: post) _) as [b|e2]; try contradiction.
  - destruct H as (E1 & E2 & _). cbn [bind]. now rewrite E1, E2.
  - subst. reflexivity.
Qed.

(** ** Line endings *)





(** ** [createTrack]: the clips, and the timecodes that cannot be read *)

Section TrackBuilder.
Context {OT : Opentime} {CT : CaseTable}.
Variable rate : Q.

(** The clips among the children of a track. *)
Definition clipsIn (children : list Composable) : list Clip :=
  flat_map (fun c => match c with CClip c => [c] | _ => [] end) children.

Lemma clipsIn_app (a b : list Composable) : clipsIn (a ++ b) = clipsIn a ++ clipsIn b.
Proof. apply flat_map_app. Qed.

Lemma clipsIn_eventBlock (last ri si so : RationalTime) (ev : EDLEvent) :
  clipsIn (eventBlock rate last ri si so ev) = [clipOf rate ev si so].
Proof.
  unfold eventBlock. rewrite !clipsIn_app.
  assert (G : clipsIn (gapBefore last ri) = []).
  { unfold gapBefore. destruct (IsValidTime last); [|reflexivity].
    now destruct (Qgt_bool (Value (Sub ri last)) (1 # 2)). }
  assert (T : clipsIn (transitionOf rate ev) = []).
  { destruct (transitionOf_cases rate ev) as [-> | (t & ->)]; reflexivity. }
  now rewrite G, T.
Qed.

(** The clip [createTrack] builds for an event. *)
Definition clipOfEvent (ev : EDLEvent) (c : Clip) : Prop :=
  exists si so,
    FromTimecode (SourceIn ev) rate = Some si
    /\ FromTimecode (SourceOut ev) rate = Some so
    /\ c = clipOf rate ev si so.

Lemma trackLoop_clips (evs : list EDLEvent) :
  forall (st st' : list Composable * RationalTime),
    trackLoop rate evs st = Ok st' ->
    exists cs, clipsIn (fst st') = clipsIn (fst st) ++ cs /\ Forall2 clipOfEvent evs cs.
Proof.
  induction evs as [|ev evs IH]; intros st st'; cbn [trackLoop].
  - intro H; injection H as <-. exists []. rewrite app_nil_r. split; [reflexivity|constructor].
  - destruct (trackStep rate st ev) as [st1|] eqn:E; cbn [bind]; [|discriminate].
    intro H. apply trackStep_ok in E as (si & so & ri & ro & H1 & H2 & _ & _ & ->).
    destruct (IH _ _ H) as (cs & Hcs & F). cbn [fst] in Hcs.
    rewrite clipsIn_app, clipsIn_eventBlock in Hcs.
    exists (clipOf rate ev si so :: cs). split.
    + rewrite Hcs, <- app_assoc. reflexivity.
    + constructor; [|exact F]. now exists si, so.
Qed.

(** The track [createTrack] returns. *)
Lemma createTrack_ok (trackType : TrackType) (evs : list EDLEvent) (track : Track) :
  createTrack rate trackType evs = Ok track ->
  trackName track = trackType
  /\ trackKind track = (if IsAudioTrack trackType then TrackKindAudio else TrackKindVideo)
  /\ Forall2 clipOfEvent evs (clipsIn (trackChildren track)).
Proof.
  unfold createTrack.
  destruct (trackLoop rate evs ([], zeroRationalTime)) as [st|] eqn:E; cbn [bind];
    [|discriminate].
  intro H; injection H as <-. cbn [trackName trackKind trackChildren].
  split; [reflexivity|]. split; [reflexivity|].
  apply trackLoop_clips in E as (cs & -> & F). exact F.
Qed.

(** X11. The track [createTrack] returns carries the track identifier as
    its name, is an audio track exactly for the identifiers A, A1, A2, A3
    and A4 and a video track for every other one, and holds one clip per
    event, in the order of the events: the clip built from the event and
    its two source timecodes. *)
Theorem createTrack_clips (trackType : TrackType) (evs : list EDLEvent) (track : Track) :
  createTrack rate trackType evs = Ok track ->
  trackName track = trackType
  /\ trackKind track = (if IsAudioTrack trackType then TrackKindAudio else TrackKindVideo)
  /\ Forall2 clipOfEvent evs (clipsIn (trackChildren track)).
Proof. apply createTrack_ok. Qed.

(** The four timecodes of an event that package [opentime] reads at the
    decoder's rate. *)
Definition canRead (s : gostring) : bool :=
  match FromTimecode s rate with Some _ => true | None => false end.

Definition readable (ev : EDLEvent) : bool :=
  canRead (SourceIn ev) && canRead (SourceOut ev) && canRead (RecordIn ev)
  && canRead (RecordOut ev).

(** The first timecode of an event that cannot be read, in the order in
    which [createTrack] reads them. *)
Definition firstUnreadable (ev : EDLEvent) : option (TimecodeField * gostring) :=
  if negb (canRead (SourceIn ev)) then Some (FSourceIn, SourceIn ev)
  else if negb (canRead (SourceOut ev)) then Some (FSourceOut, SourceOut ev)
  else if negb (canRead (RecordIn ev)) then Some (FRecordIn, RecordIn ev)
  else if negb (canRead (RecordOut ev)) then Some (FRecordOut, RecordOut ev)
  else None.

Lemma trackStep_readable (st : list Composable * RationalTime) (ev : EDLEvent) :
  readable ev = true -> exists st', trackStep rate st ev = Ok st'.
Proof.
  unfold readable, canRead, trackStep, fromTimecode. destruct st as [ch last].
  destruct (FromTimecode (SourceIn ev) rate); [|discriminate].
  destruct (FromTimecode (SourceOut ev) rate); [|discriminate].
  destruct (FromTimecode (RecordIn ev) rate); [|discriminate].
  destruct (FromTimecode (RecordOut ev) rate); [|discriminate].
  intros _. cbn [bind]. eexists. reflexivity.
Qed.

Lemma trackStep_unreadable (st : list Composable * RationalTime) (ev : EDLEvent)
    (f : TimecodeField) (s : gostring) :
  firstUnreadable ev = Some (f, s) -> trackStep rate st ev = Err (InvalidTimecode f s).
Proof.
  unfold firstUnreadable, canRead, trackStep, fromTimecode. destruct st as [ch last].
  destruct (FromTimecode (SourceIn ev) rate); cbn [negb bind];
    [|intro H; injection H as <- <-; reflexivity].
  destruct (FromTimecode (SourceOut ev) rate); cbn [negb bind];
    [|intro H; injection H as <- <-; reflexivity].
  destruct (FromTimecode (RecordIn ev) rate); cbn [negb bind];
    [|intro H; injection H as <- <-; reflexivity].
  destruct (FromTimecode (RecordOut ev) rate); cbn [negb bind];
    [discriminate|intro H; injection H as <- <-; reflexivity].
Qed.

Lemma trackLoop_readable (evs : list EDLEvent) :
  forall st, forallb readable evs = true -> exists st', trackLoop rate evs st = Ok st'.
Proof.
  induction evs as [|ev evs IH]; intros st H; cbn [trackLoop].
  - now exists st.
  - cbn [forallb] in H. apply andb_true_iff in H as [Hev Hevs].
    destruct (trackStep_readable st ev Hev) as (st1 & ->). cbn [bind]. now apply IH.
Qed.

Lemma trackLoop_ok_readable (evs : list EDLEvent) :
  forall st st', trackLoop rate evs st = Ok st' -> forallb readable evs = true.
Proof.
  induction evs as [|ev evs IH]; intros st st'; cbn [trackLoop forallb]; [reflexivity|].
  destruct (trackStep rate st ev) as [st1|] eqn:E; cbn [bind]; [|discriminate].
  intro H. apply trackStep_ok in E as (si & so & ri & ro & H1 & H2 & H3 & H4 & _).
  rewrite (IH _ _ H), andb_true_r. unfold readable, canRead.
  now rewrite H1, H2, H3, H4.
Qed.

(** X12. [createTrack] returns a track exactly when package [opentime]
    reads all four timecodes of every event at the decoder's rate. *)
Theorem createTrack_succeeds_iff (trackType : TrackType) (evs : list EDLEvent) :
  (exists track, createTrack rate trackType evs = Ok track)
  <-> forallb readable evs = true.
Proof.
  unfold createTrack. split.
  - intros (track & H).
    destruct (trackLoop rate evs ([], zeroRationalTime)) as [st|] eqn:E; cbn [bind] in H;
      [|discriminate].
    eapply trackLoop_ok_readable; eassumption.
  - intro H. destruct (trackLoop_readable evs ([], zeroRationalTime) H) as (st & ->).
    cbn [bind]. eexists. reflexivity.
Qed.

(** X13. When some timecode cannot be read, [createTrack] returns no
    track but the error for the first event that has such a timecode,
    and for the first such timecode of that event in the order source in,
    source out, record in, record out; the events after it are not
    looked at. *)
Theorem createTrack_first_unreadable
    (trackType : TrackType) (pre post : list EDLEvent) (ev : EDLEvent)
    (f : TimecodeField) (s : gostring) :
  forallb readable pre = true ->
  firstUnreadable ev = Some (f, s) ->
  createTrack rate trackType (pre ++ ev :: post) = Err (InvalidTimecode f s).
Proof.
  intros Hpre Hev. unfold createTrack. rewrite trackLoop_app.
  destruct (trackLoop_readable pre ([], zeroRationalTime) Hpre) as (st & ->).
  cbn [bind trackLoop]. now rewrite (trackStep_unreadable st ev f s Hev).
Qed.

(** X14. No gap comes first: when the zero value of a rational time is
    not a valid time, the children of the track start with the
    transition of the first event, if it has one, and its clip, wherever
    on the record side the first event starts. *)
Theorem createTrack_no_leading_gap
    (trackType : TrackType) (ev : EDLEvent) (evs : list EDLEvent) (track : Track) :
  IsValidTime zeroRationalTime = false ->
  createTrack rate trackType (ev :: evs) = Ok track ->
  exists si so rest,
    trackChildren track = transitionOf rate ev ++ CClip (clipOf rate ev si so) :: rest.
Proof.
  intros Hz. unfold createTrack. cbn [trackLoop].
  destruct (trackStep rate ([], zeroRationalTime) ev) as [st1|] eqn:E; cbn [bind];
    [|discriminate].
  apply trackStep_ok in E as (si & so & ri & ro & _ & _ & _ & _ & ->).
  cbn [fst snd app]. unfold eventBlock, gapBefore. rewrite Hz. cbn [app].
  destruct (trackLoop rate evs _) as [[ch last]|] eqn:E2; cbn [bind]; [|discriminate].
  intro H; injection H as <-. cbn [trackChildren fst].
  apply trackLoop_children in E2 as (suffix & E2 & _). cbn [snd] in E2.
  injection E2 as ->. exists si, so, suffix.
  rewrite <- app_assoc. reflexivity.
Qed.

(** X15. A locator whose timecode package [opentime] cannot read is
    dropped without an error; the others become markers in the order of
    the locators, each named after its comment. *)
Theorem markersOf_readable (ms : list Marker) :
  List.map markerName (markersOf rate ms)
  = List.map mkComment (filter (fun m => canRead (mkTimecode m)) ms)
  /\ List.map markerComment (markersOf rate ms)
     = List.map mkComment (filter (fun m => canRead (mkTimecode m)) ms)
  /\ List.map markerColor (markersOf rate ms)
     = List.map mkColor (filter (fun m => canRead (mkTimecode m)) ms).
Proof.
  induction ms as [|m ms (IH1 & IH2 & IH3)]; [repeat split|].
  cbn [markersOf filter].
  destruct (FromTimecode (mkTimecode m) rate) as [t|] eqn:E.
  - assert (C : canRead (mkTimecode m) = true) by (unfold canRead; now rewrite E).
    rewrite C. cbn [List.map markerName markerComment markerColor].
    rewrite IH1, IH2, IH3. repeat split.
  - assert (C : canRead (mkTimecode m) = false) by (unfold canRead; now rewrite E).
    rewrite C. repeat split; assumption.
Qed.

End TrackBuilder.

(** ** [eventsToTimeline]: the groups of events *)

(** The events of one track identifier, in their order. *)
Definition groupOf (k : TrackType) (evs : list EDLEvent) : list EDLEvent :=
  filter (fun ev => gostring_eqb k (evTrackType ev)) evs.

Lemma groupOf_app (k : TrackType) (a b : list EDLEvent) :
  groupOf k (a ++ b) = groupOf k a ++ groupOf k b.
Proof. apply filter_app. Qed.

(** The map after the events [done]: one entry per track identifier met,
    holding the events of that identifier. *)
Definition grouped (m : list (TrackType * list EDLEvent)) (done : list EDLEvent) : Prop :=
  NoDup (List.map fst m)
  /\ Forall (fun entry => snd entry = groupOf (fst entry) done /\ snd entry <> []) m
  /\ forall ev, In ev done -> In (evTrackType ev) (List.map fst m).

Lemma mapAppend_keys (m : list (TrackType * list EDLEvent)) (ev : EDLEvent) :
  (In (evTrackType ev) (List.map fst m) -> List.map fst (mapAppend m ev) = List.map fst m)
  /\ (~ In (evTrackType ev) (List.map fst m) ->
      mapAppend m ev = m ++ [(evTrackType ev, [ev])]).
Proof.
  induction m as [|[k v] m [IH1 IH2]]; cbn [mapAppend List.map fst].
  - split; [intros []|reflexivity].
  - destruct (gostring_eqb k (evTrackType ev)) eqn:E.
    + apply gostring_eqb_eq in E. split; [reflexivity|].
      intro H. exfalso. apply H. now left.
    + apply gostring_eqb_neq in E. split.
      * intros [H|H]; [contradiction|]. cbn [List.map fst]. now rewrite IH1.
      * intro H. cbn [app]. rewrite IH2; [reflexivity|]. intro H'. apply H. now right.
Qed.

Lemma groupOf_none (k : TrackType) (done : list EDLEvent) (keys : list TrackType) :
  (forall ev, In ev done -> In (evTrackType ev) keys) ->
  ~ In k keys -> groupOf k done = [].
Proof.
  intros Hall Hk. induction done as [|ev done IH]; [reflexivity|].
  cbn [groupOf filter]. destruct (gostring_eqb k (evTrackType ev)) eqn:E.
  - apply gostring_eqb_eq in E. exfalso. apply Hk. rewrite E. apply Hall. now left.
  - apply IH. intros ev' H. apply Hall. now right.
Qed.

Lemma mapAppend_entries (done : list EDLEvent) (ev : EDLEvent)
    (m : list (TrackType * list EDLEvent)) :
  NoDup (List.map fst m) ->
  Forall (fun entry => snd entry = groupOf (fst entry) done /\ snd entry <> []) m ->
  In (evTrackType ev) (List.map fst m) ->
  Forall (fun entry => snd entry = groupOf (fst entry) (done ++ [ev]) /\ snd entry <> [])
         (mapAppend m ev).
Proof.
  induction m as [|[k v] m IH]; intros Hnd HF Hin; [destruct Hin|].
  cbn [List.map fst] in Hnd, Hin. inversion Hnd as [|? ? Hk Hnd']; subst.
  inversion HF as [|? ? [Hv Hne] HF']; subst. cbn [fst snd] in Hv, Hne.
  cbn [mapAppend]. destruct (gostring_eqb k (evTrackType ev)) eqn:E.
  - constructor; cbn [fst snd].
    + rewrite groupOf_app. cbn [groupOf filter]. rewrite E. fold (groupOf k done).
      rewrite Hv. split; [reflexivity|]. now destruct (groupOf k done).
    + apply gostring_eqb_eq in E. subst k.
      rewrite Forall_forall in HF'. apply Forall_forall. intros [k' v'] Hin'.
      destruct (HF' _ Hin') as [Hv' Hne']. cbn [fst snd] in *.
      split; [|exact Hne']. rewrite groupOf_app. cbn [groupOf filter].
      destruct (gostring_eqb k' (evTrackType ev)) eqn:E'.
      * apply gostring_eqb_eq in E'. subst k'. exfalso. apply Hk.
        apply (in_map fst) in Hin'. exact Hin'.
      * fold (groupOf k' done). now rewrite app_nil_r.
  - apply gostring_eqb_neq in E. destruct Hin as [Hin|Hin]; [contradiction|].
    constructor; cbn [fst snd].
    + rewrite groupOf_app. cbn [groupOf filter].
      replace (gostring_eqb k (evTrackType ev)) with false
        by (symmetry; now apply gostring_eqb_neq).
      fold (groupOf k done). rewrite app_nil_r. now split.
    + now apply IH.
Qed.

Lemma grouped_mapAppend (m : list (TrackType * list EDLEvent)) (done : list EDLEvent)
    (ev : EDLEvent) :
  grouped m done -> grouped (mapAppend m ev) (done ++ [ev]).
Proof.
  intros (Hnd & HF & Hall).
  destruct (mapAppend_keys m ev) as [K1 K2].
  destruct (in_dec (list_eq_dec N.eq_dec) (evTrackType ev) (List.map fst m)) as [Hin|Hout].
  - split; [|split].
    + now rewrite K1.
    + now apply mapAppend_entries.
    + rewrite K1 by exact Hin. intros ev' H. apply in_app_or in H as [H|[<-|[]]].
      * now apply Hall.
      * exact Hin.
  - rewrite K2 by exact Hout. split; [|split].
    + rewrite map_app. cbn [List.map fst].
      apply NoDup_app; [exact Hnd|repeat constructor; intros []|].
      intros k H1 [<-|[]]. contradiction.
    + apply Forall_app. split.
      * rewrite Forall_forall in HF. apply Forall_forall. intros [k v] Hin.
        destruct (HF _ Hin) as [Hv Hne]. cbn [fst snd] in *. split; [|exact Hne].
        rewrite groupOf_app. cbn [groupOf filter].
        destruct (gostring_eqb k (evTrackType ev)) eqn:E.
        -- apply gostring_eqb_eq in E. subst k. exfalso. apply Hout.
           apply (in_map fst) in Hin. exact Hin.
        -- fold (groupOf k done). now rewrite app_nil_r.
      * constructor; [|constructor]. cbn [fst snd]. split; [|discriminate].
        rewrite groupOf_app, (groupOf_none _ _ _ Hall Hout).
        cbn [groupOf filter app]. now rewrite gostring_eqb_refl.
    + rewrite map_app. cbn [List.map fst]. intros ev' H.
      apply in_or_app. apply in_app_or in H as [H|[<-|[]]].
      * left. now apply Hall.
      * right. now left.
Qed.

Lemma fold_mapAppend_grouped (evs : list EDLEvent) :
  forall m done, grouped m done -> grouped (fold_left mapAppend evs m) (done ++ evs).
Proof.
  induction evs as [|ev evs IH]; intros m done H; cbn [fold_left].
  - now rewrite app_nil_r.
  - replace (done ++ ev :: evs) with ((done ++ [ev]) ++ evs)
      by (rewrite <- app_assoc; reflexivity).
    apply IH. now apply grouped_mapAppend.
Qed.

Lemma trackMapOf_grouped (evs : list EDLEvent) : grouped (trackMapOf evs) evs.
Proof.
  unfold trackMapOf. apply (fold_mapAppend_grouped evs [] []).
  split; [constructor|]. split; [constructor|]. intros ev [].
Qed.

Section TracksByType.
Context {OT : Opentime} {CT : CaseTable}.
Variable rate : Q.

(** The tracks of the timeline [Decode] returns. *)
Lemma Decode_tracks (text : gostring) (evs : list EDLEvent) (t : Timeline) :
  parseEvents (ScanLines text) = Ok evs ->
  Decode rate text (Ok t) ->
  NoDup (List.map trackName (timelineTracks t))
  /\ (forall ev, In ev evs -> In (evTrackType ev) (List.map trackName (timelineTracks t)))
  /\ Forall (fun tr =>
               Forall2 (clipOfEvent rate) (groupOf (trackName tr) evs)
                       (clipsIn (trackChildren tr))
               /\ clipsIn (trackChildren tr) <> []
               /\ trackKind tr
                  = (if IsAudioTrack (trackName tr) then TrackKindAudio
                     else TrackKindVideo))
            (timelineTracks t).
Proof.
  intros Hp Hd. unfold Decode in Hd. rewrite Hp in Hd.
  destruct Hd as (order & Hperm & Hd). unfold eventsToTimelineIn in Hd.
  destruct (buildTracks rate order []) as [tracks|] eqn:B; cbn [bind] in Hd; [|discriminate].
  injection Hd as ->. cbn [timelineTracks].
  apply buildTracks_ok in B as (built & F & ->). cbn [app].
  destruct (trackMapOf_grouped evs) as (Hnd & HF & Hall).
  assert (Hnames : List.map trackName built = List.map fst order).
  { clear Hperm. induction F as [|[k g] tr order' built' Hx _ IH]; [reflexivity|].
    cbn [List.map fst]. unfold trackOfEntry in Hx. cbn [fst snd] in Hx.
    apply createTrack_ok in Hx as (-> & _). now rewrite IH. }
  assert (HF' : Forall (fun entry => snd entry = groupOf (fst entry) evs /\ snd entry <> [])
                       order).
  { rewrite Forall_forall in HF. apply Forall_forall. intros e He. apply HF.
    eapply Permutation_in; eassumption. }
  split; [|split].
  - rewrite Hnames. eapply Permutation_NoDup; [|exact Hnd].
    apply Permutation_map, Permutation_sym, Hperm.
  - intros ev Hin. rewrite Hnames.
    eapply Permutation_in; [apply Permutation_map, Permutation_sym, Hperm|].
    now apply Hall.
  - clear Hperm Hnames. induction F as [|[k g] tr order' built' Hx _ IH]; [constructor|].
    inversion HF' as [|? ? [Hg Hne] HF'']; subst. cbn [fst snd] in Hg, Hne.
    constructor; [|now apply IH].
    unfold trackOfEntry in Hx. cbn [fst snd] in Hx.
    apply createTrack_ok in Hx as (Hn & Hk & Hc). rewrite Hn, <- Hg.
    split; [exact Hc|]. split; [|exact Hk].
    intro E. rewrite E in Hc. inversion Hc. congruence.
Qed.

(** X16. In the timeline [Decode] returns there is one track per track
    identifier that occurs in the events, named after it, no two tracks
    with the same name; each track holds the clips of exactly the events
    of its identifier, in the order of the text, and at least one. *)
Theorem Decode_tracks_by_type (text : gostring) (evs : list EDLEvent) (t : Timeline) :
  parseEvents (ScanLines text) = Ok evs ->
  Decode rate text (Ok t) ->
  NoDup (List.map trackName (timelineTracks t))
  /\ (forall ev, In ev evs -> In (evTrackType ev) (List.map trackName (timelineTracks t)))
  /\ Forall (fun tr =>
               Forall2 (clipOfEvent rate) (groupOf (trackName tr) evs)
                       (clipsIn (trackChildren tr))
               /\ clipsIn (trackChildren tr) <> [])
            (timelineTracks t).
Proof.
  intros Hp Hd. destruct (Decode_tracks text evs t Hp Hd) as (H1 & H2 & H3).
  split; [exact H1|]. split; [exact H2|].
  eapply Forall_impl; [|exact H3]. intros tr (A & B & _). now split.
Qed.

Lemma filter_two {A : Type} (p : A -> bool) (a b : A) (l : list A) :
  In a l -> In b l -> a <> b -> p a = true -> p b = true ->
  (2 <= List.length (filter p l))%nat.
Proof.
  intros Ha Hb Hab Pa Pb.
  assert (Ha' : In a (filter p l)) by (apply filter_In; now split).
  assert (Hb' : In b (filter p l)) by (apply filter_In; now split).
  destruct (filter p l) as [|x [|y l']]; cbn [List.length]; [destruct Ha'| |lia].
  exfalso. destruct Ha' as [<-|[]]. destruct Hb' as [<-|[]]. now apply Hab.
Qed.

(** X17. [Decode] accepts texts whose timeline [Encode] refuses: when two
    events carry different track identifiers neither of which is A, A1,
    A2, A3 or A4 (V and AA, say, or A5 and A6), the timeline has two
    video tracks, and [Encode] returns the error for more than one video
    track. *)
Theorem Decode_then_Encode_refused
    (text : gostring) (evs : list EDLEvent) (ev1 ev2 : EDLEvent) (t : Timeline)
    (e : Encoder) (w : gostring) :
  parseEvents (ScanLines text) = Ok evs ->
  In ev1 evs -> In ev2 evs ->
  evTrackType ev1 <> evTrackType ev2 ->
  IsAudioTrack (evTrackType ev1) = false ->
  IsAudioTrack (evTrackType ev2) = false ->
  Decode rate text (Ok t) ->
  fst (Encode e (Some t) w)
  = Some (EncodeError (go "EDL format supports only one video track")).
Proof.
  intros Hp Hin1 Hin2 Hne Ha1 Ha2 Hd.
  destruct (Decode_tracks text evs t Hp Hd) as (_ & Hall & HF).
  rewrite Forall_forall in HF.
  assert (Htr : forall ev, In ev evs -> IsAudioTrack (evTrackType ev) = false ->
                exists tr, In tr (timelineTracks t) /\ trackName tr = evTrackType ev
                           /\ gostring_eqb (trackKind tr) TrackKindVideo = true).
  { intros ev Hin Ha. apply Hall in Hin. apply in_map_iff in Hin as (tr & Hn & Hin).
    exists tr. split; [exact Hin|]. split; [exact Hn|].
    destruct (HF tr Hin) as (_ & _ & Hk). now rewrite Hk, Hn, Ha. }
  destruct (Htr ev1 Hin1 Ha1) as (tr1 & I1 & N1 & K1).
  destruct (Htr ev2 Hin2 Ha2) as (tr2 & I2 & N2 & K2).
  assert (Hlen : (2 <= List.length (VideoTracks t))%nat).
  { unfold VideoTracks. apply (filter_two _ tr1 tr2); try assumption. congruence. }
  unfold Encode.
  replace (1 <? Z.of_nat (List.length (VideoTracks t))) with true
    by (symmetry; apply Z.ltb_lt; lia).
  reflexivity.
Qed.

(** X18. When all events carry the same track identifier, all runs of
    [Decode] return the same result: the order in which the range over
    the map visits the groups matters only from two identifiers on. *)
Theorem Decode_one_track_type
    (text : gostring) (evs : list EDLEvent) (trackType : TrackType)
    (r1 r2 : result Timeline) :
  parseEvents (ScanLines text) = Ok evs ->
  Forall (fun ev => evTrackType ev = trackType) evs ->
  Decode rate text r1 -> Decode rate text r2 -> r1 = r2.
Proof.
  intros Hp Hall H1 H2. unfold Decode in H1, H2. rewrite Hp in H1, H2.
  destruct H1 as (o1 & P1 & ->). destruct H2 as (o2 & P2 & ->).
  destruct (trackMapOf_grouped evs) as (Hnd & HF & _).
  assert (Hkeys : forall k, In k (List.map fst (trackMapOf evs)) -> k = trackType).
  { intros k Hk. apply in_map_iff in Hk as ([k' g] & <- & Hin).
    rewrite Forall_forall in HF. destruct (HF _ Hin) as [Hg Hne]. cbn [fst snd] in *.
    destruct g as [|ev g]; [contradiction|].
    assert (Hev : In ev (groupOf k' evs)) by (rewrite <- Hg; now left).
    unfold groupOf in Hev. apply filter_In in Hev as [Hin' E].
    apply gostring_eqb_eq in E. rewrite Forall_forall in Hall. rewrite E. now apply Hall. }
  assert (Hlen : (List.length (trackMapOf evs) <= 1)%nat).
  { destruct (trackMapOf evs) as [|[k1 g1] [|[k2 g2] m]]; cbn [List.length]; try lia.
    exfalso. cbn [List.map fst] in Hnd, Hkeys. inversion Hnd as [|? ? Hk _]; subst.
    apply Hk. left.
    transitivity trackType; [apply Hkeys; right; now left|symmetry; apply Hkeys; now left]. }
  assert (Hsame : forall o, Permutation o (trackMapOf evs) -> o = trackMapOf evs).
  { intros o P. destruct (trackMapOf evs) as [|entry [|? ?]]; [| |cbn in Hlen; lia].
    - apply Permutation_sym, Permutation_nil in P. exact P.
    - apply Permutation_sym, Permutation_length_1_inv in P. exact P. }
  now rewrite (Hsame o1 P1), (Hsame o2 P2).
Qed.

End TracksByType.

(** ** The encoder: what it writes and what it does not look at *)

(** encoder.go: [SetStyle], [SetReelNameLength], [SetRate]. *)
Definition SetStyle (e : Encoder) (s : gostring) : Encoder :=
  mkEncoder s (reelNameLen e) (encRate e).

Definition SetReelNameLength (e : Encoder) (length : Z) : Encoder :=
  mkEncoder (style e) length (encRate e).

Definition Encoder_SetRate (e : Encoder) (rate : Q) : Encoder :=
  mkEncoder (style e) (reelNameLen e) rate.

Section EncoderOutput.
Context {OT : Opentime}.

(** Two encoders with the same reel name length and rate, writing after
    two texts: the same numbers, the same error, the same text added. *)
Lemma writeChildren_same (e1 e2 : Encoder) (trackType : TrackType) (k : nat) :
  reelNameLen e1 = reelNameLen e2 -> encRate e1 = encRate e2 ->
  forall (children : list Composable) (n : Z) (recordTime : RationalTime)
         (w1 w2 : gostring),
    (List.length children <= k)%nat ->
    exists n' er out,
      writeChildren e1 trackType children n recordTime w1 = (n', er, w1 ++ out)
      /\ writeChildren e2 trackType children n recordTime w2 = (n', er, w2 ++ out).
Proof.
  intros Hlen Hrate.
  assert (Hev : forall n rt clip d sr next,
             eventOfClip e1 trackType n rt clip d sr next
             = eventOfClip e2 trackType n rt clip d sr next).
  { intros. unfold eventOfClip, reelNameOf, formatTimecode. now rewrite Hlen, Hrate. }
  induction k as [|k IH]; intros children n recordTime w1 w2 Hk.
  - destruct children; [|cbn in Hk; lia].
    exists n, None, []. cbn [writeChildren]. now rewrite !app_nil_r.
  - destruct children as [|child rest].
    { exists n, None, []. cbn [writeChildren]. now rewrite !app_nil_r. }
    cbn [List.length] in Hk.
    destruct child as [clip|gap|tr|other]; cbn [writeChildren].
    + destruct (Clip_Duration clip) as [duration|er1].
      2:{ exists n, (Some er1), []. now rewrite !app_nil_r. }
      destruct (match clipSourceRange clip with
                | Some r => Ok r
                | None => Clip_AvailableRange clip
                end) as [sourceRange|er1].
      2:{ exists n, (Some er1), []. now rewrite !app_nil_r. }
      rewrite Hev.
      set (event := eventOfClip e2 trackType n recordTime clip duration sourceRange rest).
      assert (Hrec : forall rest',
                 (List.length rest' <= k)%nat ->
                 exists n' er out,
                   writeChildren e1 trackType rest' (n + 1) (Add recordTime duration)
                     (writeEvent event w1) = (n', er, w1 ++ out)
                   /\ writeChildren e2 trackType rest' (n + 1) (Add recordTime duration)
                        (writeEvent event w2) = (n', er, w2 ++ out)).
      { intros rest' Hl.
        destruct (IH rest' (n + 1) (Add recordTime duration) (writeEvent event w1)
                     (writeEvent event w2) Hl) as (n' & er & out & R1 & R2).
        exists n', er, (eventText event ++ out). unfold writeEvent in *.
        rewrite <- !app_assoc in R1, R2. now split. }
      destruct rest as [|[c|g|t|o] rest']; apply Hrec; cbn [List.length] in *; lia.
    + destruct (Gap_Duration gap) as [duration|er1].
      2:{ exists n, (Some er1), []. now rewrite !app_nil_r. }
      apply IH. lia.
    + apply IH. lia.
    + apply IH. lia.
Qed.

Lemma writeAudioTracks_same (e1 e2 : Encoder) (audioTracks : list Track) :
  reelNameLen e1 = reelNameLen e2 -> encRate e1 = encRate e2 ->
  forall (i : nat) (n : Z) (w1 w2 : gostring),
    exists n' er out,
      writeAudioTracks e1 audioTracks i n w1 = (n', er, w1 ++ out)
      /\ writeAudioTracks e2 audioTracks i n w2 = (n', er, w2 ++ out).
Proof.
  intros Hlen Hrate.
  induction audioTracks as [|track rest IH]; intros i n w1 w2; cbn [writeAudioTracks].
  - exists n, None, []. now rewrite !app_nil_r.
  - unfold writeTrackEvents. rewrite <- Hrate.
    destruct (writeChildren_same e1 e2 (audioTrackType i) _ Hlen Hrate
                (trackChildren track) n (NewRationalTime 0 (encRate e1)) w1 w2
                (Nat.le_refl _)) as (n1 & er1 & out1 & -> & ->).
    destruct er1 as [er1|].
    + now exists n1, (Some er1), out1.
    + destruct (IH (S i) n1 (w1 ++ out1) (w2 ++ out1)) as (n2 & er2 & out2 & -> & ->).
      exists n2, er2, (out1 ++ out2). now rewrite !app_assoc.
Qed.

Lemma Encode_same (e1 e2 : Encoder) (t : option Timeline) (w1 w2 : gostring) :
  reelNameLen e1 = reelNameLen e2 -> encRate e1 = encRate e2 ->
  exists er out,
    Encode e1 t w1 = (er, w1 ++ out) /\ Encode e2 t w2 = (er, w2 ++ out).
Proof.
  intros Hlen Hrate. destruct t as [t|]; cbn [Encode].
  2:{ eexists _, []. now rewrite !app_nil_r. }
  unfold Encode.
  set (header := go "TITLE: "
                 ++ (if gostring_eqb (timelineName t) (go "") then go "Timeline"
                     else timelineName t)
                 ++ newline ++ go "FCM: NON-DROP FRAME" ++ newline ++ newline).
  assert (Hh : forall w, writeHeader t w = w ++ header) by reflexivity.
  rewrite !Hh.
  destruct (1 <? Z.of_nat (List.length (VideoTracks t))); [now eexists _, header|].
  destruct (VideoTracks t) as [|track vs].
  - destruct (writeAudioTracks_same e1 e2 (AudioTracks t) Hlen Hrate 0 1
                (w1 ++ header) (w2 ++ header)) as (n2 & er2 & out2 & -> & ->).
    exists er2, (header ++ out2). now rewrite <- !app_assoc.
  - unfold writeTrackEvents. rewrite <- Hrate.
    destruct (writeChildren_same e1 e2 TrackTypeVideo _ Hlen Hrate
                (trackChildren track) 1 (NewRationalTime 0 (encRate e1))
                (w1 ++ header) (w2 ++ header) (Nat.le_refl _))
      as (n1 & er1 & out1 & -> & ->).
    destruct er1 as [er1|].
    + exists (Some er1), (header ++ out1). now rewrite <- !app_assoc.
    + destruct (writeAudioTracks_same e1 e2 (AudioTracks t) Hlen Hrate 0 n1
                  ((w1 ++ header) ++ out1) ((w2 ++ header) ++ out1))
        as (n2 & er2 & out2 & -> & ->).
      exists er2, (header ++ out1 ++ out2). now rewrite <- !app_assoc.
Qed.


(** X20. The output style is never looked at: after [SetStyle], whatever
    the style, [Encode] returns the same error and writes the same text. *)
Theorem Encode_ignores_style (e : Encoder) (s : gostring) (t : option Timeline)
    (w : gostring) :
  Encode (SetStyle e s) t w = Encode e t w.
Proof.
  destruct (Encode_same (SetStyle e s) e t w w eq_refl eq_refl) as (er & out & -> & ->).
  reflexivity.
Qed.

Lemma replaceSemicolons_none (tc : gostring) :
  forallb (fun c => negb (rune_eqb c 59%N)) (replaceSemicolons tc) = true.
Proof.
  unfold replaceSemicolons. induction tc as [|c tc IH]; [reflexivity|].
  cbn [List.map forallb]. rewrite IH, andb_true_r.
  destruct (rune_eqb c 59%N) eqn:E; [reflexivity|]. now rewrite E.
Qed.

(** X21. At a rate that is not a drop-frame rate (outside 29.96 to 29.98
    and 59.93 to 59.95), the timecode [formatTimecode] returns holds no
    semicolon, whatever package [opentime] printed. *)
Theorem formatTimecode_no_semicolon (e : Encoder) (t : RationalTime) :
  isDropFrameRate (encRate e) = false ->
  forallb (fun c => negb (rune_eqb c 59%N)) (formatTimecode e t) = true.
Proof.
  intro H. unfold formatTimecode. rewrite H. cbn [negb].
  destruct (ToTimecode (RescaledTo t (encRate e)) (encRate e)); [|reflexivity].
  apply replaceSemicolons_none.
Qed.

Lemma Clip_AvailableRange_error (clip : Clip) (er : error) :
  Clip_AvailableRange clip = Err er -> exists msg, er = ItemError msg.
Proof.
  unfold Clip_AvailableRange.
  destruct (clipMediaReference clip) as [m|].
  - destruct (MediaReference_AvailableRange m); [discriminate|].
    intro H; injection H as <-. eexists. reflexivity.
  - intro H; injection H as <-. eexists. reflexivity.
Qed.

Lemma Clip_Duration_error (clip : Clip) (er : error) :
  Clip_Duration clip = Err er -> exists msg, er = ItemError msg.
Proof.
  unfold Clip_Duration. destruct (clipSourceRange clip); [discriminate|].
  destruct (Clip_AvailableRange clip) as [r|er1] eqn:E; cbn [bind]; [discriminate|].
  intro H; injection H as <-. eapply Clip_AvailableRange_error; eassumption.
Qed.

(** The errors of [writeTrackEvents] are those of the durations and
    ranges of the items. *)
Lemma writeChildren_error (e : Encoder) (trackType : TrackType) (k : nat) :
  forall (children : list Composable) (n : Z) (recordTime : RationalTime)
         (w : gostring) (n' : Z) (er : error) (w' : gostring),
    (List.length children <= k)%nat ->
    writeChildren e trackType children n recordTime w = (n', Some er, w') ->
    exists msg, er = ItemError msg.
Proof.
  induction k as [|k IH]; intros children n recordTime w n' er w' Hlen H.
  - destruct children; [discriminate|cbn in Hlen; lia].
  - destruct children as [|child rest]; [discriminate|]. cbn [List.length] in Hlen.
    destruct child as [clip|gap|tr|other]; cbn [writeChildren] in H.
    + destruct (Clip_Duration clip) as [duration|er1] eqn:Ed.
      2:{ injection H as _ <- _. eapply Clip_Duration_error; eassumption. }
      destruct (match clipSourceRange clip with
                | Some r => Ok r
                | None => Clip_AvailableRange clip
                end) as [sourceRange|er1] eqn:Es.
      2:{ injection H as _ <- _. destruct (clipSourceRange clip); [discriminate|].
          eapply Clip_AvailableRange_error; eassumption. }
      destruct rest as [|[c|g|t|o] rest']; (eapply IH; [|exact H]);
        cbn [List.length] in *; lia.
    + destruct (Gap_Duration gap) as [duration|er1] eqn:Eg.
      2:{ injection H as _ <- _. unfold Gap_Duration in Eg.
          destruct (gapDuration gap); [discriminate|]. injection Eg as <-.
          eexists. reflexivity. }
      eapply IH; [|exact H]; lia.
    + eapply IH; [|exact H]; lia.
    + eapply IH; [|exact H]; lia.
Qed.

Lemma writeAudioTracks_error (e : Encoder) (audioTracks : list Track) :
  forall (i : nat) (n : Z) (w : gostring) (n' : Z) (er : error) (w' : gostring),
    writeAudioTracks e audioTracks i n w = (n', Some er, w') ->
    exists msg, er = ItemError msg.
Proof.
  induction audioTracks as [|track rest IH]; intros i n w n' er w' H;
    cbn [writeAudioTracks] in H; [discriminate|].
  destruct (writeTrackEvents e track (audioTrackType i) n w) as [[n1 er1] w1] eqn:E.
  destruct er1 as [er1|].
  - injection H as _ <- _. unfold writeTrackEvents in E.
    eapply writeChildren_error; [apply Nat.le_refl|exact E].
  - eapply IH; exact H.
Qed.

(** The outcome of [Encode], error or not. *)
Lemma Encode_outcome (e : Encoder) (t : Timeline) (w : gostring)
    (er : option error) (w' : gostring) :
  Encode e (Some t) w = (er, w') ->
  (exists evs,
     w' = writeHeader t w ++ List.concat (List.map eventText evs)
     /\ List.map EventNumber evs = countFrom 1 (List.length evs))
  /\ (er = None
      \/ er = Some (EncodeError (go "EDL format supports only one video track"))
      \/ exists msg, er = Some (ItemError msg)).
Proof.
  unfold Encode.
  destruct (1 <? Z.of_nat (List.length (VideoTracks t))).
  { intro H; injection H as <- <-. split; [|right; now left].
    exists []. cbn. now rewrite app_nil_r. }
  intro H.
  assert (Hv : exists n1 er1 w1 vevs,
             wrote (writeHeader t w) w1 1 n1 vevs
             /\ (er1 = None \/ exists msg, er1 = Some (ItemError msg))
             /\ (match er1 with
                 | Some er0 => (Some er0, w1)
                 | None =>
                     let '(_, er0, w3) := writeAudioTracks e (AudioTracks t) 0 n1 w1 in
                     (er0, w3)
                 end) = (er, w')).
  { destruct (VideoTracks t) as [|track ?].
    - exists 1, None, (writeHeader t w), []. split; [apply wrote_nil|].
      split; [now left|exact H].
    - destruct (writeTrackEvents e track TrackTypeVideo 1 (writeHeader t w))
        as [[n1 er1] w1] eqn:E.
      pose proof E as E'. apply writeTrackEvents_wrote in E' as (vevs & Hw & _).
      exists n1, er1, w1, vevs. split; [exact Hw|]. split; [|exact H].
      destruct er1 as [er1|]; [right|now left]. unfold writeTrackEvents in E.
      destruct (writeChildren_error _ _ _ _ _ _ _ _ _ _ (Nat.le_refl _) E) as (msg & ->).
      now exists msg. }
  destruct Hv as (n1 & er1 & w1 & vevs & Hwv & Her1 & Ha).
  destruct er1 as [er1|].
  - injection Ha as <- <-. destruct Hwv as (Hw & Hn & _). split.
    + exists vevs. now split.
    + destruct Her1 as [Her1|(msg & Her1)]; [discriminate|]. right; right.
      exists msg. exact Her1.
  - destruct (writeAudioTracks e (AudioTracks t) 0 n1 w1) as [[n2 er2] w2] eqn:E.
    injection Ha as <- <-. pose proof E as E'.
    apply writeAudioTracks_wrote in E' as (aevs & Hwa & _).
    pose proof (wrote_app _ _ _ _ _ _ _ _ Hwv Hwa) as (Hw & Hn & _). split.
    + exists (vevs ++ aevs). now split.
    + destruct er2 as [er2|]; [|now left]. right; right.
      destruct (writeAudioTracks_error _ _ _ _ _ _ _ _ E) as (msg & ->). now exists msg.
Qed.


End EncoderOutput.

(** ** Decoding, then encoding *)

Section DecodeThenEncode.
Context {OT : Opentime} {CT : CaseTable}.
Variable drate : Q.
Variable e : Encoder.

Lemma Decode_timelineName (text : gostring) (t : Timeline) :
  Decode drate text (Ok t) -> timelineName t = go "".
Proof.
  unfold Decode. destruct (parseEvents (ScanLines text)) as [evs|]; [|discriminate].
  intros (order & _ & H). unfold eventsToTimelineIn in H.
  destruct (buildTracks drate order []); cbn [bind] in H; [|discriminate].
  now injection H as ->.
Qed.

(** X23. The title of the text is lost: the timeline [Decode] returns has
    the empty name whatever the TITLE line says, so [Encode] of that
    timeline starts its output with the title "Timeline" and the frame
    count mode NON-DROP FRAME. *)
Theorem Decode_then_Encode_title (text : gostring) (t : Timeline) (w : gostring) :
  Decode drate text (Ok t) ->
  timelineName t = go ""
  /\ exists rest,
       snd (Encode e (Some t) w)
       = w ++ go "TITLE: Timeline" ++ newline ++ go "FCM: NON-DROP FRAME" ++ newline
         ++ newline ++ rest.
Proof.
  intro H. apply Decode_timelineName in H. split; [exact H|].
  destruct (Encode e (Some t) w) as [er w'] eqn:E.
  apply Encode_outcome in E as ((evs & -> & _) & _).
  exists (List.concat (List.map eventText evs)). cbn [snd].
  unfold writeHeader. rewrite H. change (gostring_eqb (go "") (go "")) with true.
  cbn iota. rewrite <- !app_assoc. reflexivity.
Qed.

(** X24. What a text with one event is rewritten as.  [Encode] of its
    timeline succeeds and writes, after the header, one event: numbered
    1 whatever the number in the text, a cut whatever the edit type in
    the text (a dissolve or wipe and its duration are lost), on V or A1,
    with the record side starting at zero, and with the clip name of the
    timeline in its FROM CLIP NAME line. *)
Theorem one_event_rewritten (text : gostring) (ev : EDLEvent) (t : Timeline) :
  IsValidTime zeroRationalTime = false ->
  parseEvents (ScanLines text) = Ok [ev] ->
  Decode drate text (Ok t) ->
  exists ev',
    Encode e (Some t) []
    = (None,
       go "TITLE: Timeline" ++ newline ++ go "FCM: NON-DROP FRAME" ++ newline ++ newline
       ++ eventText ev')
    /\ EventNumber ev' = 1
    /\ evEditType ev' = EditTypeCut /\ TransitionDuration ev' = 0
    /\ evTrackType ev'
       = (if IsAudioTrack (evTrackType ev) then TrackTypeAudio1 else TrackTypeVideo)
    /\ RecordIn ev' = formatTimecode e (NewRationalTime 0 (encRate e))
    /\ ClipName ev' = clipNameOf ev.
Proof.
  intros Hz Hp Hd. unfold Decode in Hd. rewrite Hp in Hd.
  apply eventsToTimeline_single in Hd. symmetry in Hd.
  apply eventsToTimelineIn_single in Hd as (si & so & ri & ro & _ & _ & _ & _ & ->);
    [|exact Hz].
  eexists. split; [apply (Encode_single drate e ev si so)|].
  repeat split.
Qed.

End DecodeThenEncode.

(** ** The event header [writeEvent] writes, read by [eventLineRegex] *)

(** The first line of [eventText]. *)
Definition eventLineOf (event : EDLEvent) : gostring :=
  let eventLine :=
    Sprintf03d (EventNumber event) ++ go "  " ++ padRight space 8 (ReelName event)
    ++ go " " ++ evTrackType event ++ go "    " ++ padRight space 2 (evEditType event) in
  if gostring_eqb (evEditType event) EditTypeDissolve && (0 <? TransitionDuration event)
  then eventLine ++ go "   " ++ Sprintf03d (TransitionDuration event)
  else eventLine.

Lemma eventText_eventLineOf (event : EDLEvent) :
  exists rest, eventText event = eventLineOf event ++ newline ++ rest.
Proof. unfold eventText, eventLineOf. eexists. reflexivity. Qed.

Lemma digitsValue_digits (s : gostring) :
  forall a v, digitsValue a s = Some v -> forallb cls_d s = true.
Proof.
  induction s as [|c s IH]; intros a v; cbn [digitsValue forallb]; [reflexivity|].
  destruct (cls_d c); [|discriminate]. intro H. cbn [andb]. eapply IH; eassumption.
Qed.

Lemma Atoi_digits (s : gostring) (v : Z) :
  s <> [] -> digitsValue 0 s = Some v -> v <= maxInt64 -> Atoi s = v.
Proof.
  intros Hne Hv Hmax. destruct s as [|c s]; [contradiction|].
  pose proof (digitsValue_digits _ _ _ Hv) as Hd.
  cbn [forallb] in Hd. apply andb_true_iff in Hd as [Hc _].
  unfold cls_d in Hc. apply in_range_iff in Hc. unfold r0, r9 in Hc.
  unfold Atoi.
  replace (rune_eqb c 45%N) with false by (symmetry; apply N.eqb_neq; lia).
  replace (rune_eqb c 43%N) with false by (symmetry; apply N.eqb_neq; lia).
  rewrite Hv. lia.
Qed.

Lemma Sprintf03d_digits (n : Z) :
  0 < n ->
  Sprintf03d n <> [] /\ forallb cls_d (Sprintf03d n) = true
  /\ (n <= maxInt64 -> Atoi (Sprintf03d n) = n).
Proof.
  intro Hn. destruct (Sprintf03d_positive n Hn) as (Hv & Hlen & _).
  assert (Hne : Sprintf03d n <> []).
  { intro E. rewrite E in Hlen. cbn in Hlen. lia. }
  split; [exact Hne|]. split; [eapply digitsValue_digits; exact Hv|].
  intro Hmax. now apply Atoi_digits.
Qed.

(** The track identifiers and edit types the encoder writes. *)
Definition writtenTrack (tt : TrackType) : Prop :=
  In tt [TrackTypeVideo; TrackTypeAudio; TrackTypeAudio1; TrackTypeAudio2;
         TrackTypeAudio3; TrackTypeAudio4].

Lemma rmatch_track (tt : TrackType) (rest : gostring) (pos : nat) (c : caps) (k : cont)
    (r : caps) :
  writtenTrack tt ->
  (forall pos', k tt pos' (space :: rest) ((3%nat, tt) :: c) = Some r) ->
  rmatch (Group 3 (Alt (Lit (go "V"))
                       (Alt (Cat (Lit (go "A")) (Opt (Class cls_d))) (Lit (go "AA")))))
         pos (tt ++ space :: rest) c k = Some r.
Proof.
  intros Hin Hk. unfold writtenTrack in Hin. cbn [In] in Hin.
  destruct Hin as [<-|[<-|[<-|[<-|[<-|[<-|[]]]]]]]; cbn in Hk |- *; rewrite Hk;
    reflexivity.
Qed.

Lemma rmatch_edit (ed : EditType) (rest : gostring) (pos : nat) (c : caps) (k : cont)
    (r : caps) :
  ed = EditTypeCut \/ ed = EditTypeDissolve ->
  (forall pos', k ed pos' (space :: rest) ((4%nat, ed) :: c) = Some r) ->
  rmatch (Group 4 (Alt (Lit (go "C"))
                  (Alt (Lit (go "D"))
                  (Alt (Cat (Lit (go "W")) d3)
                  (Alt (Lit (go "KB")) (Lit (go "K")))))))
         pos (ed ++ space :: rest) c k = Some r.
Proof.
  intros [-> | ->] Hk; cbn in Hk |- *; rewrite Hk; reflexivity.
Qed.

(** The end of the header: spaces, then the digits of the duration or
    nothing. *)
Lemma rmatch_duration (sp ds : gostring) (pos : nat) (c : caps) :
  forallb cls_s sp = true -> forallb cls_d ds = true ->
  rmatch (Cat (Star cls_s) (Cat (Opt (Group 5 (Plus cls_d))) Eps)) pos (sp ++ ds) c
         (fun _ _ _ c' => Some c')
  = Some (match ds with [] => c | _ :: _ => (5%nat, ds) :: c end).
Proof.
  intros Hsp Hds. rewrite rmatch_cat.
  apply rmatch_star; [exact Hsp| |cbv beta].
  { destruct ds as [|d ds']; [exact I|]. cbn [stopsAt forallb] in *.
    apply andb_true_iff in Hds as [Hd _]. now apply cls_d_not_space. }
  rewrite rmatch_cat. unfold Opt.
  destruct ds as [|d ds']; [reflexivity|].
  apply rmatch_alt_left. rewrite rmatch_group.
  refine (eq_trans (f_equal (fun s => rmatch (Plus cls_d) _ s _ _)
                            (eq_sym (app_nil_r (d :: ds')))) _).
  apply rmatch_plus; [discriminate|exact Hds|exact I|reflexivity].
Qed.

(** X25. The header line [writeEvent] writes for an event with a positive
    number, a reel name without spaces, one of the track identifiers V,
    A, A1 to A4, and a cut or a dissolve with a duration that is not
    negative, always matches the event header pattern, and the event the
    decoder builds from the match has the same number, reel, track
    identifier, edit type and transition duration, and no wipe code. *)
Theorem eventLineOf_parses (ev : EDLEvent) :
  0 < EventNumber ev <= maxInt64 ->
  ReelName ev <> [] -> forallb cls_S (ReelName ev) = true ->
  writtenTrack (evTrackType ev) ->
  (evEditType ev = EditTypeCut /\ TransitionDuration ev = 0
   \/ evEditType ev = EditTypeDissolve /\ 0 <= TransitionDuration ev <= maxInt64) ->
  WipeCode ev = go "" ->
  exists m,
    FindStringSubmatch eventLineRegex (eventLineOf ev) = Some m
    /\ headerOf (newEvent m) = headerOf ev.
Proof.
  intros Hn Hr1 Hr2 Htt Hed Hw.
  destruct (Sprintf03d_digits (EventNumber ev) ltac:(lia)) as (Nn & Nd & Na).
  specialize (Na ltac:(lia)).
  set (num := Sprintf03d (EventNumber ev)) in *.
  set (reel := ReelName ev) in *. set (tt := evTrackType ev) in *.
  set (pad := (8 - List.length reel)%nat).
  (* the end of the line: the edit type, a space, and what follows *)
  assert (Hend : exists ds : gostring,
             forallb cls_d ds = true
             /\ (ds = [] /\ TransitionDuration ev = 0
                 \/ ds <> [] /\ Atoi ds = TransitionDuration ev)
             /\ exists sp, forallb cls_s sp = true
                  /\ eventLineOf ev
                     = num ++ go "  " ++ reel ++ repeat space pad ++ go " " ++ tt
                       ++ go "    " ++ evEditType ev ++ space :: sp ++ ds).
  { unfold eventLineOf, padRight. fold num reel tt pad.
    destruct Hed as [[Ec Ed]|[Ec Ed]]; rewrite Ec.
    - exists []. split; [reflexivity|]. split; [left; now split|]. exists [].
      split; [reflexivity|]. cbn [andb]. rewrite <- !app_assoc. reflexivity.
    - change (gostring_eqb EditTypeDissolve EditTypeDissolve) with true. cbn [andb].
      destruct (0 <? TransitionDuration ev) eqn:E.
      + apply Z.ltb_lt in E.
        destruct (Sprintf03d_digits (TransitionDuration ev) E) as (Dn & Dd & Da).
        exists (Sprintf03d (TransitionDuration ev)). split; [exact Dd|].
        split; [right; split; [exact Dn|apply Da; lia]|].
        exists (go "   "). split; [reflexivity|]. rewrite <- !app_assoc. reflexivity.
      + apply Z.ltb_ge in E. exists []. split; [reflexivity|].
        split; [left; split; [reflexivity|lia]|]. exists [].
        split; [reflexivity|]. rewrite <- !app_assoc. reflexivity. }
  destruct Hend as (ds & Hds & Hdur & sp & Hsp & ->).
  set (ed := evEditType ev) in *.
  assert (Hed' : ed = EditTypeCut \/ ed = EditTypeDissolve) by (destruct Hed; tauto).
  pose (m := match ds with
             | [] => [(4%nat, ed); (3%nat, tt); (2%nat, reel); (1%nat, num)]
             | _ :: _ => [(5%nat, ds); (4%nat, ed); (3%nat, tt); (2%nat, reel);
                          (1%nat, num)]
             end).
  assert (G : submatch m 1 = num /\ submatch m 2 = reel /\ submatch m 3 = tt
              /\ submatch m 4 = ed /\ submatch m 5 = ds).
  { subst m. destruct ds; repeat split. }
  exists m.
  split.
  - unfold eventLineRegex, Seq. cbn [fold_right]. rewrite FindStringSubmatch_anchored.
    rewrite rmatch_cat.
    apply (rmatch_star cls_s []); [reflexivity| |cbv beta].
    { destruct num as [|d num']; [contradiction|]. cbn [app stopsAt forallb] in *.
      apply andb_true_iff in Nd as [Hd _]. now apply cls_d_not_space. }
    rewrite rmatch_cat, rmatch_group.
    apply (rmatch_plus cls_d num); [exact Nn|exact Nd|reflexivity|cbv beta].
    rewrite rmatch_cat.
    apply (rmatch_plus cls_s (go "  ")); [discriminate|reflexivity| |cbv beta].
    { destruct reel as [|x reel']; [contradiction|].
      cbn [forallb] in Hr2. apply andb_true_iff in Hr2 as [Hx _].
      unfold cls_S in Hx. apply negb_true_iff in Hx. exact Hx. }
    rewrite rmatch_cat, rmatch_group.
    apply (rmatch_plus cls_S reel); [exact Hr1|exact Hr2|apply stopsAt_spaces|cbv beta].
    rewrite rmatch_cat.
    replace (repeat space pad ++ go " " ++ tt ++ go "    " ++ ed ++ space :: sp ++ ds)
      with ((repeat space pad ++ [space]) ++ (tt ++ go "    " ++ ed ++ space :: sp ++ ds))
      by (rewrite <- app_assoc; reflexivity).
    apply (rmatch_plus cls_s (repeat space pad ++ [space]));
      [now destruct pad|apply forallb_spaces| |cbv beta].
    { unfold writtenTrack in Htt. cbn [In] in Htt.
      destruct Htt as [<-|[<-|[<-|[<-|[<-|[<-|[]]]]]]]; reflexivity. }
    rewrite rmatch_cat.
    change (go "    " ++ ed ++ space :: sp ++ ds)
      with (space :: go "   " ++ ed ++ space :: sp ++ ds).
    apply rmatch_track; [exact Htt|]. intro pos1. cbv beta.
    rewrite rmatch_cat.
    change (space :: go "   " ++ ed ++ space :: sp ++ ds)
      with (go "    " ++ (ed ++ space :: sp ++ ds)).
    apply (rmatch_plus cls_s (go "    ")); [discriminate|reflexivity| |cbv beta].
    { destruct Hed' as [-> | ->]; reflexivity. }
    rewrite rmatch_cat.
    apply rmatch_edit; [exact Hed'|]. intro pos2. cbv beta.
    change (space :: sp ++ ds) with ((space :: sp) ++ ds).
    rewrite rmatch_duration; [|cbn [forallb]; now rewrite Hsp|exact Hds].
    subst m. now destruct ds.
  - unfold headerOf, newEvent.
    cbn [EventNumber ReelName evTrackType evEditType TransitionDuration WipeCode].
    clearbody m.
    destruct G as (-> & -> & -> & -> & ->). rewrite Na, Hw.
    assert (Hwipe : (len ed =? 4)
                    && match ed with c :: _ => rune_eqb c 87%N | [] => false end = false).
    { destruct Hed' as [-> | ->]; reflexivity. }
    rewrite Hwipe.
    assert (Hd : (if gostring_eqb ds (go "") then 0 else Atoi ds) = TransitionDuration ev).
    { destruct Hdur as [[-> E]|[Hne E]]; [now rewrite E|].
      destruct ds; [contradiction|exact E]. }
    rewrite Hd. reflexivity.
Qed.

(** ** The failures of [Decode] *)


Section DecodeFailures.
Context {OT : Opentime} {CT : CaseTable}.
Variable rate : Q.






End DecodeFailures.

(** ** The events [Encode] writes *)

Section WrittenEvents.
Context {OT : Opentime}.

(** What every event [writeTrackEvents] hands to [writeEvent] looks
    like. *)
Definition writtenEvent (trackType : TrackType) (ev : EDLEvent) : Prop :=
  evTrackType ev = trackType
  /\ ReelName ev <> [] /\ forallb cls_S (ReelName ev) = true
  /\ (evEditType ev = EditTypeCut /\ TransitionDuration ev = 0
      \/ evEditType ev = EditTypeDissolve)
  /\ WipeCode ev = go "" /\ Comment ev = go "" /\ FilePath ev = go ""
  /\ FreezeFrame ev = false /\ evSpeedEffect ev = None /\ Markers ev = []
  /\ evASCCDL ev = None.

Lemma eventOfClip_writtenEvent (e : Encoder) (trackType : TrackType) (n : Z)
    (recordTime : RationalTime) (clip : Clip) (duration : RationalTime)
    (sourceRange : TimeRange) (next : list Composable) :
  writtenEvent trackType
    (eventOfClip e trackType n recordTime clip duration sourceRange next)
  /\ ClipName (eventOfClip e trackType n recordTime clip duration sourceRange next)
     = clipName clip.
Proof.
  unfold writtenEvent, eventOfClip.
  cbn [evTrackType ReelName evEditType TransitionDuration WipeCode Comment FilePath
       FreezeFrame evSpeedEffect Markers evASCCDL ClipName].
  destruct (SanitizeReelName_token
              (match clipMediaReference clip with
               | Some mediaRef =>
                   if gostring_eqb (MediaReference_Name mediaRef) (go "") then
                     match mediaRef with
                     | ExternalReference _ targetURL _ => targetURL
                     | GeneratorReference _ _ _ => MediaReference_Name mediaRef
                     end
                   else MediaReference_Name mediaRef
               | None => go "AX"
               end) (reelNameLen e)) as [Hr1 Hr2].
  fold (reelNameOf e clip) in Hr1, Hr2.
  repeat split; try assumption.
  unfold editOf. destruct next as [|[c|g|t|o] rest]; try (left; now split).
  destruct (gostring_eqb (transitionType t) (go "SMPTE_Dissolve"));
    [now right|left; now split].
Qed.

(** The events of a stretch of [writeTrackEvents]: one per clip. *)
Lemma writeChildren_events (e : Encoder) (trackType : TrackType) (k : nat) :
  forall (children : list Composable) (n : Z) (recordTime : RationalTime)
         (w : gostring) (n' : Z) (er : option error) (w' : gostring),
    (List.length children <= k)%nat ->
    writeChildren e trackType children n recordTime w = (n', er, w') ->
    exists evs,
      wrote w w' n n' evs
      /\ Forall (writtenEvent trackType) evs
      /\ (er = None -> List.map ClipName evs = List.map clipName (clipsIn children)).
Proof.
  induction k as [|k IH]; intros children n recordTime w n' er w' Hlen H.
  - destruct children; [|cbn in Hlen; lia].
    cbn in H. injection H as <- <- <-. exists [].
    split; [apply wrote_nil|]. split; [constructor|reflexivity].
  - destruct children as [|child rest].
    { cbn in H. injection H as <- <- <-. exists [].
      split; [apply wrote_nil|]. split; [constructor|reflexivity]. }
    cbn [List.length] in Hlen.
    destruct child as [clip|gap|tr|other]; cbn [writeChildren] in H.
    + destruct (Clip_Duration clip) as [duration|er1].
      2:{ injection H as <- <- <-. exists [].
          split; [apply wrote_nil|]. split; [constructor|discriminate]. }
      destruct (match clipSourceRange clip with
                | Some r => Ok r
                | None => Clip_AvailableRange clip
                end) as [sourceRange|er1].
      2:{ injection H as <- <- <-. exists [].
          split; [apply wrote_nil|]. split; [constructor|discriminate]. }
      set (event := eventOfClip e trackType n recordTime clip duration sourceRange rest) in H.
      assert (Hev : wrote w (writeEvent event w) n (n + 1) [event]).
      { unfold wrote, writeEvent. cbn. rewrite app_nil_r. repeat split. }
      destruct (eventOfClip_writtenEvent e trackType n recordTime clip duration
                  sourceRange rest) as [Hwe Hname]. fold event in Hwe, Hname.
      assert (Hrec : exists rest',
                 (List.length rest' <= k)%nat
                 /\ clipsIn rest' = clipsIn rest
                 /\ writeChildren e trackType rest' (n + 1) (Add recordTime duration)
                      (writeEvent event w) = (n', er, w')).
      { destruct rest as [|[c|g|t|o] rest'].
        - exists []. split; [cbn; lia|]. split; [reflexivity|exact H].
        - eexists. split; [|split; [reflexivity|exact H]]. cbn in *; lia.
        - eexists. split; [|split; [reflexivity|exact H]]. cbn in *; lia.
        - exists rest'. split; [cbn in *; lia|]. split; [reflexivity|exact H].
        - eexists. split; [|split; [reflexivity|exact H]]. cbn in *; lia. }
      destruct Hrec as (rest' & Hl & Hc & Hr).
      destruct (IH _ _ _ _ _ _ _ Hl Hr) as (evs & Hw & Hf & Hn).
      exists ([event] ++ evs). split; [eapply wrote_app; eassumption|].
      split; [constructor; assumption|].
      intro Her. cbn [app List.map]. rewrite (Hn Her), Hc, Hname. reflexivity.
    + destruct (Gap_Duration gap) as [duration|er1].
      2:{ injection H as <- <- <-. exists [].
          split; [apply wrote_nil|]. split; [constructor|discriminate]. }
      apply (IH rest) in H; [exact H|lia].
    + apply (IH rest) in H; [exact H|lia].
    + apply (IH rest) in H; [exact H|lia].
Qed.

Lemma writeAudioTracks_events (e : Encoder) (audioTracks : list Track) :
  forall (i : nat) (n : Z) (w : gostring) (n' : Z) (er : option error) (w' : gostring),
    writeAudioTracks e audioTracks i n w = (n', er, w') ->
    exists evs,
      wrote w w' n n' evs
      /\ Forall (fun ev => exists j, writtenEvent (audioTrackType j) ev) evs
      /\ (er = None ->
          List.map ClipName evs
          = List.map clipName (flat_map (fun tr => clipsIn (trackChildren tr)) audioTracks)).
Proof.
  induction audioTracks as [|track rest IH]; intros i n w n' er w' H;
    cbn [writeAudioTracks] in H.
  - injection H as <- <- <-. exists [].
    split; [apply wrote_nil|]. split; [constructor|reflexivity].
  - destruct (writeTrackEvents e track (audioTrackType i) n w) as [[n1 er1] w1] eqn:E.
    unfold writeTrackEvents in E.
    apply (writeChildren_events _ _ _ _ _ _ _ _ _ _ (Nat.le_refl _)) in E
      as (evs1 & Hw1 & Hf1 & Hn1).
    assert (Hf1' : Forall (fun ev => exists j, writtenEvent (audioTrackType j) ev) evs1).
    { eapply Forall_impl; [|exact Hf1]. intros ev Hev. now exists i. }
    destruct er1 as [er1|].
    + injection H as <- <- <-. exists evs1. split; [exact Hw1|].
      split; [exact Hf1'|discriminate].
    + apply IH in H as (evs2 & Hw2 & Hf2 & Hn2). exists (evs1 ++ evs2).
      split; [eapply wrote_app; eassumption|].
      split; [apply Forall_app; now split|].
      intro Her. cbn [flat_map]. rewrite !map_app, (Hn1 eq_refl), (Hn2 Her). reflexivity.
Qed.

(** The events of a whole [Encode]. *)
Lemma Encode_events (e : Encoder) (t : Timeline) (w : gostring)
    (er : option error) (w' : gostring) :
  Encode e (Some t) w = (er, w') ->
  exists evs,
    w' = writeHeader t w ++ List.concat (List.map eventText evs)
    /\ List.map EventNumber evs = countFrom 1 (List.length evs)
    /\ Forall (fun ev => exists tt, writtenTrack tt /\ writtenEvent tt ev) evs
    /\ (er = None ->
        List.map ClipName evs
        = List.map clipName
            (flat_map (fun tr => clipsIn (trackChildren tr))
                      (VideoTracks t ++ AudioTracks t))).
Proof.
  unfold Encode.
  destruct (1 <? Z.of_nat (List.length (VideoTracks t))) eqn:Ev.
  { intro H; injection H as <- <-. exists []. cbn [List.map List.concat List.length countFrom].
    rewrite app_nil_r. split; [reflexivity|]. split; [reflexivity|].
    split; [constructor|discriminate]. }
  apply Z.ltb_ge in Ev. intro H.
  assert (Haud : forall j, writtenTrack (audioTrackType j)).
  { intro j. unfold writtenTrack. destruct j as [|[|[|[|j]]]]; cbn; tauto. }
  assert (Hv : exists n1 er1 w1 vevs,
             wrote (writeHeader t w) w1 1 n1 vevs
             /\ Forall (writtenEvent TrackTypeVideo) vevs
             /\ (er1 = None ->
                 List.map ClipName vevs
                 = List.map clipName
                     (flat_map (fun tr => clipsIn (trackChildren tr)) (VideoTracks t)))
             /\ (match er1 with
                 | Some er0 => (Some er0, w1)
                 | None =>
                     let '(_, er0, w3) := writeAudioTracks e (AudioTracks t) 0 n1 w1 in
                     (er0, w3)
                 end) = (er, w')).
  { destruct (VideoTracks t) as [|track [|]]; [| |cbn [List.length] in Ev; lia].
    - exists 1, None, (writeHeader t w), []. split; [apply wrote_nil|].
      split; [constructor|]. split; [reflexivity|exact H].
    - destruct (writeTrackEvents e track TrackTypeVideo 1 (writeHeader t w))
        as [[n1 er1] w1] eqn:E.
      unfold writeTrackEvents in E.
      apply (writeChildren_events _ _ _ _ _ _ _ _ _ _ (Nat.le_refl _)) in E
        as (vevs & Hw & Hf & Hn).
      exists n1, er1, w1, vevs. split; [exact Hw|]. split; [exact Hf|].
      split; [|exact H]. intro Her. cbn [flat_map]. rewrite app_nil_r. now apply Hn. }
  destruct Hv as (n1 & er1 & w1 & vevs & Hwv & Hfv & Hnv & Ha).
  assert (Hfv' : Forall (fun ev => exists tt, writtenTrack tt /\ writtenEvent tt ev) vevs).
  { eapply Forall_impl; [|exact Hfv]. intros ev Hev. exists TrackTypeVideo.
    split; [|exact Hev]. unfold writtenTrack. now left. }
  destruct er1 as [er1|].
  - injection Ha as <- <-. destruct Hwv as (Hw & Hn & _). exists vevs.
    split; [exact Hw|]. split; [exact Hn|]. split; [exact Hfv'|discriminate].
  - destruct (writeAudioTracks e (AudioTracks t) 0 n1 w1) as [[n2 er2] w2] eqn:E.
    injection Ha as <- <-.
    apply writeAudioTracks_events in E as (aevs & Hwa & Hfa & Hna).
    pose proof (wrote_app _ _ _ _ _ _ _ _ Hwv Hwa) as (Hw & Hn & _).
    exists (vevs ++ aevs). split; [exact Hw|]. split; [exact Hn|]. split.
    + apply Forall_app. split; [exact Hfv'|].
      eapply Forall_impl; [|exact Hfa]. intros ev (j & Hev). exists (audioTrackType j).
      split; [apply Haud|exact Hev].
    + intro Her. rewrite flat_map_app, !map_app, (Hnv eq_refl), (Hna Her). reflexivity.
Qed.


End WrittenEvents.

(** ** Decoding, then encoding: no event is lost *)

Lemma groupOf_cons (k : TrackType) (ev : EDLEvent) (evs : list EDLEvent) :
  groupOf k (ev :: evs)
  = if gostring_eqb k (evTrackType ev) then ev :: groupOf k evs else groupOf k evs.
Proof. reflexivity. Qed.

Lemma groupOf_cons_keys (ev : EDLEvent) (evs : list EDLEvent) (keys : list TrackType) :
  NoDup keys ->
  (In (evTrackType ev) keys ->
   Permutation (flat_map (fun k => groupOf k (ev :: evs)) keys)
               (ev :: flat_map (fun k => groupOf k evs) keys))
  /\ (~ In (evTrackType ev) keys ->
      flat_map (fun k => groupOf k (ev :: evs)) keys
      = flat_map (fun k => groupOf k evs) keys).
Proof.
  induction 1 as [|k ks Hk Hnd [IH1 IH2]]; cbn [flat_map].
  - split; [intros []|reflexivity].
  - rewrite groupOf_cons. destruct (gostring_eqb k (evTrackType ev)) eqn:E.
    + apply gostring_eqb_eq in E. subst k. split.
      * intros _. cbn [app]. rewrite (IH2 Hk). reflexivity.
      * intro H. exfalso. apply H. now left.
    + apply gostring_eqb_neq in E. split.
      * intros [H|H]; [contradiction|].
        eapply Permutation_trans; [apply Permutation_app_head, (IH1 H)|].
        apply Permutation_sym, Permutation_middle.
      * intro H. rewrite IH2; [reflexivity|]. intro H'. apply H. now right.
Qed.

(** The groups of the track identifiers, one after the other, hold every
    event once. *)
Lemma groups_partition (keys : list TrackType) (evs : list EDLEvent) :
  NoDup keys ->
  (forall ev, In ev evs -> In (evTrackType ev) keys) ->
  Permutation (flat_map (fun k => groupOf k evs) keys) evs.
Proof.
  intros Hnd. induction evs as [|ev evs IH]; intro Hall.
  - replace (flat_map (fun k => groupOf k []) keys) with (@nil EDLEvent); [constructor|].
    clear. induction keys as [|k ks IH]; [reflexivity|]. cbn [flat_map]. now rewrite <- IH.
  - destruct (groupOf_cons_keys ev evs keys Hnd) as [H1 _].
    eapply Permutation_trans; [apply H1, Hall; now left|].
    constructor. apply IH. intros ev' H. apply Hall. now right.
Qed.

Lemma filter_partition {A : Type} (p q : A -> bool) (l : list A) :
  (forall x, In x l -> q x = negb (p x)) ->
  Permutation (filter p l ++ filter q l) l.
Proof.
  induction l as [|x l IH]; intro H; [constructor|].
  cbn [filter]. rewrite (H x (or_introl eq_refl)).
  assert (IH' : Permutation (filter p l ++ filter q l) l).
  { apply IH. intros y Hy. apply H. now right. }
  destruct (p x); cbn [negb app].
  - now constructor.
  - eapply Permutation_trans; [apply Permutation_sym, Permutation_middle|].
    now constructor.
Qed.

Section NoEventLost.
Context {OT : Opentime} {CT : CaseTable}.
Variable rate : Q.

Lemma clipOfEvent_names (evs : list EDLEvent) (cs : list Clip) :
  Forall2 (clipOfEvent rate) evs cs -> List.map clipName cs = List.map clipNameOf evs.
Proof.
  induction 1 as [|ev c evs cs (si & so & _ & _ & ->) _ IH]; [reflexivity|].
  cbn [List.map]. now rewrite IH.
Qed.

(** X28. No event is lost between [Decode] and [Encode]: when [Encode]
    succeeds on the timeline [Decode] returned for a text, it writes as
    many events as [parseEvents] read, and their clip names are, up to
    the order of the tracks, the names the timeline builder gave the
    clips of the events. *)
Theorem Decode_then_Encode_events
    (text : gostring) (evs : list EDLEvent) (t : Timeline) (e : Encoder)
    (w w' : gostring) :
  parseEvents (ScanLines text) = Ok evs ->
  Decode rate text (Ok t) ->
  Encode e (Some t) w = (None, w') ->
  exists written,
    w' = writeHeader t w ++ List.concat (List.map eventText written)
    /\ List.length written = List.length evs
    /\ Permutation (List.map ClipName written) (List.map clipNameOf evs).
Proof.
  intros Hp Hd He.
  destruct (Decode_tracks rate text evs t Hp Hd) as (Hnd & Hall & HF).
  apply Encode_events in He as (written & Hw & _ & _ & Hn). specialize (Hn eq_refl).
  assert (Hperm : Permutation (List.map ClipName written) (List.map clipNameOf evs)).
  { rewrite Hn.
    assert (Hkinds : Permutation (VideoTracks t ++ AudioTracks t) (timelineTracks t)).
    { unfold VideoTracks, AudioTracks. apply filter_partition. intros tr Hin.
      rewrite Forall_forall in HF. destruct (HF tr Hin) as (_ & _ & Hk). rewrite Hk.
      now destruct (IsAudioTrack (trackName tr)). }
    eapply Permutation_trans;
      [apply Permutation_map, Permutation_flat_map, Hkinds|].
    assert (Hnames : List.map clipName
                       (flat_map (fun tr => clipsIn (trackChildren tr)) (timelineTracks t))
                     = List.map clipNameOf
                         (flat_map (fun k => groupOf k evs)
                                   (List.map trackName (timelineTracks t)))).
    { clear Hnd Hall Hkinds Hn. induction HF as [|tr trs (Hc & _ & _) _ IH]; [reflexivity|].
      cbn [flat_map List.map]. rewrite !map_app, IH.
      now rewrite (clipOfEvent_names _ _ Hc). }
    rewrite Hnames. apply Permutation_map. now apply groups_partition. }
  exists written. split; [exact Hw|]. split; [|exact Hperm].
  apply Permutation_length in Hperm. now rewrite !length_map in Hperm.
Qed.

End NoEventLost.

(** ** Clip names *)

(** X29. The clip name [parseEvents] takes from a FROM CLIP NAME line has
    no white space at its ends and no line feed, and the name the
    timeline builder gives the clip of a parsed event (the clip name, or
    the reel name when there is none, without a freeze-frame suffix) is
    never empty. *)
Theorem parseEvents_clip_names (text : gostring) (evs : list EDLEvent) :
  parseEvents (ScanLines text) = Ok evs ->
  Forall (fun ev =>
            TrimSpace (ClipName ev) = ClipName ev /\ noLineFeed (ClipName ev)
            /\ clipNameOf ev <> [] /\ noLineFeed (clipNameOf ev))
         evs.
Proof.
  intro H. apply parseEvents_wellFormed in H.
  eapply Forall_impl; [|exact H]. intros ev Hw.
  pose proof (clipNameOf_wellFormed ev Hw) as [H1 H2].
  destruct Hw as (_ & _ & H3 & H4). repeat split; assumption.
Qed.

(** ** More concrete inputs *)
Module MoreInputs.
Import Sample Inputs.





(** The text of [TestDecoder_ComprehensiveFeatures] and its events. *)
Definition comprehensiveEDL : gostring :=
  go ("TITLE:   Comprehensive_Features_Test" ++ lf
      ++ "FCM: NON-DROP FRAME" ++ lf
      ++ "001  BLACK    V     C" ++ lf
      ++ "     00:00:00:00 00:00:02:00 00:00:00:00 00:00:02:00" ++ lf
      ++ "* FROM CLIP NAME: BlackLeader" ++ lf
      ++ "002  ZZ100_50 V     C" ++ lf
      ++ "     01:00:04:05 01:00:05:12 00:00:02:00 00:00:03:07" ++ lf
      ++ "* FROM CLIP NAME:  Speed_Clip" ++ lf
      ++ "* FROM CLIP: S:\path\to\ZZ100_501.speed.0001.exr" ++ lf
      ++ "M2   ZZ100_50       047.6                01:00:04:05" ++ lf
      ++ "* ASC_SOP (1.5 1.0 0.9) (0.1 -0.2 0.0) (1.0 1.1 0.95)" ++ lf
      ++ "* ASC_SAT 0.9" ++ lf
      ++ "* LOC: 01:00:04:10 RED Start marker" ++ lf
      ++ "003  BARS     V     C" ++ lf
      ++ "     00:00:00:00 00:00:03:00 00:00:03:07 00:00:06:07" ++ lf
      ++ "* FROM CLIP NAME: ColorBars" ++ lf
      ++ "004  ZZ100_51 V     W001    030" ++ lf
      ++ "     01:00:06:13 01:00:08:15 00:00:06:07 00:00:08:09" ++ lf
      ++ "* FROM CLIP NAME:  Wipe_Clip" ++ lf
      ++ "* FROM FILE: S:\path\to\ZZ100_502A.wipe.0101.exr" ++ lf
      ++ "005  ZZ100_52 V     C" ++ lf
      ++ "     01:00:10:00 01:00:12:00 00:00:08:09 00:00:10:09" ++ lf
      ++ "* FROM CLIP NAME: FrozenClip FF" ++ lf
      ++ "* FREEZE FRAME" ++ lf).

Definition comprehensiveEvents : list EDLEvent :=
  Eval vm_compute in
    match parseEvents (ScanLines comprehensiveEDL) with
    | Ok evs => evs
    | Err _ => []
    end.

(** Lines around an FCM line. *)
Definition beforeFcm : list gostring := [go "TITLE: Frame Count Mode"].
Definition afterFcm : list gostring :=
  [go "001  AX       V     C";
   go "     00:00:00:00 00:00:05:00 00:00:00:00 00:00:05:00"].

(** An event whose source-out names frame 30 of a second of 24. *)
Definition frame30Event : EDLEvent :=
  mkEDLEvent 2 (go "CLIP2") (go "V") (go "C") (go "01:00:06:00") (go "01:00:07:30")
    (go "00:00:01:07") (go "00:00:02:07") (go "") (go "Clip2") 0 (go "") None false
    (go "") [] None.

(** Events on V and on AA. *)
Definition videoAndAA : gostring :=
  go ("TITLE: Two Tracks" ++ lf ++ "FCM: NON-DROP FRAME" ++ lf ++ lf
      ++ "001  CLIP1    V     C" ++ lf
      ++ "     00:00:00:00 00:00:05:00 00:00:00:00 00:00:05:00" ++ lf
      ++ "002  CLIP2    AA    C" ++ lf
      ++ "     00:00:00:00 00:00:05:00 00:00:00:00 00:00:05:00" ++ lf).

Definition videoAndAAEvents : list EDLEvent :=
  Eval vm_compute in
    match parseEvents (ScanLines videoAndAA) with
    | Ok evs => evs
    | Err _ => []
    end.

Definition videoAndAATimeline : Timeline := Eval vm_compute in timelineOfText videoAndAA.

(** An event as the encoder writes them: a dissolve of 30 frames on A2. *)
Definition dissolveEvent : EDLEvent :=
  mkEDLEvent 12 (go "REEL_1") TrackTypeAudio2 EditTypeDissolve (go "01:00:00:00")
    (go "01:00:01:00") (go "00:00:10:00") (go "00:00:11:00") (go "") (go "Shot") 30
    (go "") None false (go "") [] None.

End MoreInputs.

(** ** The properties above on concrete inputs *)



Section ExtrasOnSample.
#[local] Existing Instance Sample.opentime.
#[local] Existing Instance Sample.caseTable.



Lemma comprehensive_parse :
  parseEvents (ScanLines MoreInputs.comprehensiveEDL) = Ok MoreInputs.comprehensiveEvents.
Proof. vm_compute. reflexivity. Qed.

Lemma parseEvents_header_fields_witness :
  Forall headerFieldsOK MoreInputs.comprehensiveEvents.
Proof.
  apply (parseEvents_header_fields (ScanLines MoreInputs.comprehensiveEDL)).
  exact comprehensive_parse.
Defined.

Lemma parseEvents_timecodes_witness :
  Forall timecodesRead (removelast MoreInputs.comprehensiveEvents)
  /\ Forall (fun ev => timecodesRead ev \/ timecodesMissing ev)
            MoreInputs.comprehensiveEvents.
Proof.
  apply (parseEvents_timecodes (ScanLines MoreInputs.comprehensiveEDL)).
  exact comprehensive_parse.
Defined.

Lemma parseEvents_headers_witness :
  List.map headerOf MoreInputs.comprehensiveEvents
  = flat_map headerFieldsOf (ScanLines MoreInputs.comprehensiveEDL).
Proof.
  apply parseEvents_headers. exact comprehensive_parse.
Defined.

Lemma parseEvents_ignores_FCM_witness :
  parseEvents (MoreInputs.beforeFcm ++ go "FCM: DROP FRAME" :: MoreInputs.afterFcm)
  = parseEvents (MoreInputs.beforeFcm ++ go "FCM: NON-DROP FRAME" :: MoreInputs.afterFcm).
Proof.
  apply parseEvents_ignores_FCM; vm_compute; reflexivity.
Defined.


Lemma parseEvents_clip_names_witness :
  Forall (fun ev =>
            TrimSpace (ClipName ev) = ClipName ev /\ noLineFeed (ClipName ev)
            /\ clipNameOf ev <> [] /\ noLineFeed (clipNameOf ev))
         MoreInputs.comprehensiveEvents.
Proof.
  apply (parseEvents_clip_names MoreInputs.comprehensiveEDL).
  exact comprehensive_parse.
Defined.

Lemma createTrack_gapTrack :
  createTrack 24 (go "V") [Inputs.cutEvent; Inputs.laterEvent] = Ok Inputs.gapTrack.
Proof. reflexivity. Qed.

Lemma createTrack_clips_witness :
  trackName Inputs.gapTrack = go "V"
  /\ trackKind Inputs.gapTrack
     = (if IsAudioTrack (go "V") then TrackKindAudio else TrackKindVideo)
  /\ Forall2 (clipOfEvent 24) [Inputs.cutEvent; Inputs.laterEvent]
             (clipsIn (trackChildren Inputs.gapTrack)).
Proof.
  apply (createTrack_clips 24 (go "V") [Inputs.cutEvent; Inputs.laterEvent]
           Inputs.gapTrack).
  exact createTrack_gapTrack.
Defined.

Lemma createTrack_first_unreadable_witness :
  createTrack 24 (go "V")
    ([Inputs.cutEvent] ++ MoreInputs.frame30Event :: [Inputs.laterEvent])
  = Err (InvalidTimecode FSourceOut (go "01:00:07:30")).
Proof.
  apply createTrack_first_unreadable; vm_compute; reflexivity.
Defined.

Lemma createTrack_no_leading_gap_witness :
  exists si so rest,
    trackChildren Inputs.gapTrack
    = transitionOf 24 Inputs.cutEvent ++ CClip (clipOf 24 Inputs.cutEvent si so) :: rest.
Proof.
  apply (createTrack_no_leading_gap 24 (go "V") Inputs.cutEvent [Inputs.laterEvent]
           Inputs.gapTrack).
  - reflexivity.
  - exact createTrack_gapTrack.
Defined.

Lemma audio_parse : parseEvents (ScanLines Inputs.audioEDL) = Ok Inputs.audioEvents.
Proof. vm_compute. reflexivity. Qed.

Lemma Decode_tracks_by_type_witness :
  NoDup (List.map trackName (timelineTracks Inputs.audioA1A2))
  /\ (forall ev, In ev Inputs.audioEvents ->
        In (evTrackType ev) (List.map trackName (timelineTracks Inputs.audioA1A2)))
  /\ Forall (fun tr =>
               Forall2 (clipOfEvent 24) (groupOf (trackName tr) Inputs.audioEvents)
                       (clipsIn (trackChildren tr))
               /\ clipsIn (trackChildren tr) <> [])
            (timelineTracks Inputs.audioA1A2).
Proof.
  apply (Decode_tracks_by_type 24 Inputs.audioEDL Inputs.audioEvents Inputs.audioA1A2).
  - exact audio_parse.
  - exact Decode_first_seen_order.
Defined.

Lemma freeze_parse : parseEvents (ScanLines Inputs.freezeEDL) = Ok [Inputs.freezeEvent].
Proof. vm_compute. reflexivity. Qed.

Lemma Decode_one_track_type_witness :
  Ok Inputs.freezeFirst = Ok Inputs.freezeFirst.
Proof.
  apply (Decode_one_track_type 24 Inputs.freezeEDL [Inputs.freezeEvent] (go "V")
           (Ok Inputs.freezeFirst) (Ok Inputs.freezeFirst)).
  - exact freeze_parse.
  - repeat constructor.
  - exact Decode_freezeEDL.
  - exact Decode_freezeEDL.
Defined.

Lemma formatTimecode_no_semicolon_witness :
  forallb (fun c => negb (rune_eqb c 59%N))
          (formatTimecode NewEncoder (Inputs.frames 100)) = true.
Proof.
  apply formatTimecode_no_semicolon. reflexivity.
Defined.


Lemma Decode_then_Encode_title_witness :
  timelineName Inputs.freezeFirst = go ""
  /\ exists rest,
       snd (Encode NewEncoder (Some Inputs.freezeFirst) [])
       = [] ++ go "TITLE: Timeline" ++ newline ++ go "FCM: NON-DROP FRAME" ++ newline
         ++ newline ++ rest.
Proof.
  apply (Decode_then_Encode_title 24 NewEncoder Inputs.freezeEDL Inputs.freezeFirst []).
  exact Decode_freezeEDL.
Defined.

Lemma one_event_rewritten_witness :
  exists ev',
    Encode NewEncoder (Some Inputs.freezeFirst) []
    = (None,
       go "TITLE: Timeline" ++ newline ++ go "FCM: NON-DROP FRAME" ++ newline ++ newline
       ++ eventText ev')
    /\ EventNumber ev' = 1
    /\ evEditType ev' = EditTypeCut /\ TransitionDuration ev' = 0
    /\ evTrackType ev'
       = (if IsAudioTrack (evTrackType Inputs.freezeEvent) then TrackTypeAudio1
          else TrackTypeVideo)
    /\ RecordIn ev' = formatTimecode NewEncoder (NewRationalTime 0 (encRate NewEncoder))
    /\ ClipName ev' = clipNameOf Inputs.freezeEvent.
Proof.
  apply (one_event_rewritten 24 NewEncoder Inputs.freezeEDL Inputs.freezeEvent
           Inputs.freezeFirst).
  - reflexivity.
  - exact freeze_parse.
  - exact Decode_freezeEDL.
Defined.

Lemma eventLineOf_parses_witness :
  exists m,
    FindStringSubmatch eventLineRegex (eventLineOf MoreInputs.dissolveEvent) = Some m
    /\ headerOf (newEvent m) = headerOf MoreInputs.dissolveEvent.
Proof.
  apply eventLineOf_parses.
  - vm_compute. split; [reflexivity|discriminate].
  - discriminate.
  - reflexivity.
  - unfold writtenTrack. cbn [In MoreInputs.dissolveEvent evTrackType]. tauto.
  - right. split; [reflexivity|]. vm_compute. split; discriminate.
  - reflexivity.
Defined.

Lemma videoAndAA_parse :
  parseEvents (ScanLines MoreInputs.videoAndAA) = Ok MoreInputs.videoAndAAEvents.
Proof. vm_compute. reflexivity. Qed.

Lemma Decode_videoAndAA :
  Decode 24 MoreInputs.videoAndAA (Ok MoreInputs.videoAndAATimeline).
Proof.
  unfold Decode. rewrite videoAndAA_parse.
  exists (trackMapOf MoreInputs.videoAndAAEvents). split; [apply Permutation_refl|].
  reflexivity.
Qed.

Lemma Decode_then_Encode_refused_witness :
  fst (Encode NewEncoder (Some MoreInputs.videoAndAATimeline) [])
  = Some (EncodeError (go "EDL format supports only one video track")).
Proof.
  apply (Decode_then_Encode_refused 24 MoreInputs.videoAndAA MoreInputs.videoAndAAEvents
           (nth 0 MoreInputs.videoAndAAEvents Inputs.headerAtEndEvent)
           (nth 1 MoreInputs.videoAndAAEvents Inputs.headerAtEndEvent)).
  - exact videoAndAA_parse.
  - left. reflexivity.
  - right. left. reflexivity.
  - vm_compute. discriminate.
  - reflexivity.
  - reflexivity.
  - exact Decode_videoAndAA.
Defined.


Lemma Encode_audioA1A2 :
  Encode NewEncoder (Some Inputs.audioA1A2) [] = (None, Inputs.audioA1A2Text).
Proof. vm_compute. reflexivity. Qed.


Lemma Decode_then_Encode_events_witness :
  exists written,
    Inputs.audioA1A2Text
    = writeHeader Inputs.audioA1A2 [] ++ List.concat (List.map eventText written)
    /\ List.length written = List.length Inputs.audioEvents
    /\ Permutation (List.map ClipName written) (List.map clipNameOf Inputs.audioEvents).
Proof.
  apply (Decode_then_Encode_events 24 Inputs.audioEDL Inputs.audioEvents Inputs.audioA1A2
           NewEncoder [] Inputs.audioA1A2Text).
  - exact audio_parse.
  - exact Decode_first_seen_order.
  - exact Encode_audioA1A2.
Defined.

End ExtrasOnSample.
